(** * kfp-tekton compiler: a shallow embedding of
    [sdk/python/kfp_tekton/compiler/compiler.py] and the properties of its
    lowering passes.

    The Python code manipulates strings, regular expressions, dictionaries
    and lists.  Strings are [string], dictionaries whose order matters are
    association lists, the dependency map is a [gmap] of [gset]s, and code
    that may raise returns a [result]. *)

From Stdlib Require Import Ascii String.
From stdpp Require Import gmap strings list sorting pretty.

Local Open Scope stdpp_scope.
#[local] Set Warnings "-clear-no-such-hyp,-register-all".
#[local] Arguments String.append !_ _ / : simpl nomatch.

(** ** Python string primitives *)

Module PyStr.

(** [s[n:]] *)
Fixpoint drop (n : nat) (s : string) : string :=
  match n, s with
  | S n', String _ s' => drop n' s'
  | _, _ => s
  end.

(** [s[:n]] *)
Fixpoint take (n : nat) (s : string) : string :=
  match n, s with
  | S n', String c s' => String c (take n' s')
  | _, _ => EmptyString
  end.

(** [s.startswith(p)] *)
Definition startswith (p s : string) : bool := String.prefix p s.
#[global] Arguments startswith : simpl never.

(** [p in s] *)
Fixpoint contains (p s : string) : bool :=
  startswith p s ||
  match s with
  | EmptyString => false
  | String _ s' => contains p s'
  end.

(** [s.replace(old, new)] for a non-empty [old]: every occurrence, leftmost
    first, occurrences do not overlap.  [skip] counts the characters of an
    occurrence still to be dropped. *)
Fixpoint replace_from (old new : string) (skip : nat) (s : string) : string :=
  match s with
  | EmptyString => EmptyString
  | String c s' =>
      match skip with
      | S k => replace_from old new k s'
      | O =>
          if startswith old s
          then new +:+ replace_from old new (String.length old - 1) s'
          else String c (replace_from old new 0 s')
      end
  end.

(** With an empty [old], Python puts [new] before every character and at
    the end. *)
Fixpoint intersperse (new s : string) : string :=
  match s with
  | EmptyString => new
  | String c s' => new +:+ String c (intersperse new s')
  end.

Definition replace (old new s : string) : string :=
  match old with
  | EmptyString => intersperse new s
  | _ => replace_from old new 0 s
  end.

(** [sep.join(l)] *)
Fixpoint join (sep : string) (l : list string) : string :=
  match l with
  | [] => EmptyString
  | [x] => x
  | x :: l' => x +:+ sep +:+ join sep l'
  end.

End PyStr.

(** ** The fragment of Python's [re] the compiler uses

  Every pattern of the compiler is a sequence of literals, [.], and greedy
  repetitions of a negated character class, some of them captured.  The
  matcher is the backtracking one of [re]: a greedy repetition takes the
  longest run first and gives characters back one at a time. *)

Module Re.
Import PyStr.

Inductive atom :=
| Lit (s : string)                       (* literal text *)
| AnyChar                                (* [.]: any character but newline *)
| Grp (lo : nat) (excl : list ascii)     (* captured greedy run of a negated class: star for lo = 0, plus for lo = 1 *)
| Rep (lo : nat) (excl : list ascii).    (* the same, not captured *)

Definition newline : ascii := "010"%char.
Definition tab : ascii := "009"%char.

(** Length of the longest prefix of [s] with no character of [excl]. *)
Fixpoint span (excl : list ascii) (s : string) : nat :=
  match s with
  | EmptyString => 0
  | String c s' => if bool_decide (c ∈ excl) then 0 else S (span excl s')
  end.

(** Try [k n], then [k (n-1)], ... down to [k 0]. *)
Fixpoint backtrack {A} (k : nat → option A) (n : nat) : option A :=
  match k n with
  | Some r => Some r
  | None => match n with O => None | S n' => backtrack k n' end
  end.

(** [match_here p s]: the captured groups and the number of characters
    consumed by the first successful way of matching [p] at the start of
    [s]. *)
Fixpoint match_here (p : list atom) (s : string) : option (list string * nat) :=
  match p with
  | [] => Some ([], 0)
  | Lit l :: p' =>
      if startswith l s then
        match match_here p' (drop (String.length l) s) with
        | Some (gs, m) => Some (gs, String.length l + m)
        | None => None
        end
      else None
  | AnyChar :: p' =>
      match s with
      | EmptyString => None
      | String c s' =>
          if bool_decide (c = newline) then None
          else match match_here p' s' with
               | Some (gs, m) => Some (gs, S m)
               | None => None
               end
      end
  | Grp lo excl :: p' =>
      backtrack (λ n,
        if bool_decide (lo ≤ n) then
          match match_here p' (drop n s) with
          | Some (gs, m) => Some (take n s :: gs, n + m)
          | None => None
          end
        else None) (span excl s)
  | Rep lo excl :: p' =>
      backtrack (λ n,
        if bool_decide (lo ≤ n) then
          match match_here p' (drop n s) with
          | Some (gs, m) => Some (gs, n + m)
          | None => None
          end
        else None) (span excl s)
  end.

(** The scan of [re.findall]: leftmost matches, not overlapping.  Each
    match is reported with its text and its groups. *)
Fixpoint scan (p : list atom) (skip : nat) (s : string) : list (string * list string) :=
  match s with
  | EmptyString =>
      match skip, match_here p EmptyString with
      | O, Some (gs, _) => [(EmptyString, gs)]
      | _, _ => []
      end
  | String _ s' =>
      match skip with
      | S k => scan p k s'
      | O =>
          match match_here p s with
          | Some (gs, m) => (take m s, gs) :: scan p (m - 1) s'
          | None => scan p 0 s'
          end
      end
  end.

(** [re.findall] for a pattern with two groups: the list of pairs. *)
Definition findall2 (p : list atom) (s : string) : list (string * string) :=
  omap (λ m, match snd m with [g1; g2] => Some (g1, g2) | _ => None end) (scan p 0 s).

(** [re.findall] for a pattern with one group: the list of its texts. *)
Definition findall1 (p : list atom) (s : string) : list string :=
  omap (λ m, match snd m with [g] => Some g | _ => None end) (scan p 0 s).

(** [re.findall] for a pattern without groups: the matched texts. *)
Definition findall0 (p : list atom) (s : string) : list string :=
  fst <$> scan p 0 s.

(** [re.sub(p, repl, s)] for a replacement text without backslash: every
    match, leftmost first, is replaced by [repl]. *)
Fixpoint sub_from (p : list atom) (repl : string) (skip : nat) (s : string) : string :=
  match s with
  | EmptyString =>
      match skip, match_here p EmptyString with
      | O, Some _ => repl
      | _, _ => EmptyString
      end
  | String c s' =>
      match skip with
      | S k => sub_from p repl k s'
      | O =>
          match match_here p s with
          | Some (_, O) => repl +:+ String c (sub_from p repl 0 s')
          | Some (_, S m) => repl +:+ sub_from p repl m s'
          | None => String c (sub_from p repl 0 s')
          end
      end
  end.

Definition sub (p : list atom) (repl s : string) : string := sub_from p repl 0 s.

End Re.

(** ** [process_pipelineparam] *)

(** The keyword arguments of [sanitize_k8s_name] that the compiler sets;
  the defaults are those of a call with the name alone. *)
Record k8s_opts := K8sOpts {
  allow_capital_underscore : bool;
  allow_dot : bool;
  allow_slash : bool;
  max_length : nat;
  suffix_space : nat;
  allow_capital : bool
}.

Definition k8s_default : k8s_opts := K8sOpts false false false 57 0 false.
(** [sanitize_k8s_name(x, allow_capital=True)] *)
Definition k8s_capital : k8s_opts := K8sOpts false false false 57 0 true.
(** [sanitize_k8s_name(x, True)]: the first optional parameter. *)
Definition k8s_capital_underscore : k8s_opts := K8sOpts true false false 57 0 false.

(** A [dsl.PipelineParam]: the name of the producing op, if any, and the
    parameter's name. *)
Record PipelineParam := Param {
  pp_op_name : option string;
  pp_name : string
}.

(** Python's truth value of [op_name]: [None] and the empty string are false. *)
Definition truthy (o : option string) : bool :=
  match o with
  | Some (String _ _) => true
  | _ => false
  end.

(** [PipelineParam.full_name] of the kfp DSL: [op_name + '-' + name] when
    the parameter has a producer, the name alone otherwise. *)
Definition full_name (pp : PipelineParam) : string :=
  if truthy (pp_op_name pp)
  then default "" (pp_op_name pp) +:+ "-" +:+ pp_name pp
  else pp_name pp.

Module Rewriter.
Import PyStr Re.

(** [[^ \t\n,]] *)
Definition separators : list ascii := [" "%char; tab; newline; ","%char].

(** The pattern of [process_pipelineparam]: the literal
    [{{pipelineparam:op=], a captured starred class excluding space, tab,
    newline and comma, the literal [;name=], the same class again, and
    the closing braces. *)
Definition pipelineparam_re : list atom :=
  [Lit "{{pipelineparam:op="; Grp 0 separators; Lit ";name="; Grp 0 separators; Lit "}}"].

(** ["{{pipelineparam:op=%s;name=%s}}" % pipe_param] *)
Definition placeholder (op name : string) : string :=
  "{{pipelineparam:op=" +:+ op +:+ ";name=" +:+ name +:+ "}}".

(** ['$(params.%s)' % name] *)
Definition params_ref (name : string) : string := "$(params." +:+ name +:+ ")".

(** ['$(tasks.%s.results.%s)' % (op, name)] *)
Definition tasks_ref (op name : string) : string :=
  "$(tasks." +:+ op +:+ ".results." +:+ name +:+ ")".

(** The class excluding space, tab, newline and [.:,;{}]. *)
Definition name_stops : list ascii :=
  [" "%char; tab; newline; "."%char; ":"%char; ","%char; ";"%char; "{"%char; "}"%char].

(** The pattern of the parameters of a custom task: [$(inputs], any
    character, [params], any character, a captured run of one or more
    characters outside [name_stops], and a closing parenthesis. *)
Definition inputs_param_re : list atom :=
  [Lit "$(inputs"; AnyChar; Lit "params"; AnyChar; Grp 1 name_stops; Lit ")"].

Section WithSanitizer.
(** [sanitize_k8s_name] comes from [_k8s_helper.py]; the rewriter only
    calls it. *)
Variable sanitize_k8s_name : k8s_opts → string → string.

(** The body of the loop over [pipe_params]. *)
Definition substitute (s : string) (pipe_param : string * string) : string :=
  let '(op, name) := pipe_param in
  if bool_decide (op = "")
  then replace (placeholder op name) (params_ref name) s
  else
    let param_name := sanitize_k8s_name k8s_capital name in
    replace (placeholder op name)
            (tasks_ref (sanitize_k8s_name k8s_default op) param_name) s.

Definition process_pipelineparam (s : string) : string :=
  if contains "{{pipelineparam" s
  then foldl substitute s (findall2 pipelineparam_re s)
  else s.

(** *** Parameters of custom tasks ([_create_pipeline_workflow], the branch
    ['orig_params' in task]) *)

(** The rewriting of one [pipeline_param] found in a parameter value: the
    text that replaces [$(inputs.params.<pipeline_param>)], if any.
    [names] is [pipeline_param_names + loop_args], [inputs] is [op.inputs]. *)
Definition substitute_param (names : list string) (inputs : list PipelineParam)
    (pipeline_param : string) : option string :=
  if bool_decide (pipeline_param ∈ names)
  then Some (params_ref pipeline_param)
  else
    match List.find (λ pp, bool_decide (pipeline_param = full_name pp)) inputs with
    | Some pp =>
        if truthy (pp_op_name pp)
        then Some (tasks_ref (sanitize_k8s_name k8s_default (default "" (pp_op_name pp)))
                             (sanitize_k8s_name k8s_capital (pp_name pp)))
        else Some (params_ref pipeline_param)
    | None => None
    end.

(** The pattern built for [re.sub]: [pipeline_param] is spliced into the
    pattern as it is, so the model takes it literally, which is what [re]
    does for a name without metacharacters. *)
Definition inputs_param_pattern (pipeline_param : string) : list atom :=
  [Lit "$(inputs"; AnyChar; Lit "params"; AnyChar; Lit pipeline_param; Lit ")"].

(** The loop over [pipeline_params] for one task parameter [tp]. *)
Definition custom_task_value (orig_params names : list string) (inputs : list PipelineParam)
    (value : string) : string :=
  foldl (λ v pipeline_param,
           if bool_decide (pipeline_param ∈ orig_params) then
             match substitute_param names inputs pipeline_param with
             | Some substitute => sub (inputs_param_pattern pipeline_param) substitute v
             | None => v
             end
           else v)
        value (findall1 inputs_param_re value).
End WithSanitizer.

End Rewriter.


(** ** The name sanitizer *)

Module K8s.

Definition is_upper (c : ascii) : bool :=
  let n := nat_of_ascii c in bool_decide (65 ≤ n ≤ 90).
Definition is_lower (c : ascii) : bool :=
  let n := nat_of_ascii c in bool_decide (97 ≤ n ≤ 122).
Definition is_digit (c : ascii) : bool :=
  let n := nat_of_ascii c in bool_decide (48 ≤ n ≤ 57).
Definition to_lower (c : ascii) : ascii :=
  if is_upper c then ascii_of_nat (nat_of_ascii c + 32) else c.

(** The characters a name keeps under the options [o]. *)
Definition allowed (o : k8s_opts) (c : ascii) : bool :=
  is_lower c || is_digit c || bool_decide (c = "-"%char)
  || (is_upper c && (allow_capital o || allow_capital_underscore o))
  || (bool_decide (c = "_"%char) && allow_capital_underscore o)
  || (bool_decide (c = "."%char) && allow_dot o)
  || (bool_decide (c = "/"%char) && allow_slash o).

Definition map_char (o : k8s_opts) (c : ascii) : ascii :=
  let c' := if allow_capital o || allow_capital_underscore o then c else to_lower c in
  if allowed o c' then c' else "-"%char.

(** Runs of dashes become one dash; [prev] tells that the last character
    kept was a dash (or that nothing was kept yet, which strips the leading
    dashes). *)
Fixpoint squeeze (prev : bool) (l : list ascii) : list ascii :=
  match l with
  | [] => []
  | c :: l' =>
      if bool_decide (c = "-"%char)
      then (if prev then squeeze true l' else c :: squeeze true l')
      else c :: squeeze false l'
  end.

Fixpoint rstrip_dash_rev (l : list ascii) : list ascii :=
  match l with
  | c :: l' => if bool_decide (c = "-"%char) then rstrip_dash_rev l' else l
  | [] => []
  end.

Definition rstrip_dash (l : list ascii) : list ascii :=
  reverse (rstrip_dash_rev (reverse l)).

(** Modelled from the spec: [sanitize_k8s_name] is defined in
    [_k8s_helper.py], which is not part of the sources at hand.  The spec
    calls it a pure string transform into the engine's allowed-identifier
    charset (alphanumeric plus limited punctuation, length-bounded): every
    character outside the charset becomes a dash, capitals are lowered
    unless allowed, runs of dashes collapse, enclosing dashes are stripped,
    and the result is cut to [max_length - suffix_space] characters.  The
    theorems below hold for every sanitizer; this one serves the concrete
    instances. *)
Definition sanitize_k8s_name (o : k8s_opts) (name : string) : string :=
  let l := map_char o <$> String.list_ascii_of_string name in
  let l := rstrip_dash (squeeze true l) in
  let l := rstrip_dash (firstn (max_length o - suffix_space o) l) in
  String.string_of_list_ascii l.

End K8s.

(** ** Exceptions and Python values *)

Inductive exn :=
| ValueError (msg : string)
| RuntimeError (msg : string)
| IndexError
| KeyError (key : string)
| TypeError
| AttributeError.

(** The outcome of code that may raise. *)
Inductive result (A : Type) :=
| Ok (a : A)
| Raise (e : exn).
Arguments Ok {A} a.
Arguments Raise {A} e.

#[global] Instance result_ret : MRet result := @Ok.
#[global] Instance result_bind : MBind result :=
  λ A B f r, match r with Ok a => f a | Raise e => Raise e end.

(** The values the compiler moves around: JSON-like documents, and the
    [dsl.PipelineParam] objects found among the items of a loop.  A [dict]
    keeps its insertion order.  The inliner stores in a task the very
    dictionary [crs[i]['spec']] of an auxiliary document, which it goes on
    changing in place: [PSpecOf i] is that shared dictionary, read through
    the list of the auxiliary documents. *)
Inductive pyval :=
| PNone
| PBool (b : bool)
| PInt (n : Z)
| PStr (s : string)
| PParam (p : PipelineParam)
| PList (l : list pyval)
| PDict (d : list (string * pyval))
| PSpecOf (i : nat).

Module PyDict.

(** [k in d] *)
Definition mem {A} (k : string) (d : list (string * A)) : bool :=
  bool_decide (k ∈ d.*1).

(** [d.get(k)] *)
Fixpoint get {A} (k : string) (d : list (string * A)) : option A :=
  match d with
  | [] => None
  | (k', v) :: d' => if bool_decide (k = k') then Some v else get k d'
  end.

(** [d[k] = v]: a key already there keeps its place. *)
Fixpoint set {A} (k : string) (v : A) (d : list (string * A)) : list (string * A) :=
  match d with
  | [] => [(k, v)]
  | (k', v') :: d' =>
      if bool_decide (k = k') then (k, v) :: d' else (k', v') :: set k v d'
  end.

(** [d.pop(k)], the dictionary that is left. *)
Definition remove {A} (k : string) (d : list (string * A)) : list (string * A) :=
  filter (λ kv, kv.1 ≠ k) d.

(** Insertion of an item into a list sorted by key. *)
Fixpoint insert_sorted {A} (x : string * A) (l : list (string * A)) : list (string * A) :=
  match l with
  | [] => [x]
  | y :: l' => if String.leb x.1 y.1 then x :: l else y :: insert_sorted x l'
  end.

(** [sorted(d.items())]: the keys of a dictionary differ, so the order of
    the keys (by code point) decides. *)
Definition sorted_items {A} (d : list (string * A)) : list (string * A) :=
  foldr insert_sorted [] d.

End PyDict.

(** ** [json.dumps] *)

Module Json.
Import PyStr.

Definition dquote : ascii := "034"%char.
Definition backslash : ascii := "092"%char.

Definition hex_digit (n : nat) : ascii :=
  if bool_decide (n < 10) then ascii_of_nat (48 + n) else ascii_of_nat (87 + n).

(** The escape of one character under [ensure_ascii]: printable ASCII
    stays, the rest is written with a backslash. *)
Definition escape_char (c : ascii) : string :=
  let n := nat_of_ascii c in
  if bool_decide (c = dquote) then String backslash (String dquote "")
  else if bool_decide (c = backslash) then String backslash (String backslash "")
  else if bool_decide (n = 10) then String backslash "n"
  else if bool_decide (n = 13) then String backslash "r"
  else if bool_decide (n = 9) then String backslash "t"
  else if bool_decide (n = 12) then String backslash "f"
  else if bool_decide (n = 8) then String backslash "b"
  else if bool_decide (32 ≤ n ≤ 126) then String c ""
  else String backslash ("u00" +:+ String (hex_digit (n / 16)) (String (hex_digit (n mod 16)) "")).

Fixpoint escape (s : string) : string :=
  match s with
  | EmptyString => EmptyString
  | String c s' => escape_char c +:+ escape s'
  end.

Definition quote (s : string) : string :=
  String dquote (escape s +:+ String dquote "").

(** [json.dumps(v, sort_keys=sort_keys)] with the default separators;
    [None] stands for the [TypeError] raised at a value that is not
    serializable.  A shared dictionary is to be read ([Inliner.resolve])
    before it is written. *)
Fixpoint dumps (sort_keys : bool) (v : pyval) : option string :=
  match v with
  | PNone => Some "null"
  | PBool true => Some "true"
  | PBool false => Some "false"
  | PInt n => Some (pretty n)
  | PStr s => Some (quote s)
  | PParam _ => None
  | PSpecOf _ => None
  | PList l =>
      items ← mapM (dumps sort_keys) l;
      Some ("[" +:+ join ", " items +:+ "]")
  | PDict d =>
      items ← mapM (λ kv, text ← dumps sort_keys kv.2; Some (kv.1, text)) d;
      let items := if sort_keys then PyDict.sorted_items items else items in
      Some ("{" +:+ join ", " ((λ kv, quote kv.1 +:+ ": " +:+ kv.2) <$> items) +:+ "}")
  end.

End Json.

(** ** The items of a static loop ([_group_to_dag_template]) *)

Module LoopArgs.
Import Rewriter.

Section WithSanitizer.
Variable sanitize_k8s_name : k8s_opts → string → string.

(** What the loop over [argument_set.items()] stores for a value. *)
Definition rewrite_value (v : pyval) : pyval :=
  match v with
  | PParam p =>
      match pp_op_name p with
      | None => PStr (params_ref (pp_name p))
      | Some op_name =>
          let param_name := sanitize_k8s_name k8s_capital (pp_name p) in
          PStr (tasks_ref (sanitize_k8s_name k8s_default op_name) param_name)
      end
  | PStr s => PStr (process_pipelineparam sanitize_k8s_name s)
  | _ => v
  end.

(** [c_dict], built from one [argument_set]. *)
Definition sanitize_argument_set (argument_set : list (string * pyval)) : list (string * pyval) :=
  foldl (λ c_dict kv,
           PyDict.set (sanitize_k8s_name k8s_capital_underscore kv.1) (rewrite_value kv.2) c_dict)
        [] argument_set.

(** [loop_args_str_value] of the branch for a static list of items;
    [loop_arg_value] is the result of [to_list_for_task_yaml()]. *)
Definition static_loop_args (loop_arg_value : list pyval) : result string :=
  match loop_arg_value with
  | [] => Raise IndexError
  | PDict _ :: _ =>
      sanitized_tasks ← mapM (λ argument_set,
                                match argument_set with
                                | PDict d => Ok (PDict (sanitize_argument_set d))
                                | _ => Raise AttributeError
                                end) loop_arg_value;
      match Json.dumps true (PList sanitized_tasks) with
      | Some text => Ok text
      | None => Raise TypeError
      end
  | _ =>
      let values := (λ value, match value with
                              | PStr s => PStr (process_pipelineparam sanitize_k8s_name s)
                              | _ => value
                              end) <$> loop_arg_value in
      match Json.dumps false (PList values) with
      | Some text => Ok text
      | None => Raise TypeError
      end
  end.

End WithSanitizer.
End LoopArgs.

(** ** The dependency deriver ([_get_dependencies]) *)

Module Deps.
Import PyStr.

(** An op of [pipeline.ops], with what the deriver reads of it. *)
Record Op := MkOp {
  op_name : string;
  op_inputs : list PipelineParam;
  dependent_names : list string
}.

(** A group of the nesting tree: [type] is ['pipeline'], ['condition'],
    ['for_loop'], ['graph'], ...; [dependencies] holds the names of the
    entities of the explicit dependency list; [recursive_ref] tells whether
    the group is a recursive call. *)
Inductive OpsGroup := MkGroup {
  g_name : string;
  g_type : string;
  g_dependencies : list string;
  g_recursive_ref : bool;
  g_inputs : list PipelineParam;
  g_groups : list OpsGroup
}.

(** [_get_groups]: every group of the tree by its name; a later group of
    the same name replaces an earlier one. *)
Fixpoint _get_groups (group : OpsGroup) : gmap string OpsGroup :=
  foldl (λ groups g, _get_groups g ∪ groups) {[ g_name group := group ]} (g_groups group).

(** The dependency map, a [defaultdict(set)]. *)
Abbreviation depmap := (gmap string (gset string)).

(** The loops over a set stop at the first exception. *)
Fixpoint fold_result {A B} (f : B → A → result B) (b : B) (l : list A) : result B :=
  match l with
  | [] => Ok b
  | x :: l' => b' ← f b x; fold_result f b' l'
  end.

(** The ancestor path of an entity: that of an op, else that of a group. *)
Definition ancestor_path (op_groups opsgroups_groups : gmap string (list string))
    (name : string) : option (list string) :=
  match op_groups !! name with
  | Some path => Some path
  | None => opsgroups_groups !! name
  end.

(** Both paths without their longest common prefix. *)
Fixpoint strip_common (path1 path2 : list string) : list string * list string :=
  match path1, path2 with
  | g1 :: rest1, g2 :: rest2 =>
      if bool_decide (g1 = g2) then strip_common rest1 rest2 else (path1, path2)
  | _, _ => (path1, path2)
  end.

(** Modelled from the spec: [_get_uncommon_ancestors] is inherited from the
    kfp base compiler, which is not part of the sources at hand.  The spec
    (Ancestor Resolver): walk both ancestor paths from the root, find the
    longest common prefix, return the remaining suffixes of each path.  An
    entity without a path is an inconsistency of the IR, reported as a
    [ValueError]. *)
Definition _get_uncommon_ancestors (op_groups opsgroups_groups : gmap string (list string))
    (op1 op2 : string) : result (list string * list string) :=
  match ancestor_path op_groups opsgroups_groups op1 with
  | None => Raise (ValueError (op1 +:+ " does not exist."))
  | Some op1_groups =>
      match ancestor_path op_groups opsgroups_groups op2 with
      | None => Raise (ValueError (op2 +:+ " does not exist."))
      | Some op2_groups => Ok (strip_common op1_groups op2_groups)
      end
  end.

(** The producers named by a list of parameters ([if param.op_name]). *)
Definition producers (params : list PipelineParam) : gset string :=
  list_to_set (omap (λ param, if truthy (pp_op_name param) then pp_op_name param else None) params).

(** [while len(upstream_groups) > 0 and 'condition-' in upstream_groups[0]:
    upstream_groups.pop(0)] *)
Fixpoint skip_conditions (upstream_groups : list string) : list string :=
  match upstream_groups with
  | g :: rest => if contains "condition-" g then skip_conditions rest else upstream_groups
  | [] => []
  end.

(** [if len(upstream_groups) > 0:
      dependencies[downstream_groups[0]].add(upstream_groups[0])] *)
Definition add_dependency (dependencies : depmap) (upstream_groups downstream_groups : list string)
    : result depmap :=
  match upstream_groups with
  | [] => Ok dependencies
  | upstream :: _ =>
      match downstream_groups with
      | [] => Raise IndexError
      | downstream :: _ =>
          Ok (<[downstream := {[upstream]} ∪ dependencies !!! downstream]> dependencies)
      end
  end.

Section WithPipeline.
(** [pipeline.ops] (in the order of [values()]), the paths of the ops and
    of the groups, the groups by name, and the parameters of the conditions
    above each entity (a [defaultdict]). *)
Variable ops : list Op.
Variable op_groups opsgroups_groups : gmap string (list string).
Variable opsgroups : gmap string OpsGroup.
Variable condition_params : string → list PipelineParam.

(** The entity a name stands for: an op first, else a group. *)
Definition resolve (name : string) : option string :=
  if bool_decide (name ∈ op_name <$> ops) then Some name
  else g_name <$> opsgroups !! name.

Definition upstream_op_names (op : Op) : gset string :=
  producers (op_inputs op ++ condition_params (op_name op)) ∪ list_to_set (dependent_names op).

(** The body of the loop over the upstream names of an op. *)
Definition op_dependency (op : Op) (dependencies : depmap) (upstream_op_name : string)
    : result depmap :=
  match resolve upstream_op_name with
  | Some upstream_op =>
      '(upstream_groups, downstream_groups) ←
        _get_uncommon_ancestors op_groups opsgroups_groups upstream_op (op_name op);
      add_dependency dependencies (skip_conditions upstream_groups) downstream_groups
  | None =>
      if contains "for-loop" upstream_op_name then Ok dependencies
      else Raise (ValueError ("compiler cannot find the " +:+ upstream_op_name))
  end.

Definition group_upstream_names (group : OpsGroup) : gset string :=
  list_to_set (g_dependencies group)
  ∪ (if g_recursive_ref group
     then producers (g_inputs group ++ condition_params (g_name group))
     else ∅).

(** The body of the loop over the upstream names of a group. *)
Definition group_dependency (group : OpsGroup) (dependencies : depmap) (op_name : string)
    : result depmap :=
  match resolve op_name with
  | Some upstream_op =>
      '(upstream_groups, downstream_groups) ←
        _get_uncommon_ancestors op_groups opsgroups_groups upstream_op (g_name group);
      add_dependency dependencies (skip_conditions upstream_groups) downstream_groups
  | None => Raise (ValueError ("compiler cannot find the " +:+ op_name))
  end.

Fixpoint _get_dependency_opsgroup (group : OpsGroup) (dependencies : depmap) : result depmap :=
  dependencies ← fold_result (group_dependency group) dependencies
                   (elements (group_upstream_names group));
  fold_result (λ dependencies subgroup, _get_dependency_opsgroup subgroup dependencies)
              dependencies (g_groups group).

(** A set is visited in an order of its own; [elements] fixes one.  The
    resulting map does not depend on it. *)
Definition _get_dependencies (root_group : OpsGroup) : result depmap :=
  dependencies ← fold_result
                   (λ dependencies op,
                      fold_result (op_dependency op) dependencies (elements (upstream_op_names op)))
                   ∅ ops;
  _get_dependency_opsgroup root_group dependencies.

End WithPipeline.
End Deps.

(** ** Propagation of when-predicates along run-after edges
    ([_create_pipeline_workflow], its last part) *)

Module Assembler.
Import PyStr Re.

(** A when-expression: the dictionaries the compiler builds have exactly
    the keys [input], [operator] and [values]. *)
Record when_item := When {
  input : string;
  operator : string;
  values : list string
}.

#[global] Instance when_item_eq_dec : EqDecision when_item.
Proof. solve_decision. Defined.

(** A task of [workflow['spec']['pipelineSpec']['tasks']], with the keys
    the propagation reads and writes.  The lists under [when] are objects
    that several tasks may hold at once: the assembler gives every task of a
    condition the one list [condition_refs[...]], and the propagation
    appends to a list in place.  So a task holds its list by the identity of
    the object, [when], and the lists themselves are kept in a [store].  An
    absent [runAfter] and an empty one are alike to the code
    ([task.get(...)] is tested for truth).  So are an absent [when] and an
    empty list that the task alone holds ([setdefault] makes the one of the
    other at the first use): a task without the key bears the identity of
    the list that [setdefault] would make for it, empty in the store. *)
Record task := Task {
  task_name : string;
  runAfter : list string;
  when : nat
}.

(** The list objects under [when], by identity; a list not in the map is
    empty. *)
Abbreviation store := (gmap nat (list when_item)).

(** [t.get('when')], as a list. *)
Definition when_of (s : store) (t : task) : list when_item := s !!! when t.

(** An entry of [self.loops_pipeline]. *)
Record pipeline_loop := Loop {
  task_list : list string
}.

(** The pattern for the producer of a when-expression: [$(tasks], any
    character, a captured run outside [name_stops], any character,
    [results], any character, a second captured run and a closing
    parenthesis. *)
Definition when_input_re : list atom :=
  [Lit "$(tasks"; AnyChar; Grp 1 Rewriter.name_stops; AnyChar; Lit "results"; AnyChar;
   Grp 1 Rewriter.name_stops; Lit ")"].

(** [add_conditions] after the loop over [self.loops_pipeline.values()]. *)
Definition add_conditions (loops : list pipeline_loop) (name : string) (item : when_item) : bool :=
  forallb (λ pipeline_loop,
             if bool_decide (name ∈ task_list pipeline_loop) then
               match findall2 when_input_re (input item) with
               | task_input :: _ => bool_decide (task_input.1 ∈ task_list pipeline_loop)
               | [] => true
               end
             else true) loops.

(** The loop [for when_item in t['when']], on the list [task['when']].
    When both are one object nothing is appended, every item being in the
    list already. *)
Definition copy_when (loops : list pipeline_loop) (name : string)
    (task_when t_when : list when_item) : list when_item :=
  foldl (λ task_when item,
           if bool_decide (item ∈ task_when) then task_when
           else if add_conditions loops name item then task_when ++ [item]
           else task_when)
        task_when t_when.

(** The body of the loop [for t in workflow['spec']['pipelineSpec']['tasks']]
    of [populate_runafter_condition(task)] for one [t]: the list of [task]
    is extended in place, in the store. *)
Definition copy_from (loops : list pipeline_loop) (this : task) (s : store) (t : task)
    : store :=
  if bool_decide (task_name t ∈ runAfter this) then
    match when_of s t with
    | [] => s
    | t_when =>
        <[when this := copy_when loops (task_name this) (when_of s this) t_when]> s
    end
  else s.

(** [populate_runafter_condition(task)] *)
Definition populate_runafter_condition (loops : list pipeline_loop) (tasks : list task)
    (this : task) (s : store) : store :=
  match runAfter this with
  | [] => s
  | _ => foldl (copy_from loops this) s tasks
  end.

(** The state of the search of the run-after tree: the lists of the tasks,
    the queue of (references to) tasks, and [visited_tasks]. *)
Record state := State {
  whens : store;
  task_queue : list nat;
  visited_tasks : gmap string nat
}.

(** The test of the loop [for queued_task in task_queue]. *)
Definition deferred (tasks : list task) (st : state) (popped_task : task)
    (queue : list nat) : bool :=
  existsb (λ q,
             match tasks !! q with
             | Some queued_task =>
                 bool_decide (task_name queued_task ∈ runAfter popped_task)
                 && negb (bool_decide (visited_tasks st !! task_name popped_task
                                       = Some (length queue)))
             | None => false
             end) queue.

(** One turn of [while task_queue]. *)
Definition step (loops : list pipeline_loop) (tasks : list task) (st : state) : state :=
  match task_queue st with
  | [] => st
  | i :: queue =>
      match tasks !! i with
      | None => State (whens st) queue (visited_tasks st)
      | Some popped_task =>
          if deferred tasks st popped_task queue
          then State (whens st) (queue ++ [i])
                     (<[task_name popped_task := length queue]> (visited_tasks st))
          else State (populate_runafter_condition loops tasks popped_task (whens st))
                     queue (visited_tasks st)
      end
  end.

(** The loop, for at most [fuel] turns. *)
Fixpoint run (loops : list pipeline_loop) (tasks : list task) (fuel : nat) (st : state)
    : option store :=
  match task_queue st with
  | [] => Some (whens st)
  | _ =>
      match fuel with
      | O => None
      | S fuel' => run loops tasks fuel' (step loops tasks st)
      end
  end.

(** The tasks with a run-after edge, in the order of the list. *)
Definition initial_queue (tasks : list task) : list nat :=
  omap (λ jt, match runAfter jt.2 with [] => None | _ => Some jt.1 end) (imap pair tasks).

Definition initial_state (tasks : list task) (s : store) : state :=
  State s (initial_queue tasks) ∅.

(** Turns that are always enough for [n] queued tasks. *)
Definition enough (n : nat) : nat := n * n + n.

(** The propagation over a task list, from the lists [s]: the lists at the
    end. *)
Definition propagate (loops : list pipeline_loop) (tasks : list task) (s : store)
    : option store :=
  run loops tasks (enough (length (initial_queue tasks))) (initial_state tasks s).

End Assembler.

(** ** Operations on documents *)

Module Doc.
Import PyDict.

Abbreviation dict := (list (string * pyval)).

Definition as_dict (v : pyval) : result dict :=
  match v with
  | PDict d => Ok d
  | _ => Raise TypeError
  end.

Definition as_list (v : pyval) : result (list pyval) :=
  match v with
  | PList l => Ok l
  | _ => Raise TypeError
  end.

(** [d[k]] *)
Definition getitem (k : string) (d : dict) : result pyval :=
  match get k d with
  | Some v => Ok v
  | None => Raise (KeyError k)
  end.

(** [d.get(k, default)] *)
Definition get_default (k : string) (dflt : pyval) (d : dict) : pyval :=
  default dflt (get k d).

(** [a == b] on the values of documents; dictionaries are equal whatever
    the order of their items, and two shared dictionaries are compared by
    the object they are. *)
Fixpoint py_eq (a b : pyval) : bool :=
  match a, b with
  | PNone, PNone => true
  | PBool x, PBool y => bool_decide (x = y)
  | PBool x, PInt n => bool_decide (n = if x then 1%Z else 0%Z)
  | PInt n, PBool x => bool_decide (n = if x then 1%Z else 0%Z)
  | PInt x, PInt y => bool_decide (x = y)
  | PStr x, PStr y => bool_decide (x = y)
  | PSpecOf i, PSpecOf j => bool_decide (i = j)
  | PList l, PList l' =>
      (fix all2 (l l' : list pyval) : bool :=
         match l, l' with
         | [], [] => true
         | x :: l, y :: l' => py_eq x y && all2 l l'
         | _, _ => false
         end) l l'
  | PDict d, PDict d' =>
      bool_decide (length d = length d')
      && forallb (λ kv, match get kv.1 d' with
                        | Some v' => py_eq kv.2 v'
                        | None => false
                        end) d
  | _, _ => false
  end.

(** [x in l] for a list [l] *)
Definition py_in (x : pyval) (l : list pyval) : bool := existsb (py_eq x) l.

(** Python's truth value (the [spec] of an auxiliary document is not
    empty). *)
Definition py_true (v : pyval) : bool :=
  match v with
  | PNone => false
  | PBool b => b
  | PInt n => negb (bool_decide (n = 0%Z))
  | PStr s => negb (bool_decide (s = ""))
  | PParam _ => true
  | PList l => negb (bool_decide (l = []))
  | PDict d => negb (bool_decide (d = []))
  | PSpecOf _ => true
  end.

(** [sorted(params, key=lambda kv: (kv['name']))]: a stable sort of a list
    of dictionaries by their name, a string. *)
Definition sort_by_name (params : pyval) : result pyval :=
  l ← as_list params;
  keyed ← mapM (λ kv, d ← as_dict kv;
                      name ← getitem "name" d;
                      match name with
                      | PStr s => Ok (s, kv)
                      | _ => Raise TypeError
                      end) l;
  Ok (PList (sorted_items keyed).*2).

End Doc.

(** ** The inliner ([_inline_tasks] and its use in [prepare_workflow]) *)

Module Inliner.
Import PyDict Doc.

Definition cache_enabled : string := "pipelines.kubeflow.org/cache_enabled".

(** [cr['metadata'].get('name', "")] *)
Definition cr_name (cr : dict) : result pyval :=
  metadata ← getitem "metadata" cr;
  metadata ← as_dict metadata;
  Ok (get_default "name" (PStr "") metadata).

(** The body of [for i in range(len(crs))] in [_inline_tasks]: the inlined
    body is the dictionary [crs[i]['spec']] itself. *)
Definition inline_cr (cr_apiVersion cr_kind cr_ref_name : pyval)
    (acc : dict * list pyval) (icr : nat * dict) : result (dict * list pyval) :=
  let '(task, inlined_as_taskSpec) := acc in
  name ← cr_name icr.2;
  if py_eq name cr_ref_name then
    _ ← getitem "spec" icr.2;
    let task := set "taskSpec"
                  (PDict [("apiVersion", cr_apiVersion); ("kind", cr_kind);
                          ("spec", PSpecOf icr.1)])
                  task in
    if mem "taskRef" task
    then Ok (remove "taskRef" task, inlined_as_taskSpec ++ [cr_ref_name])
    else Raise (KeyError "taskRef")
  else Ok acc.

(** The part [if 'taskRef' in workflow_tasks[j]] for one task. *)
Definition inline_ref (crs : list dict) (recursive_tasks : list pyval) (task : dict)
    : result (dict * list pyval) :=
  match get "taskRef" task with
  | None => Ok (task, [])
  | Some wf_taskRef =>
      wf_taskRef ← as_dict wf_taskRef;
      match get "name" wf_taskRef with
      | None => Ok (task, [])
      | Some cr_ref_name =>
          if py_in cr_ref_name recursive_tasks then Ok (task, [])
          else
            cr_apiVersion ← getitem "apiVersion" wf_taskRef;
            cr_kind ← getitem "kind" wf_taskRef;
            Deps.fold_result (inline_cr cr_apiVersion cr_kind cr_ref_name) (task, [])
                             (imap pair crs)
      end
  end.

(** The part [if 'taskSpec' in workflow_tasks[j]]: the label of the cache. *)
Definition label_cache (pipeline_labels : dict) (task : dict) : result dict :=
  match get "taskSpec" task with
  | None => Ok task
  | Some taskSpec =>
      taskSpec ← as_dict taskSpec;
      metadata ← as_dict (get_default "metadata" (PDict []) taskSpec);
      task_labels ← as_dict (get_default "labels" (PDict []) metadata);
      let cache_default := get_default cache_enabled (PStr "true") pipeline_labels in
      let task_labels :=
        set cache_enabled (get_default cache_enabled cache_default task_labels) task_labels in
      let metadata := set "labels" (PDict task_labels) metadata in
      Ok (set "taskSpec" (PDict (set "metadata" (PDict metadata) taskSpec)) task)
  end.

(** The body of [for j in range(len(workflow_tasks))]. *)
Definition inline_task (pipeline_labels : dict) (crs : list dict) (recursive_tasks : list pyval)
    (task : dict) : result (dict * list pyval) :=
  task ← match get "params" task with
         | Some params => params ← sort_by_name params; Ok (set "params" params task)
         | None => Ok task
         end;
  '(task, inlined) ← inline_ref crs recursive_tasks task;
  task ← label_cache pipeline_labels task;
  Ok (task, inlined).

(** [_inline_tasks(tasks, crs, recursive_tasks)]: the tasks and the names
    of the references that were converted. *)
Definition _inline_tasks (pipeline_labels : dict) (tasks crs : list dict)
    (recursive_tasks : list pyval) : result (list dict * list pyval) :=
  Deps.fold_result
    (λ acc task,
       '(task, inlined) ← inline_task pipeline_labels crs recursive_tasks task;
       Ok (acc.1 ++ [task], acc.2 ++ inlined))
    ([], []) tasks.

Definition as_dicts (v : pyval) : result (list dict) :=
  l ← as_list v; mapM as_dict l.

(** A document with its shared dictionaries read from the auxiliary
    documents, down to the depth [fuel] (the documents may refer to each
    other). *)
Fixpoint resolve (fuel : nat) (crs : list dict) (v : pyval) {struct fuel} : pyval :=
  match fuel with
  | O => v
  | S fuel' =>
      match v with
      | PList l => PList (resolve fuel' crs <$> l)
      | PDict d => PDict ((λ kv, (kv.1, resolve fuel' crs kv.2)) <$> d)
      | PSpecOf i =>
          match crs !! i ≫= get "spec" with
          | Some spec => resolve fuel' crs spec
          | None => v
          end
      | _ => v
      end
  end.

(** Step 1 of [prepare_workflow] for the construct at index [i].  The
    tasks of a construct are changed in place by [_inline_tasks] (its copy
    of the list is shallow), so they are written back whether or not a
    reference was converted. *)
Definition inline_in_cr (pipeline_labels : dict) (recursive_tasks : list pyval)
    (acc : list dict * list pyval) (i : nat) : result (list dict * list pyval) :=
  let '(crs, inlined_as_taskSpec) := acc in
  match crs !! i with
  | None => Raise IndexError
  | Some cr =>
      spec ← getitem "spec" cr;
      spec ← as_dict spec;
      match get "pipelineSpec" spec with
      | None => Ok acc
      | Some pipelineSpec =>
          pipelineSpec ← as_dict pipelineSpec;
          pipelineSpec ← match get "params" pipelineSpec with
                         | Some params =>
                             params ← sort_by_name params;
                             Ok (set "params" params pipelineSpec)
                         | None => Ok pipelineSpec
                         end;
          let with_spec (pipelineSpec : dict) : dict :=
            set "spec" (PDict (set "pipelineSpec" (PDict pipelineSpec) spec)) cr in
          let crs := <[i := with_spec pipelineSpec]> crs in
          tasks ← getitem "tasks" pipelineSpec;
          tasks ← as_dicts tasks;
          '(t, e) ← _inline_tasks pipeline_labels tasks crs recursive_tasks;
          let pipelineSpec := set "tasks" (PList (PDict <$> t)) pipelineSpec in
          Ok (<[i := with_spec pipelineSpec]> crs, inlined_as_taskSpec ++ e)
      end
  end.

(** [[cr for cr in custom_opsgroup_crs
       if cr['metadata'].get("name", "") not in inlined_as_taskSpec]] *)
Definition standalone (inlined_as_taskSpec : list pyval) (crs : list dict) : result (list dict) :=
  Deps.fold_result
    (λ kept cr, name ← cr_name cr;
                Ok (if py_in name inlined_as_taskSpec then kept else kept ++ [cr]))
    [] crs.

(** What the inlining leaves: the auxiliary documents that stay on their
    own, the tasks of the main document, the names that were inlined, and
    all the auxiliary documents, through which the shared dictionaries are
    read. *)
Record inlining := Inlining {
  custom_opsgroup_crs : list dict;
  workflow_tasks : list dict;
  inlined_as_taskSpec : list pyval;
  all_crs : list dict
}.

(** [prepare_workflow] from [inlined_as_taskSpec = []] on, without the
    handling of the add-on groups (step 3, which leaves the auxiliary
    documents alone). *)
Definition inline_custom_opsgroup_crs (tekton_inline_spec : bool) (pipeline_labels : dict)
    (custom_opsgroup_crs workflow_tasks : list dict) (recursive_tasks_names : list pyval)
    : result inlining :=
  if tekton_inline_spec then
    '(crs, inlined) ← Deps.fold_result (inline_in_cr pipeline_labels recursive_tasks_names)
                        (custom_opsgroup_crs, []) (seq 0 (length custom_opsgroup_crs));
    '(workflow_tasks, e) ← _inline_tasks pipeline_labels workflow_tasks crs recursive_tasks_names;
    let inlined := inlined ++ e in
    kept ← standalone inlined crs;
    Ok (Inlining kept workflow_tasks inlined crs)
  else Ok (Inlining custom_opsgroup_crs workflow_tasks [] custom_opsgroup_crs).

End Inliner.

(** ** Task references ([_create_pipeline_workflow], its first loop) *)

Module TaskRefs.
Import PyStr PyDict Doc Inliner.

Definition nl : string := String Re.newline "".
Definition dq : string := String Json.dquote "".

(** [_get_super_condition_template]'s script, for the output keyword [s]. *)
Definition python_script (s : string) : string :=
  "import sys" +:+ nl
  +:+ "input1=str.rstrip(sys.argv[1])" +:+ nl
  +:+ "input2=str.rstrip(sys.argv[2])" +:+ nl
  +:+ "try:" +:+ nl
  +:+ "  input1=int(input1)" +:+ nl
  +:+ "  input2=int(input2)" +:+ nl
  +:+ "except:" +:+ nl
  +:+ "  input1=str(input1)" +:+ nl
  +:+ s +:+ "=" +:+ dq +:+ "true" +:+ dq
      +:+ " if (input1 $(inputs.params.operator) input2) else "
      +:+ dq +:+ "false" +:+ dq +:+ nl
  +:+ "f = open(" +:+ dq +:+ "/tekton/results/" +:+ s +:+ dq +:+ ", "
      +:+ dq +:+ "w" +:+ dq +:+ ")" +:+ nl
  +:+ "f.write(" +:+ s +:+ ")" +:+ nl
  +:+ "f.close()" +:+ nl.

Definition condition_command : string :=
  "program_path=$(mktemp); printf " +:+ dq +:+ "%s" +:+ dq +:+ " " +:+ dq +:+ "$0" +:+ dq
  +:+ " > " +:+ dq +:+ "$program_path" +:+ dq +:+ ";  python3 -u "
  +:+ dq +:+ "$program_path" +:+ dq +:+ " " +:+ dq +:+ "$1" +:+ dq +:+ " "
  +:+ dq +:+ "$2" +:+ dq.

Section WithConstants.
(** The constants of [kfp_tekton.tekton] and the built-in
    [ast.literal_eval]. *)
Variable TEKTON_CUSTOM_TASK_IMAGES : list pyval.
Variable DEFAULT_CONDITION_OUTPUT_KEYWORD : string.
Variable literal_eval : pyval → result pyval.

Definition _get_super_condition_template (image_name : pyval) : dict :=
  [("results",
    PList [PDict [("name", PStr DEFAULT_CONDITION_OUTPUT_KEYWORD);
                  ("type", PStr "string");
                  ("description",
                   PStr ("Conditional task " +:+ DEFAULT_CONDITION_OUTPUT_KEYWORD))]]);
   ("params",
    PList [PDict [("name", PStr "operand1")];
           PDict [("name", PStr "operand2")];
           PDict [("name", PStr "operator")]]);
   ("steps",
    PList [PDict [("name", PStr "main");
                  ("command", PList [PStr "sh"; PStr "-ec"; PStr condition_command]);
                  ("args", PList [PStr (python_script DEFAULT_CONDITION_OUTPUT_KEYWORD);
                                  PStr "$(inputs.params.operand1)";
                                  PStr "$(inputs.params.operand2)"]);
                  ("image", image_name)]])].

(** [[{'name': p['name'], 'value': p.get(key, '')} for p in params]] *)
Definition name_value (key : string) (params : list pyval) : result (list pyval) :=
  mapM (λ p, p ← as_dict p;
             name ← getitem "name" p;
             Ok (PDict [("name", name); ("value", get_default key (PStr "") p)])) params.

(** [template['metadata']['name']] *)
Definition template_name (template : dict) : result pyval :=
  metadata ← getitem "metadata" template;
  metadata ← as_dict metadata;
  getitem "name" metadata.

(** [template['spec']] *)
Definition template_spec (template : dict) : result dict :=
  spec ← getitem "spec" template; as_dict spec.

(** [is_custom_task_output(operand)]; the class of a value stands as the
    string of its name. *)
Definition is_custom_task_output (raw_templates : list dict) (operand : dict) : result bool :=
  type ← getitem "type" operand;
  if py_eq type (PStr "PipelineParam") then
    Deps.fold_result
      (λ (found : bool) template,
         if found then Ok true
         else
           op_name ← getitem "op_name" operand;
           name ← template_name template;
           if py_eq op_name name then
             spec ← template_spec template;
             steps ← getitem "steps" spec;
             steps ← as_list steps;
             Deps.fold_result
               (λ (found : bool) step,
                  if found then Ok true
                  else
                    step ← as_dict step;
                    name ← getitem "name" step;
                    if py_eq name (PStr "main") then
                      image ← getitem "image" step;
                      Ok (py_in image TEKTON_CUSTOM_TASK_IMAGES)
                    else Ok false)
               false steps
           else Ok false)
      false raw_templates
  else Ok false.

(** [map_cel_vars(a)] *)
Definition map_cel_vars (sanitize_k8s_name : k8s_opts → string → string) (a : dict)
    : result pyval :=
  if py_eq (get_default "type" (PStr "") a) (PStr "PipelineParam") then
    op_name ← getitem "op_name" a;
    output_name ← getitem "output_name" a;
    match op_name, output_name with
    | PStr op_name, PStr output_name =>
        Ok (PStr (Rewriter.tasks_ref (sanitize_k8s_name k8s_default op_name)
                                     (sanitize_k8s_name k8s_capital output_name)))
    | _, _ => Raise TypeError
    end
  else Ok (get_default "value" (PStr "") a).

(** What the loop registers for a template of kind [Condition]: the task
    that evaluates the condition, the when-expressions for the tasks below
    it, and whether the condition is folded into those expressions
    ([string_condition_refs]). *)
Record condition_entry := ConditionEntry {
  condition_task_ref : dict;
  condition_when_ref : list pyval;
  string_condition : bool
}.

Definition condition_branch (sanitize_k8s_name : k8s_opts → string → string)
    (condition_image_name : pyval) (raw_templates : list dict) (template : dict)
    : result (option (pyval * condition_entry)) :=
  let condition_task_spec := _get_super_condition_template condition_image_name in
  spec ← template_spec template;
  condition_params ← as_list (get_default "params" (PList []) spec);
  match condition_params with
  | [] => Ok None
  | _ =>
      name ← template_name template;
      params ← name_value "value" condition_params;
      let condition_task_ref :=
        [("name", name); ("params", PList params); ("taskSpec", PDict condition_task_spec)] in
      name_text ← match name with PStr n => Ok n | _ => Raise TypeError end;
      let evaluated :=
        [PDict [("input", PStr (Rewriter.tasks_ref name_text DEFAULT_CONDITION_OUTPUT_KEYWORD));
                ("operator", PStr "in");
                ("values", PList [PStr "true"])]] in
      match condition_params with
      | operand1 :: operand2 :: operator :: _ =>
          condition_operator ← as_dict operator;
          condition_operand1 ← as_dict operand1;
          condition_operand2 ← as_dict operand2;
          let op := get_default "value" (PStr "") condition_operator in
          let mapped := if py_eq op (PStr "==") then Some "in"
                        else if py_eq op (PStr "!=") then Some "notin" else None in
          match mapped with
          | Some tekton_operator =>
              custom1 ← is_custom_task_output raw_templates condition_operand1;
              custom2 ← (if custom1 : bool then Ok true
                         else is_custom_task_output raw_templates condition_operand2);
              if custom2 : bool then
                input ← map_cel_vars sanitize_k8s_name condition_operand1;
                value ← map_cel_vars sanitize_k8s_name condition_operand2;
                Ok (Some (name, ConditionEntry condition_task_ref
                            [PDict [("input", input); ("operator", PStr tekton_operator);
                                    ("values", PList [value])]]
                            true))
              else Ok (Some (name, ConditionEntry condition_task_ref evaluated false))
          | None => Ok (Some (name, ConditionEntry condition_task_ref evaluated false))
          end
      | _ => Raise IndexError
      end
  end.

(** [find_parameter(arg_list, arg_task_list)] *)
Fixpoint find_parameter (arg_list : list pyval) (arg_task_list : dict) : result dict :=
  match arg_list with
  | [] => Ok arg_task_list
  | item :: rest =>
      match item with
      | PStr text =>
          if startswith "--" text then
            match rest with
            | value :: rest' => find_parameter rest' (set (drop 2 text) value arg_task_list)
            | [] => Raise IndexError
            end
          else find_parameter rest arg_task_list
      | _ => Raise AttributeError
      end
  end.

(** The task reference of a custom task, built at the first step whose
    image is one of [TEKTON_CUSTOM_TASK_IMAGES]. *)
Definition custom_task_ref (name : pyval) (task_orig_params : pyval) (step : dict)
    : result dict :=
  container_args ← as_list (get_default "args" (PList []) step);
  container_command ← as_list (get_default "command" (PList []) step);
  custom_task_args ← find_parameter container_args [];
  custom_task_command ← find_parameter container_command [];
  let non_param_keys := ["name"; "apiVersion"; "kind"; "taskSpec"; "taskRef"] in
  let command_params := custom_task_command.*1 in
  let task_params :=
    ((λ kv, PDict [("name", PStr kv.1); ("value", kv.2)]) <$> custom_task_command)
    ++ ((λ kv, PDict [("name", PStr kv.1); ("value", kv.2)])
          <$> filter (λ kv, (kv.1 ∉ non_param_keys) ∧ (kv.1 ∉ command_params)) custom_task_args) in
  ref_name ← getitem "name" custom_task_args;
  apiVersion ← getitem "apiVersion" custom_task_args;
  kind ← getitem "kind" custom_task_args;
  let task_ref :=
    [("name", name); ("params", PList task_params); ("orig_params", task_orig_params);
     ("taskRef", PDict [("name", ref_name); ("apiVersion", apiVersion); ("kind", kind)])] in
  let taskRef := get_default "taskRef" (PStr "") custom_task_args in
  let taskSpec := get_default "taskSpec" (PStr "") custom_task_args in
  if py_true taskRef && py_true taskSpec then Raise TypeError
  else
    _ ← (if py_true taskRef then literal_eval taskRef else Ok PNone);
    if py_true taskSpec then
      spec ← literal_eval taskSpec;
      Ok [("name", name); ("params", PList task_params); ("orig_params", task_orig_params);
          ("taskSpec", PDict [("apiVersion", apiVersion); ("kind", kind); ("spec", spec)])]
    else Ok task_ref.

(** The loop over the steps, up to its [break]. *)
Fixpoint custom_task_steps (name : pyval) (task_ref : dict) (steps : list pyval) : result dict :=
  match steps with
  | [] => Ok task_ref
  | i :: steps' =>
      i ← as_dict i;
      if py_in (get_default "image" (PStr "") i) TEKTON_CUSTOM_TASK_IMAGES
      then
        task_orig_params ← getitem "params" task_ref;
        custom_task_ref name task_orig_params i
      else custom_task_steps name task_ref steps'
  end.

(** The metadata given to an inline specification. *)
Definition label_task_ref (pipeline_labels : dict) (template : dict) (task_ref : dict)
    : result dict :=
  if py_true (get_default "taskSpec" (PStr "") task_ref) then
    taskSpec ← getitem "taskSpec" task_ref;
    taskSpec ← as_dict taskSpec;
    metadata ← as_dict (get_default "metadata" (PDict []) taskSpec);
    template_metadata ← getitem "metadata" template;
    template_metadata ← as_dict template_metadata;
    task_labels ← as_dict (get_default "labels" (PDict []) template_metadata);
    let cache_default := get_default cache_enabled (PStr "true") pipeline_labels in
    let task_labels :=
      set cache_enabled (get_default cache_enabled cache_default task_labels) task_labels in
    let task_annotations := get_default "annotations" (PDict []) template_metadata in
    let metadata := if py_true (PDict task_labels)
                    then set "labels" (PDict task_labels) metadata else metadata in
    let metadata := if py_true task_annotations
                    then set "annotations" task_annotations metadata else metadata in
    Ok (set "taskSpec" (PDict (set "metadata" (PDict metadata) taskSpec)) task_ref)
  else Ok task_ref.

(** The branch of the loop for a template that is no condition.  The
    registers of workspaces, custom resources and artifacts, which the
    branch also fills, do not bear on the task reference. *)
Definition task_branch (pipeline_labels : dict) (template : dict) : result dict :=
  name ← template_name template;
  spec ← template_spec template;
  params ← as_list (get_default "params" (PList []) spec);
  params ← name_value "default" params;
  let task_ref := [("name", name); ("params", PList params); ("taskSpec", PDict spec)] in
  let workspaces := get_default "workspaces" (PStr "") spec in
  task_ref ← (if py_true workspaces then
                items ← as_list workspaces;
                workspaces_spec ← mapM (λ item, item ← as_dict item;
                                                n ← getitem "name" item;
                                                Ok (PDict [("name", n); ("workspace", n)])) items;
                Ok (set "workspaces" (PList workspaces_spec) task_ref)
              else Ok task_ref);
  steps ← as_list (get_default "steps" (PList []) spec);
  task_ref ← custom_task_steps name task_ref steps;
  label_task_ref pipeline_labels template task_ref.

(** The task references of the templates: [task_refs], and the condition
    tasks by name. *)
Definition task_references (sanitize_k8s_name : k8s_opts → string → string)
    (pipeline_labels : dict) (condition_image_name : pyval) (raw_templates : list dict)
    : result (list dict * list (string * condition_entry)) :=
  Deps.fold_result
    (λ acc template,
       kind ← getitem "kind" template;
       if py_eq kind (PStr "Condition") then
         entry ← condition_branch sanitize_k8s_name condition_image_name raw_templates template;
         match entry with
         | Some (PStr name, entry) => Ok (acc.1, set name entry acc.2)
         | Some _ => Raise TypeError
         | None => Ok acc
         end
       else
         task_ref ← task_branch pipeline_labels template;
         Ok (acc.1 ++ [task_ref], acc.2))
    ([], []) raw_templates.

(** [pipelineSpec['tasks']] as first assembled: [task_refs] followed by
    the condition tasks that are not folded into a when-expression.  The
    passes in between edit the parameters, when-expressions, run-after
    lists, retries and timeouts of these tasks and drop the exit handlers;
    they leave [taskSpec] alone. *)
Definition assembled_tasks (sanitize_k8s_name : k8s_opts → string → string)
    (pipeline_labels : dict) (condition_image_name : pyval) (raw_templates : list dict)
    : result (list dict) :=
  '(task_refs, conditions) ←
    task_references sanitize_k8s_name pipeline_labels condition_image_name raw_templates;
  Ok (task_refs
      ++ (condition_task_ref <$> filter (λ entry, string_condition entry = false) conditions.*2)).

End WithConstants.
End TaskRefs.

(** ** Writing the documents ([_write_workflow],
    [_create_and_write_workflow], [_validate_workflow]) *)

Module Writer.
Import PyStr PyDict Doc.

(** The three forms in which [_write_workflow] writes a text. *)
Inductive package := TarGz | Zip | Yaml.

(** A file as [_write_workflow] leaves it: an archive holds the text as its
    member [pipeline.yaml]. *)
Record file := File {
  file_path : string;
  file_package : package;
  file_text : string
}.

(** The disk: what each path holds.  [_write_workflow] opens its path for
    writing ([tarfile.open(path, "w:gz")], [zipfile.ZipFile(path, "w")],
    [open(path, 'w')]), which truncates a file that is there: a write
    replaces what the path held. *)
Abbreviation disk := (gmap string (package * string)).

(** Code that may raise and that writes files: the disk is threaded
    through, and stays as it is left when an exception is raised. *)
Definition io (A : Type) : Type := disk → result A * disk.

#[global] Instance io_ret : MRet io := λ A a files, (Ok a, files).
#[global] Instance io_bind : MBind io := λ A B f m files,
  match m files with
  | (Ok a, files') => f a files'
  | (Raise e, files') => (Raise e, files')
  end.

Definition lift {A} (r : result A) : io A := λ files, (r, files).
Definition write (f : file) : io unit :=
  λ files, (Ok (), <[file_path f := (file_package f, file_text f)]> files).

Fixpoint fold_io {A B} (f : B → A → io B) (b : B) (l : list A) : io B :=
  match l with
  | [] => mret b
  | x :: l' => b' ← f b x; fold_io f b' l'
  end.

(** [v.get(...)], [v.items()], [v.append(...)]: the value has the method. *)
Definition attr_dict (v : pyval) : result dict :=
  match v with
  | PDict d => Ok d
  | _ => Raise AttributeError
  end.

Definition attr_list (v : pyval) : result (list pyval) :=
  match v with
  | PList l => Ok l
  | _ => Raise AttributeError
  end.

(** [s.endswith(suffix)] *)
Definition endswith (suffix s : string) : bool :=
  bool_decide (drop (String.length s - String.length suffix) s = suffix).

(** [s.lstrip(c)] for one character [c] *)
Fixpoint lstrip (c : ascii) (s : string) : string :=
  match s with
  | String c' s' => if bool_decide (c' = c) then lstrip c s' else s
  | EmptyString => EmptyString
  end.

(** [json.dumps(v, sort_keys=True)] *)
Definition dumps_sorted (v : pyval) : result string :=
  match Json.dumps true v with
  | Some text => Ok text
  | None => Raise TypeError
  end.

(** Two opening braces, a run of one or more characters that are no blank,
    dot, colon, comma, semicolon or brace, a dot, a run of one or more
    characters that are no blank, colon, comma, semicolon or brace, two
    closing braces. *)
Definition unsupported_vars_re : list Re.atom :=
  [Re.Lit "{{";
   Re.Rep 1 [" "%char; Re.tab; Re.newline; "."%char; ":"%char; ","%char; ";"%char;
             "{"%char; "}"%char];
   Re.Lit ".";
   Re.Rep 1 [" "%char; Re.tab; Re.newline; ":"%char; ","%char; ";"%char; "{"%char; "}"%char];
   Re.Lit "}}"].

(** The fields of the compiler object that [_create_and_write_workflow]
    reads. *)
Record compiler := Compiler {
  resource_in_separate_yaml : bool;
  produce_taskspec : bool;
  uuid : string;
  group_names : list (string * string);
  custom_task_crs : list dict
}.

Definition resource_templates : string := "tekton.dev/resource_templates".

(** [workflow['spec']['pipelineSpec']['tasks']], a list. *)
Definition pipeline_tasks (workflow : dict) : result (list pyval) :=
  spec ← getitem "spec" workflow ≫= as_dict;
  pipelineSpec ← getitem "pipelineSpec" spec ≫= as_dict;
  getitem "tasks" pipelineSpec ≫= as_list.

(** The workflow after the tasks of its list have been changed in place. *)
Definition set_pipeline_tasks (tasks : list pyval) (workflow : dict) : result dict :=
  spec ← getitem "spec" workflow ≫= as_dict;
  pipelineSpec ← getitem "pipelineSpec" spec ≫= as_dict;
  Ok (set "spec" (PDict (set "pipelineSpec" (PDict (set "tasks" (PList tasks) pipelineSpec))
                           spec)) workflow).

(** [workflow['metadata']['annotations'][key] = v] *)
Definition set_annotation (key : string) (v : pyval) (workflow : dict) : result dict :=
  metadata ← getitem "metadata" workflow ≫= as_dict;
  annotations ← getitem "annotations" metadata ≫= as_dict;
  Ok (set "metadata" (PDict (set "annotations" (PDict (set key v annotations)) metadata))
        workflow).

Section WithEnvironment.

(** The functions of the other modules of the package and of the
    libraries: the sanitizer, the YAML writer and reader, the two passes
    over variables, [json.loads], [json.dumps] with [indent=2],
    [hashlib.sha1(...).hexdigest()], [os.path.splitext(...)[0]], and the
    version of the Tekton API. *)
Variable sanitize_k8s_name : k8s_opts → string → string.
Variable dump_yaml : pyval → result string.
Variable _handle_tekton_pipeline_variables : dict → result pyval.
Variable _process_argo_vars : string → result string.
Variable yaml_load : string → result pyval.
Variable json_loads : pyval → result pyval.
Variable json_dumps_indent : dict → result string.
Variable sha1_hexdigest : string → string.
Variable splitext : string → string.
Variable tekton_api_version : string.

(** The condition of the first statement of [_write_workflow]. *)
Definition has_tasks (pipeline_run : dict) : result bool :=
  let spec := get_default "spec" (PDict []) pipeline_run in
  if py_true spec then
    spec ← attr_dict spec;
    let pipelineSpec := get_default "pipelineSpec" (PDict []) spec in
    if py_true pipelineSpec then
      pipelineSpec ← attr_dict pipelineSpec;
      Ok (py_true (get_default "tasks" (PList []) pipelineSpec))
    else Ok false
  else Ok false.

(** The first part of [_write_workflow(workflow, package_path)], up to its
    two checks: the text of the workflow.  The names of a set come in no
    fixed order in Python; the message lists them by first occurrence. *)
Definition checked_yaml_text (workflow : dict) : result string :=
  tasks ← has_tasks workflow;
  yaml_text ← (if tasks : bool
               then _handle_tekton_pipeline_variables workflow ≫= dump_yaml
               else dump_yaml (PDict workflow));
  yaml_text ← _process_argo_vars yaml_text;
  let unsupported_vars := Re.findall0 unsupported_vars_re yaml_text in
  if bool_decide (unsupported_vars ≠ []) then
    Raise (ValueError ("These Argo variables are not supported in Tekton Pipeline: "
                       +:+ join ", " (remove_dups unsupported_vars)))
  else if contains "{{pipelineparam" yaml_text then
    Raise (RuntimeError
      ("Internal compiler error: Found unresolved PipelineParam. "
       +:+ "Please create a new issue at https://github.com/kubeflow/kfp-tekton/issues "
       +:+ "attaching the pipeline DSL code and the pipeline YAML."))
  else Ok yaml_text.

(** The form that the ending of the path asks for, in the order of the
    tests of [_write_workflow]. *)
Definition package_of (package_path : string) : result package :=
  if endswith ".tar.gz" package_path || endswith ".tgz" package_path then Ok TarGz
  else if endswith ".zip" package_path then Ok Zip
  else if endswith ".yaml" package_path || endswith ".yml" package_path then Ok Yaml
  else Raise (ValueError
         ("The output path " +:+ package_path
          +:+ " should end with one of the following formats: "
          +:+ "[.tar.gz, .tgz, .zip, .yaml, .yml]")).

(** [_write_workflow(workflow, package_path)]: the text is returned when
    there is no path, written otherwise. *)
Definition _write_workflow (workflow : dict) (package_path : option string)
    : io (option string) :=
  yaml_text ← lift (checked_yaml_text workflow);
  match package_path with
  | None => mret (Some yaml_text)
  | Some package_path =>
      package ← lift (package_of package_path);
      write (File package_path package yaml_text);;
      mret None
  end.

(** [os.path.splitext(package_path)[0] + suffix] *)
Definition separate_path (package_path : option string) (suffix : string) : result string :=
  match package_path with
  | Some package_path => Ok (splitext package_path +:+ suffix)
  | None => Raise TypeError
  end.

(** One turn of the loop over the auxiliary documents that were not
    inlined. *)
Definition write_loop_cr (self : compiler) (package_path : option string)
    (loop_package_annotations : list pyval) (icr : nat * dict) : io (list pyval) :=
  metadata ← lift (getitem "metadata" icr.2 ≫= attr_dict);
  if py_true (get_default "name" (PStr "") metadata) then
    if resource_in_separate_yaml self then
      path ← lift (separate_path package_path
                     ("_pipelineloop_cr" +:+ pretty (icr.1 + 1) +:+ ".yaml"));
      _write_workflow icr.2 (Some path);;
      mret loop_package_annotations
    else
      pipeline_loop_cr ← _write_workflow icr.2 None;
      loaded ← lift (match pipeline_loop_cr with
                     | Some text => yaml_load text
                     | None => Raise AttributeError
                     end);
      mret (loop_package_annotations ++ [loaded])
  else mret loop_package_annotations.

(** The template made of an inline specification; the metadata are taken
    out of the specification when they are true. *)
Definition task_template (digest : string) (taskSpec : dict) : result dict :=
  let metadata := get_default "metadata" PNone taskSpec in
  popped ← (if py_true metadata
            then metadata ← as_dict metadata; Ok (metadata, remove "metadata" taskSpec)
            else Ok ([], taskSpec));
  let version :=
    if py_true (get_default "apiVersion" PNone popped.2)
       && py_true (get_default "kind" PNone popped.2)
    then (get_default "apiVersion" PNone popped.2, get_default "kind" PNone popped.2)
    else (PStr tekton_api_version, PStr "Task") in
  Ok [("metadata", PDict (set "name" (PStr digest) popped.1));
      ("apiVersion", version.1);
      ("kind", version.2);
      ("spec", PDict popped.2)].

(** One turn of the loop that turns inline specifications into templates:
    the templates by digest, and the tasks treated so far. *)
Definition to_task_ref (acc : list (string * dict) * list pyval) (task : pyval)
    : result (list (string * dict) * list pyval) :=
  task ← attr_dict task;
  let taskSpec := get_default "taskSpec" PNone task in
  if py_true taskSpec then
    text ← dumps_sorted taskSpec;
    let component_spec_digest := sha1_hexdigest text in
    component_sha ← (if mem component_spec_digest acc.1 then Ok acc.1
                     else taskSpec ← attr_dict taskSpec;
                          task_template ← task_template component_spec_digest taskSpec;
                          Ok (set component_spec_digest task_template acc.1));
    Ok (component_sha,
        acc.2 ++ [PDict (set "taskRef" (PDict [("name", PStr component_spec_digest)])
                           (remove "taskSpec" task))])
  else Ok (acc.1, acc.2 ++ [PDict task]).

(** The templates go to files of their own or into the annotation. *)
Definition emit_templates (self : compiler) (package_path : option string)
    (component_sha : list (string * dict)) (workflow : dict) : io dict :=
  if resource_in_separate_yaml self then
    fold_io (λ _ kv,
               path ← lift (separate_path package_path (kv.1 +:+ ".yaml"));
               _write_workflow kv.2 (Some path);;
               mret ()) () component_sha;;
    mret workflow
  else
    lift (metadata ← getitem "metadata" workflow ≫= as_dict;
          annotations ← getitem "annotations" metadata ≫= attr_dict;
          let templates := get_default resource_templates (PList []) annotations in
          templates ← (if py_true templates then json_loads templates else Ok templates);
          templates ← Deps.fold_result
                        (λ templates value,
                           l ← attr_list templates; Ok (PList (l ++ [PDict value])))
                        templates component_sha.*2;
          if py_true templates
          then text ← dumps_sorted templates;
               set_annotation resource_templates (PStr text) workflow
          else Ok workflow).

(** The statement [if not self.produce_taskspec: ...]: inline
    specifications become task templates. *)
Definition convert_taskspecs (self : compiler) (package_path : option string)
    (workflow : dict) : io dict :=
  if produce_taskspec self then mret workflow
  else
    tasks ← lift (pipeline_tasks workflow);
    templates ← lift (Deps.fold_result to_task_ref ([], []) tasks);
    workflow ← lift (set_pipeline_tasks templates.2 workflow);
    emit_templates self package_path templates.1 workflow.

(** The name of a loop parameter task in the value of a parameter gets
    its suffix. *)
Definition inject_param (k v : string) (param : pyval) : result pyval :=
  param ← as_dict param;
  value ← getitem "value" param;
  match value with
  | PStr s => Ok (PDict (set "value" (PStr (replace k v s)) param))
  | _ => Ok (PDict param)
  end.

Definition inject_task (k v : string) (task : pyval) : result pyval :=
  task ← attr_dict task;
  match get "params" task with
  | None => Ok (PDict task)
  | Some params =>
      params ← as_list params;
      params ← mapM (inject_param k v) params;
      Ok (PDict (set "params" (PList params) task))
  end.

Definition inject_uuid (self : compiler) (workflow : dict) : result dict :=
  if bool_decide (uuid self ≠ "") then
    Deps.fold_result
      (λ workflow kv,
         spec ← getitem "spec" workflow ≫= attr_dict;
         if py_true (get_default "pipelineSpec" PNone spec) then
           tasks ← pipeline_tasks workflow;
           tasks ← mapM (inject_task kv.1 kv.2) tasks;
           set_pipeline_tasks tasks workflow
         else Ok workflow)
      workflow (group_names self)
  else Ok workflow.

(** The body of [_create_and_write_workflow] between the call of
    [prepare_workflow] and that of [_validate_workflow]; its value is the
    workflow as the statements have left it. *)
Definition emit_documents (self : compiler) (pipeline_loop_crs : list dict)
    (workflow : dict) (package_path : option string) : io dict :=
  loop_package_annotations ← fold_io (write_loop_cr self package_path) []
                               (imap pair pipeline_loop_crs);
  workflow ← lift (if bool_decide (loop_package_annotations ≠ [])
                   then text ← dumps_sorted (PList loop_package_annotations);
                        set_annotation resource_templates (PStr text) workflow
                   else Ok workflow);
  workflow ← convert_taskspecs self package_path workflow;
  workflow ← lift (inject_uuid self workflow);
  _write_workflow workflow package_path;;
  fold_io (λ _ icr,
             path ← lift (separate_path package_path
                            ("_customtask_cr" +:+ pretty (icr.1 + 1) +:+ ".yaml"));
             _write_workflow icr.2 (Some path);;
             mret ()) () (imap pair (custom_task_crs self));;
  mret workflow.

(** [_find_items(obj, search_key, current_path, results_dict)] *)
Fixpoint _find_items (search_key : string) (obj : pyval) (current_path : string)
    (results_dict : dict) : dict :=
  match obj with
  | PDict d =>
      let results_dict :=
        match get search_key d with
        | Some v => set (lstrip "."%char (current_path +:+ "." +:+ search_key)) v results_dict
        | None => results_dict
        end in
      (fix items (d : list (string * pyval)) (results_dict : dict) : dict :=
         match d with
         | [] => results_dict
         | (k, v) :: d' =>
             items d' (_find_items search_key v (current_path +:+ "." +:+ k) results_dict)
         end) d results_dict
  | PList l =>
      (fix items (i : nat) (l : list pyval) (results_dict : dict) : dict :=
         match l with
         | [] => results_dict
         | list_item :: l' =>
             items (S i) l'
               (_find_items search_key list_item
                  (current_path +:+ "[" +:+ pretty i +:+ "]") results_dict)
         end) 0 l results_dict
  | _ => results_dict
  end.

(** [name != sanitize_k8s_name(name, ...)]; the sanitizer takes strings. *)
Definition changed (o : k8s_opts) (name : pyval) : result bool :=
  match name with
  | PStr s => Ok (bool_decide (s ≠ sanitize_k8s_name o s))
  | _ => Raise TypeError
  end.

(** The keyword arguments of the four calls of the sanitizer. *)
Definition metadata_name_opts : k8s_opts :=
  K8sOpts false false false 253 (suffix_space k8s_default) false.
Definition param_name_opts : k8s_opts :=
  K8sOpts true false false 253 (suffix_space k8s_default) false.
Definition key_opts : k8s_opts :=
  K8sOpts true true true 253 (suffix_space k8s_default) false.
Definition value_opts : k8s_opts :=
  K8sOpts true true false (max_length k8s_default) (suffix_space k8s_default) false.

Definition non_k8s_name (path : string) (name : pyval) : result bool :=
  in_metadata ← (if contains "metadata" path then changed metadata_name_opts name
                 else Ok false);
  if in_metadata : bool then Ok true
  else if contains "param" path then changed param_name_opts name
  else Ok false.

Definition non_k8s_label (path : string) (k_v_dict : pyval) : result bool :=
  if contains "metadata" path then
    items ← attr_dict k_v_dict;
    flags ← mapM (λ kv, if bool_decide (kv.1 ≠ sanitize_k8s_name key_opts kv.1)
                        then Ok true else changed value_opts kv.2) items;
    Ok (existsb id flags)
  else Ok false.

Definition non_k8s_annotation (path : string) (k_v_dict : pyval) : result bool :=
  if contains "metadata" path then
    items ← attr_dict k_v_dict;
    Ok (existsb (λ kv, bool_decide (kv.1 ≠ sanitize_k8s_name key_opts kv.1)) items)
  else Ok false.

(** The dictionary comprehension [{path: v for path, v in d.items() if keep}] *)
Definition comprehension (keep : string → pyval → result bool) (d : dict) : result dict :=
  Deps.fold_result (λ kept kv, b ← keep kv.1 kv.2;
                               Ok (if b : bool then kept ++ [kv] else kept)) [] d.

Definition error_msg (kind text : string) : string :=
  "Internal compiler error: Found non-compliant Kubernetes " +:+ kind +:+ ":"
  +:+ String Re.newline text
  +:+ String Re.newline
        "Please create a new issue at https://github.com/kubeflow/kfp-tekton/issues"
  +:+ String Re.newline "attaching the pipeline DSL code and the pipeline YAML.".

Definition _validate_workflow (workflow : dict) : result unit :=
  non_k8s_names ← comprehension non_k8s_name (_find_items "name" (PDict workflow) "" []);
  non_k8s_labels ← comprehension non_k8s_label (_find_items "labels" (PDict workflow) "" []);
  non_k8s_annotations ← comprehension non_k8s_annotation
                          (_find_items "annotations" (PDict workflow) "" []);
  if bool_decide (non_k8s_names ≠ []) then
    text ← json_dumps_indent non_k8s_names; Raise (RuntimeError (error_msg "names" text))
  else if bool_decide (non_k8s_labels ≠ []) then
    text ← json_dumps_indent non_k8s_labels; Raise (RuntimeError (error_msg "labels" text))
  else if bool_decide (non_k8s_annotations ≠ []) then
    text ← json_dumps_indent non_k8s_annotations;
    Raise (RuntimeError (error_msg "annotations" text))
  else Ok ().

(** [_create_and_write_workflow]: [prepare_workflow], which writes no
    file, has returned the auxiliary documents and the workflow, or has
    raised. *)
Definition _create_and_write_workflow (self : compiler)
    (prepare_workflow : result (list dict * dict)) (package_path : option string) : io unit :=
  prepared ← lift prepare_workflow;
  workflow ← emit_documents self prepared.1 prepared.2 package_path;
  lift (_validate_workflow workflow).

End WithEnvironment.

End Writer.

(** ** The last step of [_create_workflow] ([remove_empty_elements]) *)

Module Cleanup.
Import PyDict Doc.

(** [remove_empty_elements(obj)]: an item of a list and a value of a
    dictionary that equals [[]] is left out, the others are processed in
    turn; anything but a list or a dictionary is returned as it is.  (The
    workflow is cleaned before the inliner runs, so that it holds none of
    the inliner's shared dictionaries.) *)
Fixpoint remove_empty_elements (obj : pyval) : pyval :=
  match obj with
  | PList l =>
      PList ((fix items (l : list pyval) : list pyval :=
                match l with
                | [] => []
                | o :: l' =>
                    if py_eq o (PList []) then items l'
                    else remove_empty_elements o :: items l'
                end) l)
  | PDict d =>
      PDict ((fix items (d : list (string * pyval)) : list (string * pyval) :=
                match d with
                | [] => []
                | (k, v) :: d' =>
                    if py_eq v (PList []) then items d'
                    else (k, remove_empty_elements v) :: items d'
                end) d)
  | _ => obj
  end.

End Cleanup.

(** ** The keys of the security context ([python_name_to_yaml_name]) *)

Module PodTemplate.

(** [x.group(1).upper()] for the letter that the group holds. *)
Definition upper (c : ascii) : ascii :=
  if K8s.is_lower c then ascii_of_nat (nat_of_ascii c - 32) else c.

(** [re.sub(r'_([a-z])', lambda x: x.group(1).upper(), name)]: from left to
    right, an underscore followed by a small letter is replaced by the
    capital of the letter, and the scan goes on behind the letter. *)
Fixpoint python_name_to_yaml_name (name : string) : string :=
  match name with
  | EmptyString => EmptyString
  | String c rest =>
      match rest with
      | String c' rest' =>
          if bool_decide (c = "_"%char) && K8s.is_lower c'
          then String (upper c') (python_name_to_yaml_name rest')
          else String c (python_name_to_yaml_name rest)
      | EmptyString => String c EmptyString
      end
  end.

End PodTemplate.

(** ** The parameters of a resource op ([_process_resourceOp]) *)

Module ResourceOps.
Import PyStr PyDict Doc.

(** An op of [pipeline.ops], with what [_process_resourceOp] reads of it:
    whether it is a [dsl.ResourceOp], and then its [resource] and its
    [attribute_outputs]. *)
Inductive op :=
| OtherOp
| ResourceOp (resource : dict) (attribute_outputs : list (string * string)).

(** [tp.get('name')] *)
Definition param_name (tp : dict) : pyval := get_default "name" PNone tp.

(** [task.get('params', [])], a list of dictionaries ([tp.get] is called on
    each). *)
Definition params_of (task : dict) : result (list dict) :=
  params ← as_list (get_default "params" (PList []) task);
  mapM (λ tp, match tp with PDict d => Ok d | _ => Raise AttributeError end) params.

(** [task['params'] = [tp for tp in task.get('params', []) if tp.get('name') != name]] *)
Definition drop_param (name : string) (task : dict) : result dict :=
  params ← params_of task;
  Ok (set "params"
          (PList (PDict <$> filter (λ tp, py_eq (param_name tp) (PStr name) = false) params))
          task).

Section WithDedent.
Variable dedent : string → string.

(** [output_values]: one entry for each attribute output, by name. *)
Definition output_values (attribute_outputs : list (string * string)) : string :=
  foldl (λ output_values value,
           output_values
           +:+ dedent ("                    - name: " +:+ value.1 +:+ String Re.newline
                       ("                      valueFrom: '" +:+ value.2 +:+ "'"
                        +:+ String Re.newline "              ")))
        "" (sorted_items attribute_outputs).

(** [if tp.get('name') == name and value: tp['value'] = value] *)
Definition set_value (name : string) (value : pyval) (tp : dict) : dict :=
  if py_eq (param_name tp) (PStr name) && py_true value then set "value" value tp else tp.

(** The body of the loop over the parameters that are left. *)
Definition fill_param (resource : dict) (attribute_outputs : list (string * string))
    (tp : dict) : dict :=
  let tp := set_value "action" (get_default "action" PNone resource) tp in
  let tp := set_value "merge-strategy" (get_default "merge_strategy" PNone resource) tp in
  let tp := set_value "success-condition" (get_default "successCondition" PNone resource) tp in
  let tp := set_value "failure-condition" (get_default "failureCondition" PNone resource) tp in
  let tp := set_value "set-ownerreference" (get_default "setOwnerReference" PNone resource) tp in
  if py_eq (param_name tp) (PStr "output")
  then set "value" (PStr (output_values attribute_outputs)) tp
  else tp.

(** The body of the loop of [_process_resourceOp] for one task; [ops] is
    [pipeline.ops]. *)
Definition process_task (ops : list (string * op)) (task : dict) : result dict :=
  name ← getitem "name" task;
  op ← match name with
       | PStr n => Ok (get n ops)
       | PList _ | PDict _ => Raise TypeError
       | _ => Ok None
       end;
  match op with
  | Some (ResourceOp resource attribute_outputs) =>
      task ← drop_param "image" task;
      task ← (if py_true (get_default "merge_strategy" PNone resource) then Ok task
              else drop_param "merge-strategy" task);
      task ← (if py_true (get_default "successCondition" PNone resource) then Ok task
              else drop_param "success-condition" task);
      task ← (if py_true (get_default "failureCondition" PNone resource) then Ok task
              else drop_param "failure-condition" task);
      task ← (if py_true (get_default "setOwnerReference" PNone resource) then Ok task
              else drop_param "set-ownerreference" task);
      params ← params_of task;
      Ok (set "params" (PList (PDict <$> (fill_param resource attribute_outputs <$> params))) task)
  | _ => Ok task
  end.

(** [_process_resourceOp(task_refs, pipeline)]: the tasks as the loop leaves
    them. *)
Definition _process_resourceOp (task_refs : list dict) (ops : list (string * op))
    : result (list dict) :=
  mapM (process_task ops) task_refs.

End WithDedent.
End ResourceOps.

(* ===================================================================== *)
(** * Properties *)
(* ===================================================================== *)

(** ** Strings and patterns *)

Module PyStrFacts.
Import PyStr Re.

(** Every character of [s] satisfies [f]. *)
Fixpoint all_chars (f : ascii → bool) (s : string) : bool :=
  match s with
  | EmptyString => true
  | String c s' => f c && all_chars f s'
  end.

Definition outside (excl : list ascii) (c : ascii) : bool := negb (bool_decide (c ∈ excl)).

Lemma app_empty_r s : s +:+ "" = s.
Proof. induction s as [|c s IH]; simpl; [done|by rewrite IH]. Qed.

Lemma app_assoc' a b c : (a +:+ b) +:+ c = a +:+ (b +:+ c).
Proof. induction a as [|x a IH]; simpl; [done|by rewrite IH]. Qed.

Lemma length_app a b : String.length (a +:+ b) = String.length a + String.length b.
Proof. induction a as [|x a IH]; simpl; [done|by rewrite IH]. Qed.

Lemma startswith_app p s : startswith p (p +:+ s) = true.
Proof.
  unfold startswith. induction p as [|c p IH]; simpl.
  - by destruct s.
  - destruct (ascii_dec c c); [exact IH|done].
Qed.

Lemma startswith_head_ne c p d s : c ≠ d → startswith (String c p) (String d s) = false.
Proof. intros Hne. unfold startswith. simpl. by destruct (ascii_dec c d). Qed.

Lemma drop_app_plus p s k : drop (String.length p + k) (p +:+ s) = drop k s.
Proof. induction p as [|c p IH]; simpl; [done|exact IH]. Qed.

Lemma drop_app p s : drop (String.length p) (p +:+ s) = s.
Proof. rewrite <-(Nat.add_0_r (String.length p)), drop_app_plus. by destruct s. Qed.

Lemma drop_0 s : drop 0 s = s.
Proof. by destruct s. Qed.

Lemma drop_lt_app p s k :
  k ≤ String.length p → drop k (p +:+ s) = drop k p +:+ s.
Proof.
  revert k. induction p as [|c p IH]; intros [|k] Hk; simpl in *.
  - by destruct s.
  - lia.
  - done.
  - apply IH. lia.
Qed.

Lemma take_app p s : take (String.length p) (p +:+ s) = p.
Proof. induction p as [|c p IH]; simpl; [by destruct s|by rewrite IH]. Qed.

Lemma take_all s n : String.length s ≤ n → take n s = s.
Proof.
  revert n. induction s as [|c s IH]; intros [|n] Hn; simpl in *; try done; try lia.
  rewrite IH; [done|lia].
Qed.

Lemma all_chars_app f a b : all_chars f (a +:+ b) = all_chars f a && all_chars f b.
Proof. induction a as [|c a IH]; simpl; [done|by rewrite IH, andb_assoc]. Qed.

Lemma span_app excl a b :
  all_chars (outside excl) a = true →
  span excl (a +:+ b) = String.length a + span excl b.
Proof.
  induction a as [|c a IH]; simpl; [done|].
  intros [Hc Ha]%andb_true_iff. unfold outside in Hc.
  destruct (bool_decide (c ∈ excl)); [done|]. by rewrite IH.
Qed.

Lemma span_all excl a : all_chars (outside excl) a = true → span excl a = String.length a.
Proof. intros H. rewrite <-(app_empty_r a) at 1. rewrite span_app by done. simpl. lia. Qed.

(** A starts-with test fails everywhere in a text that lacks the first
    character of the prefix. *)
Lemma startswith_drop_absent c p s k :
  all_chars (λ d, negb (bool_decide (d = c))) s = true →
  startswith (String c p) (drop k s) = false.
Proof.
  revert k. induction s as [|d s IH]; intros k Hs.
  - by destruct k.
  - simpl in Hs. apply andb_true_iff in Hs as [Hd Hs].
    destruct k as [|k]; simpl.
    + apply startswith_head_ne. intros ->. by rewrite bool_decide_eq_true_2 in Hd.
    + by apply IH.
Qed.

(** [backtrack] returns the result at the largest index that has one. *)
Lemma backtrack_hit {A} (k : nat → option A) n m r :
  m ≤ n → k m = Some r → (∀ j, m < j ≤ n → k j = None) → backtrack k n = Some r.
Proof.
  induction n as [|n IH]; intros Hm Hk Hnone; simpl.
  - assert (m = 0) as -> by lia. by rewrite Hk.
  - destruct (decide (m = S n)) as [->|Hne]; [by rewrite Hk|].
    rewrite Hnone by lia. apply IH; [lia|done|]. intros j Hj. apply Hnone. lia.
Qed.

Lemma replace_from_skip old new s n :
  String.length s ≤ n → replace_from old new n s = "".
Proof.
  revert n. induction s as [|c s IH]; intros n Hn; simpl in *; [done|].
  destruct n as [|n]; [lia|]. apply IH. lia.
Qed.

(** Replacing a non-empty text in itself leaves the replacement. *)
Lemma replace_whole old new : old ≠ "" → replace old new old = new.
Proof.
  destruct old as [|c old]; [done|]. intros _. unfold replace.
  pose proof (startswith_app (String c old) "") as H. rewrite app_empty_r in H.
  simpl. rewrite H, Nat.sub_0_r, replace_from_skip by done. apply app_empty_r.
Qed.

Lemma contains_startswith p s : startswith p s = true → contains p s = true.
Proof. intros H. destruct s; simpl; by rewrite H. Qed.

Lemma scan_skip p s n : String.length s < n → scan p n s = [].
Proof.
  revert n. induction s as [|c s IH]; intros n Hn; simpl in *.
  - destruct n; [lia|done].
  - destruct n as [|n]; [lia|]. apply IH. lia.
Qed.

Lemma scan_skip_exact p s :
  match_here p "" = None → scan p (String.length s) s = [].
Proof.
  intros Hp. induction s as [|c s IH]; simpl; [by rewrite Hp|done].
Qed.

End PyStrFacts.

(** ** The reference rewriter *)

Module RewriterFacts.
Import PyStr Re Rewriter PyStrFacts.

(** No space, tab, newline or comma. *)
Definition no_separator (s : string) : bool := all_chars (outside separators) s.

Definition no_semicolon (s : string) : bool :=
  all_chars (λ d, negb (bool_decide (d = ";"%char))) s.

Lemma scan_whole p s gs :
  s ≠ "" → match_here p s = Some (gs, String.length s) → match_here p "" = None →
  scan p 0 s = [(s, gs)].
Proof.
  intros Hs Hm Hnil. destruct s as [|c s]; [done|].
  cbn [scan]. rewrite Hm, take_all by done. cbn [String.length].
  by rewrite Nat.sub_succ, Nat.sub_0_r, scan_skip_exact.
Qed.

Lemma match_here_lit l p s :
  match_here (Lit l :: p) s =
  if startswith l s then
    match match_here p (drop (String.length l) s) with
    | Some (gs, m) => Some (gs, String.length l + m)
    | None => None
    end
  else None.
Proof. reflexivity. Qed.

(** The step of a captured run, as a function of the length tried. *)
Definition grp_try (lo : nat) (p : list atom) (s : string) (n : nat) : option (list string * nat) :=
  if bool_decide (lo ≤ n) then
    match match_here p (drop n s) with
    | Some (gs, m) => Some (take n s :: gs, n + m)
    | None => None
    end
  else None.

Lemma match_here_grp lo excl p s :
  match_here (Grp lo excl :: p) s = backtrack (grp_try lo p s) (span excl s).
Proof. reflexivity. Qed.

(** The second group stops at the last closing braces of the run. *)
Lemma match_closing name :
  no_separator name = true →
  match_here [Grp 0 separators; Lit "}}"] (name +:+ "}}")
  = Some ([name], String.length name + 2).
Proof.
  intros Hn. rewrite match_here_grp.
  apply backtrack_hit with (m := String.length name).
  - rewrite span_app by done. lia.
  - unfold grp_try. rewrite bool_decide_eq_true_2 by lia. by rewrite drop_app, take_app.
  - intros j Hj. rewrite span_app in Hj by done.
    change (span separators "}}") with 2 in Hj.
    unfold grp_try. rewrite bool_decide_eq_true_2 by lia.
    assert (j = String.length name + 1 ∨ j = String.length name + 2) as [-> | ->] by lia;
      by rewrite drop_app_plus.
Qed.

(** On a placeholder standing alone the pattern finds the producer and the
    name that were written into it. *)
Lemma match_placeholder op name :
  no_separator op = true → no_separator name = true → no_semicolon name = true →
  match_here pipelineparam_re (placeholder op name)
  = Some ([op; name], String.length (placeholder op name)).
Proof.
  intros Hop Hname Hsemi. unfold pipelineparam_re, placeholder.
  rewrite match_here_lit, startswith_app, drop_app, match_here_grp.
  rewrite (backtrack_hit _ _ (String.length op)
             ([op; name], String.length op + (6 + (String.length name + 2)))).
  - by rewrite !length_app.
  - rewrite span_app by done. lia.
  - unfold grp_try. rewrite bool_decide_eq_true_2 by lia. rewrite drop_app, take_app.
    by rewrite match_here_lit, startswith_app, drop_app, match_closing.
  - intros j Hj. unfold grp_try. rewrite bool_decide_eq_true_2 by lia.
    replace j with (String.length op + S (j - String.length op - 1)) by lia.
    rewrite drop_app_plus, match_here_lit.
    change (drop (S ?i) (";name=" +:+ ?x)) with (drop i ("name=" +:+ x)).
    rewrite startswith_drop_absent; [done|].
    rewrite !all_chars_app. unfold no_semicolon in Hsemi. by rewrite Hsemi.
Qed.

Lemma findall_placeholder op name :
  no_separator op = true → no_separator name = true → no_semicolon name = true →
  findall2 pipelineparam_re (placeholder op name) = [(op, name)].
Proof.
  intros. unfold findall2. rewrite (scan_whole _ _ [op; name]); [done|done| |done].
  by apply match_placeholder.
Qed.

Lemma placeholder_marked op name :
  contains "{{pipelineparam" (placeholder op name) = true.
Proof.
  apply contains_startswith. unfold placeholder.
  change ("{{pipelineparam:op=" +:+ ?x) with ("{{pipelineparam" +:+ (":op=" +:+ x)).
  apply startswith_app.
Qed.

(** What the claim asks of a text with several references: each one is
    replaced by its own substitution.  [pieces] is the text cut into
    literal parts and references. *)
Inductive piece :=
| Text (s : string)
| Ref (op name : string).

Definition source_of (p : piece) : string :=
  match p with
  | Text s => s
  | Ref op name => placeholder op name
  end.

Definition rewritten_of (sanitize : k8s_opts → string → string) (p : piece) : string :=
  match p with
  | Text s => s
  | Ref op name =>
      if bool_decide (op = "") then params_ref name
      else tasks_ref (sanitize k8s_default op) (sanitize k8s_capital name)
  end.

Definition concat_pieces (f : piece → string) (ps : list piece) : string :=
  foldr (λ p acc, f p +:+ acc) "" ps.

(** Two pipeline inputs joined by a dash, as in a path or a label. *)
Definition two_inputs : list piece := [Ref "" "x"; Text "-"; Ref "" "y"].

(** A reference whose producer field holds another reference, after one
    that is alone. *)
Definition nested_reference : string :=
  "{{pipelineparam:op=;name=a}} {{pipelineparam:op={{pipelineparam:op=;name=a}};name=b}}".

Lemma tasks_ref_not_params a b s : tasks_ref a b ≠ "$(p" +:+ s.
Proof. unfold tasks_ref. simpl. discriminate. Qed.

(** C4 (the code departs from the claim): the pattern's classes exclude
    only blanks and commas, so two references with no blank or comma between
    them are read as one reference whose producer is everything up to the
    last [;name=].  The text comes out as a single task-result substitution
    of a sanitized jumble, not as the two substitutions of its references;
    and a text in which a reference is nested in the producer of another is
    changed again by a second application. *)
Theorem process_pipelineparam_greedy (sanitize : k8s_opts → string → string) :
  process_pipelineparam sanitize (concat_pieces source_of two_inputs)
    = tasks_ref (sanitize k8s_default ";name=x}}-{{pipelineparam:op=") (sanitize k8s_capital "y")
  ∧ process_pipelineparam sanitize (concat_pieces source_of two_inputs)
    ≠ concat_pieces (rewritten_of sanitize) two_inputs
  ∧ process_pipelineparam sanitize (process_pipelineparam sanitize nested_reference)
    ≠ process_pipelineparam sanitize nested_reference.
Proof.
  assert (process_pipelineparam sanitize (concat_pieces source_of two_inputs)
    = tasks_ref (sanitize k8s_default ";name=x}}-{{pipelineparam:op=")
                (sanitize k8s_capital "y")) as Hmerge.
  { unfold process_pipelineparam.
    change (contains _ _) with true. cbn iota.
    change (findall2 _ _) with [(";name=x}}-{{pipelineparam:op=", "y")].
    cbn [foldl substitute]. rewrite bool_decide_eq_false_2 by discriminate.
    by apply replace_whole. }
  split; [exact Hmerge|split].
  - rewrite Hmerge. apply tasks_ref_not_params.
  - assert (process_pipelineparam sanitize nested_reference
            = "$(params.a) {{pipelineparam:op=$(params.a);name=b}}") as Hone.
    { unfold process_pipelineparam.
      change (contains _ _) with true. cbn iota.
      change (findall2 _ _) with [("", "a"); ("{{pipelineparam:op=;name=a}}", "b")].
      cbn [foldl substitute]. rewrite (bool_decide_eq_true_2 ("" = "")) by done.
      rewrite bool_decide_eq_false_2 by discriminate.
      change (replace (placeholder "" "a") (params_ref "a") nested_reference)
        with "$(params.a) {{pipelineparam:op=$(params.a);name=b}}".
      generalize (tasks_ref (sanitize k8s_default "{{pipelineparam:op=;name=a}}")
                            (sanitize k8s_capital "b")).
      intros new. by vm_compute. }
    rewrite Hone. unfold process_pipelineparam.
    change (contains _ _) with true. cbn iota.
    change (findall2 _ _) with [("$(params.a)", "b")].
    cbn [foldl substitute]. rewrite bool_decide_eq_false_2 by discriminate.
    set (new := tasks_ref (sanitize k8s_default "$(params.a)") (sanitize k8s_capital "b")).
    change (replace _ new _) with ("$(params.a) " +:+ new +:+ "").
    subst new. unfold tasks_ref. simpl. discriminate.
Qed.

(** A reference standing alone, whose producer and name hold no blank or
    comma and whose name holds no semicolon, is rewritten to the task
    result substitution with the sanitized name when it has a producer, and
    to the parameter substitution with the name as given when it has none. *)
Lemma process_placeholder (sanitize : k8s_opts → string → string) (op name : string) :
  no_separator op = true → no_separator name = true → no_semicolon name = true →
  process_pipelineparam sanitize (placeholder op name)
  = (if bool_decide (op = "") then params_ref name
     else tasks_ref (sanitize k8s_default op) (sanitize k8s_capital name)).
Proof.
  intros Hop Hname Hsemi. unfold process_pipelineparam.
  rewrite placeholder_marked, findall_placeholder by done.
  cbn [foldl substitute].
  case_bool_decide; by apply replace_whole.
Qed.

(** The parameters of a custom task: a name among the pipeline's
    parameters or the loop arguments, or an input without producer, is
    emitted as given; an input with a producer is emitted with its name
    sanitized. *)
Lemma substitute_param_cases (sanitize : k8s_opts → string → string) names inputs p v :
  substitute_param sanitize names inputs p = Some v →
  (v = params_ref p
   ∧ (p ∈ names ∨ ∃ pp, pp ∈ inputs ∧ full_name pp = p ∧ truthy (pp_op_name pp) = false))
  ∨ (∃ pp producer, pp ∈ inputs ∧ full_name pp = p ∧ (p ∉ names)
       ∧ pp_op_name pp = Some producer ∧ producer ≠ ""
       ∧ v = tasks_ref (sanitize k8s_default producer) (sanitize k8s_capital (pp_name pp))).
Proof.
  unfold substitute_param.
  case_bool_decide as Hin; [intros [= <-]; left; by auto|].
  destruct (List.find _ inputs) as [pp|] eqn:Hfind; [|done].
  apply find_some in Hfind as [Hpp Heq%bool_decide_eq_true].
  apply list_elem_of_In in Hpp.
  destruct (truthy (pp_op_name pp)) eqn:Htruthy; intros [= <-].
  - right. destruct (pp_op_name pp) as [[|c producer]|] eqn:Hpo; try done.
    exists pp, (String c producer). by rewrite Hpo.
  - left. split; [done|]. right. by exists pp.
Qed.

(** The rule at a reference to the output [Out_put] of the task [flip-coin]. *)
Example output_of_flip_coin :
  process_pipelineparam K8s.sanitize_k8s_name "{{pipelineparam:op=flip-coin;name=Out_put}}"
  = "$(tasks.flip-coin.results.Out-put)".
Proof.
  exact (process_placeholder K8s.sanitize_k8s_name "flip-coin" "Out_put"
           eq_refl eq_refl eq_refl).
Qed.

(** Two pipeline inputs joined by a dash. *)
Definition inputs_joined (x name : string) : list piece := [Ref "" x; Text "-"; Ref "" name].

Lemma inputs_joined_merged x name :
  concat_pieces source_of (inputs_joined x name)
  = placeholder (";name=" +:+ x +:+ "}}-{{pipelineparam:op=") name.
Proof.
  unfold inputs_joined, concat_pieces, source_of, placeholder. cbn [foldr].
  rewrite !app_assoc', app_empty_r. simpl. rewrite ?app_assoc'. simpl. done.
Qed.

(** C5 (the code departs from the claim): the greedy pattern reads two
    pipeline inputs joined by a dash as one reference with a producer, so
    the name of the second input is not emitted as given but sanitized,
    inside a task result substitution, and the first input is not emitted
    at all. *)
Theorem pipeline_input_is_sanitized (sanitize : k8s_opts → string → string) (x name : string) :
  no_separator x = true → no_separator name = true → no_semicolon name = true →
  process_pipelineparam sanitize (concat_pieces source_of (inputs_joined x name))
  = tasks_ref (sanitize k8s_default (";name=" +:+ x +:+ "}}-{{pipelineparam:op="))
              (sanitize k8s_capital name)
  ∧ concat_pieces (rewritten_of sanitize) (inputs_joined x name)
    = params_ref x +:+ "-" +:+ params_ref name
  ∧ process_pipelineparam sanitize (concat_pieces source_of (inputs_joined x name))
    ≠ concat_pieces (rewritten_of sanitize) (inputs_joined x name).
Proof.
  intros Hx Hname Hsemi.
  assert (process_pipelineparam sanitize (concat_pieces source_of (inputs_joined x name))
          = tasks_ref (sanitize k8s_default (";name=" +:+ x +:+ "}}-{{pipelineparam:op="))
                      (sanitize k8s_capital name)) as Hmerge.
  { rewrite inputs_joined_merged, process_placeholder; [done| |done|done].
    unfold no_separator in *. rewrite !all_chars_app, Hx. done. }
  split; [exact Hmerge|]. split.
  - unfold inputs_joined, concat_pieces, rewritten_of. cbn [foldr].
    rewrite bool_decide_eq_true_2 by done. by rewrite app_empty_r.
  - rewrite Hmerge. apply tasks_ref_not_params.
Qed.

(** The inputs [x] and [My_Y]: the underscore of the second is lost. *)
Lemma pipeline_input_is_sanitized_witness :
  process_pipelineparam K8s.sanitize_k8s_name
    "{{pipelineparam:op=;name=x}}-{{pipelineparam:op=;name=My_Y}}"
  = "$(tasks.name-x-pipelineparam-op.results.My-Y)"
  ∧ concat_pieces (rewritten_of K8s.sanitize_k8s_name) (inputs_joined "x" "My_Y")
    = "$(params.x)-$(params.My_Y)"
  ∧ process_pipelineparam K8s.sanitize_k8s_name
      "{{pipelineparam:op=;name=x}}-{{pipelineparam:op=;name=My_Y}}"
    ≠ concat_pieces (rewritten_of K8s.sanitize_k8s_name) (inputs_joined "x" "My_Y").
Proof.
  exact (pipeline_input_is_sanitized K8s.sanitize_k8s_name "x" "My_Y" eq_refl eq_refl eq_refl).
Defined.

End RewriterFacts.

(** ** Dictionaries, sorting and serialization *)

Module JsonFacts.
Import PyDict Json.

(** Items in the order of their keys. *)
Definition key_le {A} (x y : string * A) : Prop := String.le x.1 y.1.

#[local] Instance key_le_trans {A} : Transitive (@key_le A).
Proof. intros x y z. unfold key_le. apply transitivity. Qed.

Lemma insert_sorted_perm {A} (x : string * A) l : insert_sorted x l ≡ₚ x :: l.
Proof.
  induction l as [|y l IH]; simpl; [done|].
  destruct (String.leb x.1 y.1); [done|].
  by rewrite IH, Permutation_swap.
Qed.

Lemma sorted_items_perm {A} (d : list (string * A)) : sorted_items d ≡ₚ d.
Proof.
  induction d as [|x d IH]; simpl; [done|].
  by rewrite insert_sorted_perm, IH.
Qed.

Lemma insert_sorted_sorted {A} (x : string * A) l :
  Sorted key_le l → Sorted key_le (insert_sorted x l).
Proof.
  induction 1 as [|y l Hl IH Hy]; simpl; [by repeat constructor|].
  destruct (String.leb x.1 y.1) eqn:Hxy.
  - constructor; [by constructor|]. constructor. unfold key_le, String.le. by rewrite Hxy.
  - constructor; [done|].
    assert (key_le y x) as Hyx.
    { destruct (total String.le x.1 y.1) as [H|H]; [|done].
      unfold String.le in H. by rewrite Hxy in H. }
    destruct Hy as [|z l Hyz]; simpl; [by constructor|].
    destruct (String.leb x.1 z.1); by constructor.
Qed.

Lemma sorted_items_sorted {A} (d : list (string * A)) : Sorted key_le (sorted_items d).
Proof.
  induction d as [|x d IH]; simpl; [constructor|by apply insert_sorted_sorted].
Qed.








End JsonFacts.

(** ** The items of a static loop *)

Module LoopArgsFacts.
Import PyDict Json JsonFacts Rewriter LoopArgs.

Lemma set_fresh {A} k (v : A) d : k ∉ d.*1 → set k v d = d ++ [(k, v)].
Proof.
  induction d as [|[k' v'] d IH]; simpl; [done|].
  intros Hk. apply not_elem_of_cons in Hk as [Hne Hk].
  rewrite bool_decide_eq_false_2 by done. by rewrite IH.
Qed.

Lemma elem_of_set {A} k (v : A) d x : x ∈ set k v d → x = (k, v) ∨ x ∈ d.
Proof.
  induction d as [|[k' v'] d IH]; simpl.
  - rewrite list_elem_of_singleton. auto.
  - case_bool_decide; rewrite !elem_of_cons; naive_solver.
Qed.

Lemma set_keys {A} k (v : A) d k' : k' ∈ (set k v d).*1 ↔ k' = k ∨ k' ∈ d.*1.
Proof.
  induction d as [|[k0 v0] d IH]; simpl.
  - rewrite list_elem_of_singleton. set_solver.
  - case_bool_decide; subst; rewrite ?fmap_cons, !elem_of_cons; simpl; [naive_solver|].
    rewrite IH. naive_solver.
Qed.

Section WithSanitizer.
Variable sanitize : k8s_opts → string → string.

(** The item stored for an item of an [argument_set]. *)
Definition stored (kv : string * pyval) : string * pyval :=
  (sanitize k8s_capital_underscore kv.1, rewrite_value sanitize kv.2).

Definition store (c_dict : list (string * pyval)) (kv : string * pyval) :=
  set (sanitize k8s_capital_underscore kv.1) (rewrite_value sanitize kv.2) c_dict.


Lemma store_elem acc d x :
  x ∈ foldl store acc d → x ∈ acc ∨ ∃ kv, kv ∈ d ∧ x = stored kv.
Proof.
  revert acc. induction d as [|kv d IH]; intros acc; simpl; [by left|].
  intros [Hx|(kv' & Hkv' & ->)]%IH.
  - apply elem_of_set in Hx as [->|Hx]; [|by left].
    right. exists kv. split; [by left|done].
  - right. exists kv'. split; [by right|done].
Qed.

Lemma store_keys acc d k :
  k ∈ acc.*1 ∨ k ∈ (stored <$> d).*1 → k ∈ (foldl store acc d).*1.
Proof.
  revert acc. induction d as [|kv d IH]; intros acc; simpl.
  - intros [H|H]; [done|]. by apply elem_of_nil in H.
  - intros H. apply IH. unfold store at 1. rewrite set_keys.
    rewrite elem_of_cons in H. naive_solver.
Qed.

Lemma rewrite_value_not_param v p : rewrite_value sanitize v ≠ PParam p.
Proof. destruct v as [| | | |[[op|] name]| | |]; done. Qed.






End WithSanitizer.






(** The record of the witness as it is stored. *)
Example record_as_stored :
  sanitize_argument_set K8s.sanitize_k8s_name
    [("b c", PInt 1); ("a", PParam (Param (Some "Gen") "Out_1"));
     ("d", PParam (Param None "Out_1"))]
  = [("b-c", PInt 1); ("a", PStr "$(tasks.gen.results.Out-1)");
     ("d", PStr "$(params.Out_1)")].
Proof. by vm_compute. Qed.

End LoopArgsFacts.

(** ** The dependency deriver *)

Module DepsFacts.
Import PyStr Deps.

(** Induction on the nesting tree. *)
Definition OpsGroup_tree_ind (P : OpsGroup → Prop)
    (step : ∀ g, Forall P (g_groups g) → P g) : ∀ g, P g :=
  fix F g :=
    match g with
    | MkGroup n t d r i gs =>
        step (MkGroup n t d r i gs)
             ((fix G l : Forall P l :=
                 match l with
                 | [] => List.Forall_nil P
                 | x :: l' => List.Forall_cons P x l' (F x) (G l')
                 end) gs)
    end.

(** [g] is a group of the tree under [root]. *)
Inductive in_tree (g : OpsGroup) : OpsGroup → Prop :=
| in_tree_root : in_tree g g
| in_tree_child sub root : sub ∈ g_groups root → in_tree g sub → in_tree g root.

(** Every edge of the first map is an edge of the second. *)
Definition below (d1 d2 : depmap) : Prop := ∀ k, d1 !!! k ⊆ d2 !!! k.

#[local] Instance below_preorder : PreOrder below.
Proof.
  split.
  - intros d k. set_solver.
  - intros d1 d2 d3 H12 H23 k. specialize (H12 k). specialize (H23 k). set_solver.
Qed.

Lemma fold_result_raise {A B} (f : B → A → result B) b l x :
  x ∈ l → (∀ b, ∃ e, f b x = Raise e) → ∃ e, fold_result f b l = Raise e.
Proof.
  intros Hx Hraise. revert b. induction l as [|y l IH]; intros b.
  - by apply elem_of_nil in Hx.
  - simpl. apply elem_of_cons in Hx as [<-|Hx].
    + destruct (Hraise b) as [e ->]. by exists e.
    + destruct (f b y) as [b'|e]; simpl; [by apply IH|by exists e].
Qed.

Lemma fold_result_below {A} (f : depmap → A → result depmap) l b b' :
  (∀ b x b', f b x = Ok b' → below b b') →
  fold_result f b l = Ok b' → below b b'.
Proof.
  intros Hf. revert b. induction l as [|y l IH]; intros b; simpl.
  - by intros [= ->].
  - destruct (f b y) as [b1|e] eqn:Hy; simpl; [|done].
    intros H. etrans; [by eapply Hf|by apply IH].
Qed.

(** A successful loop went through every element, between two maps that
    lie between the first and the last. *)
Lemma fold_result_visit {A} (f : depmap → A → result depmap) l b b' x :
  (∀ b x b', f b x = Ok b' → below b b') →
  fold_result f b l = Ok b' → x ∈ l →
  ∃ b1 b2, below b b1 ∧ f b1 x = Ok b2 ∧ below b2 b'.
Proof.
  intros Hf. revert b. induction l as [|y l IH]; intros b; simpl.
  - intros _ Hx. by apply elem_of_nil in Hx.
  - destruct (f b y) as [b1|e] eqn:Hy; simpl; [|done].
    intros Hfold [->|Hx]%elem_of_cons.
    + exists b, b1. split; [done|]. split; [done|]. by eapply fold_result_below.
    + destruct (IH _ Hfold Hx) as (c1 & c2 & H1 & H2 & H3).
      exists c1, c2. split; [|done]. etrans; [by eapply Hf|done].
Qed.

Lemma add_dependency_ok deps up down deps' :
  add_dependency deps up down = Ok deps' →
  below deps deps'
  ∧ ∀ x rest, up = x :: rest → ∃ d rest', down = d :: rest' ∧ x ∈ deps' !!! d.
Proof.
  unfold add_dependency. destruct up as [|x up]; [by intros [= ->]|].
  destruct down as [|d down]; [done|]. intros [= <-]. split.
  - intros k. destruct (decide (k = d)) as [->|Hne].
    + rewrite lookup_total_insert_eq. set_solver.
    + by rewrite lookup_total_insert_ne.
  - intros x' rest [= <- <-]. exists d, down. split; [done|].
    rewrite lookup_total_insert_eq. set_solver.
Qed.

Section WithPipeline.
Variable ops : list Op.
Variable op_groups opsgroups_groups : gmap string (list string).
Variable opsgroups : gmap string OpsGroup.
Variable condition_params : string → list PipelineParam.

#[local] Abbreviation resolve := (resolve ops opsgroups).
#[local] Abbreviation op_dependency := (op_dependency ops op_groups opsgroups_groups opsgroups).
#[local] Abbreviation group_dependency := (group_dependency ops op_groups opsgroups_groups opsgroups).
#[local] Abbreviation _get_dependency_opsgroup :=
  (_get_dependency_opsgroup ops op_groups opsgroups_groups opsgroups condition_params).

Lemma resolve_none name :
  resolve name = None ↔ (name ∉ op_name <$> ops) ∧ opsgroups !! name = None.
Proof.
  unfold Deps.resolve. case_bool_decide; [naive_solver|].
  destruct (opsgroups !! name); naive_solver.
Qed.

Lemma op_dependency_below op deps name deps' :
  op_dependency op deps name = Ok deps' → below deps deps'.
Proof.
  unfold Deps.op_dependency. destruct (resolve name) as [up|].
  - destruct (_get_uncommon_ancestors _ _ _ _) as [[ug dg]|]; simpl; [|done].
    by intros [? _]%add_dependency_ok.
  - destruct (contains _ _); [by intros [= ->]|done].
Qed.

Lemma group_dependency_below g deps name deps' :
  group_dependency g deps name = Ok deps' → below deps deps'.
Proof.
  unfold Deps.group_dependency. destruct (resolve name) as [up|]; [|done].
  destruct (_get_uncommon_ancestors _ _ _ _) as [[ug dg]|]; simpl; [|done].
  by intros [? _]%add_dependency_ok.
Qed.

Lemma _get_dependency_opsgroup_unfold group deps :
  _get_dependency_opsgroup group deps =
    deps' ← fold_result (group_dependency group) deps
              (elements (group_upstream_names condition_params group));
    fold_result (λ d sub, _get_dependency_opsgroup sub d) deps' (g_groups group).
Proof. by destruct group. Qed.

Lemma _get_dependency_opsgroup_below group :
  ∀ deps deps', _get_dependency_opsgroup group deps = Ok deps' → below deps deps'.
Proof.
  induction group as [group IH] using OpsGroup_tree_ind. intros deps deps'.
  rewrite _get_dependency_opsgroup_unfold.
  destruct (fold_result (group_dependency group) _ _) as [d1|] eqn:H1; simpl; [|done].
  intros H2. etrans.
  - eapply fold_result_below; [|exact H1]. apply group_dependency_below.
  - clear H1. revert d1 H2 IH. induction (g_groups group) as [|sub gs IHgs]; intros d1; simpl.
    + by intros [= ->].
    + destruct (_get_dependency_opsgroup sub d1) as [d2|] eqn:Hsub; simpl; [|done].
      intros H2 [Hs Hgs]%Forall_cons. etrans; [by eapply Hs|by apply IHgs].
Qed.

Lemma _get_dependency_opsgroup_raise root g name :
  in_tree g root → name ∈ group_upstream_names condition_params g → resolve name = None →
  ∀ deps, ∃ e, _get_dependency_opsgroup root deps = Raise e.
Proof.
  intros Htree Hname Hnone. induction Htree as [|sub root Hsub _ IH]; intros deps;
    rewrite _get_dependency_opsgroup_unfold.
  - destruct (fold_result_raise (group_dependency g) deps
                (elements (group_upstream_names condition_params g)) name) as [e ->].
    + by apply elem_of_elements.
    + intros b. unfold Deps.group_dependency. rewrite Hnone. eauto.
    + by exists e.
  - destruct (fold_result (group_dependency root) _ _) as [d1|e]; simpl; [|by exists e].
    by apply (fold_result_raise _ _ _ sub).
Qed.

End WithPipeline.

(** *** The claims on concrete pipelines *)

(** Closed decidable statements are settled by evaluation. *)
Ltac by_evaluation := apply (bool_decide_unpack _); vm_compute; exact I.

Definition root_only : OpsGroup := MkGroup "pipeline" "pipeline" [] false [] [].

(** Two sibling tasks; the producer is a task whose name happens to hold
    [condition-]. *)
Definition checker_ops : list Op :=
  [MkOp "condition-check" [] []; MkOp "consumer" [Param (Some "condition-check") "out"] []].
Definition checker_paths : gmap string (list string) :=
  {[ "condition-check" := ["pipeline"; "condition-check"];
     "consumer" := ["pipeline"; "consumer"] ]}.
Definition root_path : gmap string (list string) := {[ "pipeline" := ["pipeline"] ]}.

(** The claim's reading of the special rule: a condition group is a group
    of the tree whose type is [condition]. *)
Definition is_condition_group (opsgroups : gmap string OpsGroup) (name : string) : bool :=
  match opsgroups !! name with
  | Some g => bool_decide (g_type g = "condition")
  | None => false
  end.

Fixpoint skip_condition_groups (opsgroups : gmap string OpsGroup) (tail : list string) : list string :=
  match tail with
  | g :: rest => if is_condition_group opsgroups g then skip_condition_groups opsgroups rest else tail
  | [] => []
  end.

(** C1 (the code departs from the claim): the code takes every name that
    holds [condition-] for a condition group.  [consumer] reads an output
    of the task [condition-check]; both are children of the root, the
    name resolves to the task, the upstream tail is the task itself, which
    is no condition group, and yet no edge is recorded: the map comes out
    empty, and [consumer] does not wait for its producer. *)
Theorem condition_named_task_is_skipped :
  _get_dependencies checker_ops checker_paths root_path (_get_groups root_only) (λ _, []) root_only
    = Ok ∅
  ∧ "condition-check" ∈ upstream_op_names (λ _, []) (MkOp "consumer" [Param (Some "condition-check") "out"] [])
  ∧ resolve checker_ops (_get_groups root_only) "condition-check" = Some "condition-check"
  ∧ _get_uncommon_ancestors checker_paths root_path "condition-check" "consumer"
    = Ok (["condition-check"], ["consumer"])
  ∧ skip_condition_groups (_get_groups root_only) ["condition-check"] = ["condition-check"]
  ∧ "condition-check" ∉ (∅ : depmap) !!! "consumer".
Proof.
  split; [by vm_compute|]. split; [by_evaluation|]. split; [by vm_compute|].
  split; [by vm_compute|]. split; [by vm_compute|].
  rewrite lookup_total_empty. set_solver.
Qed.

(** What the derivation does record: when it succeeds, every upstream
    name of every task either resolves to a task or group, in which case the
    uncommon-ancestor tails exist and, once the leading elements of the
    upstream tail whose names contain [condition-] are dropped, the first
    remaining element (if any) is recorded as a dependency of the first
    element of the downstream tail; or it does not resolve and contains
    [for-loop]. *)
Theorem dependencies_recorded (ops : list Op)
    (op_groups opsgroups_groups : gmap string (list string))
    (opsgroups : gmap string OpsGroup) (condition_params : string → list PipelineParam)
    (root_group : OpsGroup) (dependencies : depmap) (op : Op) (name : string) :
  _get_dependencies ops op_groups opsgroups_groups opsgroups condition_params root_group
    = Ok dependencies →
  op ∈ ops → name ∈ upstream_op_names condition_params op →
  match resolve ops opsgroups name with
  | Some upstream =>
      ∃ upstream_tail downstream_tail,
        _get_uncommon_ancestors op_groups opsgroups_groups upstream (op_name op)
          = Ok (upstream_tail, downstream_tail)
        ∧ ∀ first rest, skip_conditions upstream_tail = first :: rest →
            ∃ down rest', downstream_tail = down :: rest' ∧ first ∈ dependencies !!! down
  | None => contains "for-loop" name = true
  end.
Proof.
  unfold _get_dependencies. intros Hrun Hop Hname.
  destruct (fold_result _ ∅ ops) as [d1|] eqn:Hops; simpl in Hrun; [|done].
  apply _get_dependency_opsgroup_below in Hrun.
  assert (∀ b x b',
            fold_result (op_dependency ops op_groups opsgroups_groups opsgroups x) b
              (elements (upstream_op_names condition_params x)) = Ok b' → below b b') as Hmono.
  { intros b x b'. apply fold_result_below. apply op_dependency_below. }
  destruct (fold_result_visit _ _ _ _ op Hmono Hops Hop) as (b1 & b2 & _ & Hinner & H2).
  apply elem_of_elements in Hname.
  destruct (fold_result_visit _ _ _ _ name (op_dependency_below _ _ _ _ op) Hinner Hname)
    as (c1 & c2 & _ & Hstep & H3).
  unfold op_dependency in Hstep.
  destruct (resolve ops opsgroups name) as [upstream|].
  - destruct (_get_uncommon_ancestors _ _ _ _) as [[ug dg]|]; simpl in Hstep; [|done].
    exists ug, dg. split; [done|]. intros first rest Hskip.
    apply add_dependency_ok in Hstep as [_ Hedge].
    destruct (Hedge _ _ Hskip) as (down & rest' & -> & Hin).
    exists down, rest'. split; [done|].
    apply Hrun, H2, H3, Hin.
  - by destruct (contains "for-loop" name).
Qed.

(** A task below a condition group feeds a task at the top level. *)
Definition gated_ops : list Op :=
  [MkOp "flip" [] []; MkOp "report" [Param (Some "flip") "out"] []].
Definition gated_paths : gmap string (list string) :=
  {[ "flip" := ["pipeline"; "condition-1"; "flip"]; "report" := ["pipeline"; "report"] ]}.
Definition gated_root : OpsGroup :=
  MkGroup "pipeline" "pipeline" [] false []
    [MkGroup "condition-1" "condition" [] false [] []].
Definition gated_group_paths : gmap string (list string) :=
  {[ "pipeline" := ["pipeline"]; "condition-1" := ["pipeline"; "condition-1"] ]}.

Lemma dependencies_recorded_witness :
  ∃ upstream_tail downstream_tail,
    _get_uncommon_ancestors gated_paths gated_group_paths "flip" "report"
      = Ok (upstream_tail, downstream_tail)
    ∧ ∀ first rest, skip_conditions upstream_tail = first :: rest →
        ∃ down rest', downstream_tail = down :: rest'
                      ∧ first ∈ ({[ "report" := {[ "flip" ]} ]} : depmap) !!! down.
Proof.
  apply (dependencies_recorded gated_ops gated_paths gated_group_paths
           (_get_groups gated_root) (λ _, []) gated_root
           {[ "report" := {[ "flip" ]} ]}
           (MkOp "report" [Param (Some "flip") "out"] []) "flip").
  - by vm_compute.
  - unfold gated_ops. set_solver.
  - by_evaluation.
Defined.

(** C7, as stated, fails: the only upstream name of [consumer] is in
    neither namespace, and the derivation returns a map all the same,
    because the name contains [for-loop]. *)
Lemma for_loop_name_is_skipped :
  _get_dependencies [MkOp "consumer" [Param (Some "for-loop-1") "item"] []]
      {[ "consumer" := ["pipeline"; "consumer"] ]} root_path (_get_groups root_only)
      (λ _, []) root_only
    = Ok ∅
  ∧ "for-loop-1" ∈ upstream_op_names (λ _, []) (MkOp "consumer" [Param (Some "for-loop-1") "item"] [])
  ∧ ("for-loop-1" ∉ op_name <$> [MkOp "consumer" [Param (Some "for-loop-1") "item"] []])
  ∧ _get_groups root_only !! "for-loop-1" = None.
Proof.
  split; [by vm_compute|]. split; [by_evaluation|]. split; [|by vm_compute].
  simpl. set_solver.
Qed.

(** C7, amended: the derivation raises as soon as a task refers to a name
    that is neither a task nor a group and does not contain [for-loop], or
    a group of the tree refers to a name that is neither a task nor a
    group. *)
Theorem unresolved_name_is_fatal (ops : list Op)
    (op_groups opsgroups_groups : gmap string (list string))
    (opsgroups : gmap string OpsGroup) (condition_params : string → list PipelineParam)
    (root_group : OpsGroup) (name : string) :
  name ∉ op_name <$> ops → opsgroups !! name = None →
  (∃ op, op ∈ ops ∧ name ∈ upstream_op_names condition_params op
         ∧ contains "for-loop" name = false)
  ∨ (∃ group, in_tree group root_group ∧ name ∈ group_upstream_names condition_params group) →
  ∃ e, _get_dependencies ops op_groups opsgroups_groups opsgroups condition_params root_group
       = Raise e.
Proof.
  intros Hop Hgroup Href.
  assert (resolve ops opsgroups name = None) as Hnone by (by apply resolve_none).
  unfold _get_dependencies. destruct Href as [(op & Hin & Hname & Hloop)|(g & Htree & Hname)].
  - destruct (fold_result_raise
                (λ dependencies op,
                   fold_result (op_dependency ops op_groups opsgroups_groups opsgroups op)
                     dependencies (elements (upstream_op_names condition_params op)))
                ∅ ops op Hin) as [e ->]; [|by exists e].
    intros b. apply (fold_result_raise _ _ _ name); [by apply elem_of_elements|].
    intros b'. unfold op_dependency. rewrite Hnone, Hloop. eauto.
  - destruct (fold_result _ ∅ ops) as [d1|e]; simpl; [|by exists e].
    by eapply _get_dependency_opsgroup_raise.
Qed.

Lemma unresolved_name_is_fatal_witness :
  ∃ e, _get_dependencies [MkOp "consumer" [Param (Some "ghost") "out"] []]
         {[ "consumer" := ["pipeline"; "consumer"] ]} root_path (_get_groups root_only)
         (λ _, []) root_only
       = Raise e.
Proof.
  apply (unresolved_name_is_fatal _ _ _ _ _ _ "ghost").
  - simpl. set_solver.
  - by vm_compute.
  - left. exists (MkOp "consumer" [Param (Some "ghost") "out"] []).
    split; [set_solver|]. split; [by_evaluation|by vm_compute].
Defined.

End DepsFacts.

(** ** Propagation of when-predicates *)

Module AssemblerFacts.
Import Assembler.

(** The name of the task at an index. *)
Definition name_at (tks : list task) (i : nat) : option string := task_name <$> tks !! i.

(** *** Termination *)

(** A queued task still waits at queue length [len] when [visited_tasks]
    does not hold [len] for its name: it may be put back once more. *)
Definition waits (tks : list task) (visited : gmap string nat) (len : nat) (i : nat) : Prop :=
  name_at tks i ≫= (visited !!.) ≠ Some len.

#[local] Instance waits_dec tks visited len i : Decision (waits tks visited len i).
Proof. unfold waits. apply _. Defined.

Definition pending (tks : list task) (visited : gmap string nat) (queue : list nat) : nat :=
  length (filter (waits tks visited (length queue - 1)) queue).

(** The measure of a state: it drops at every turn of the loop. *)
Definition potential (tks : list task) (st : state) : nat :=
  pending tks (visited_tasks st) (task_queue st)
  + length (task_queue st) * length (task_queue st).

Lemma pending_le tks visited queue : pending tks visited queue ≤ length queue.
Proof. apply length_filter. Qed.

Lemma filter_length_mono {A} (P Q : A → Prop) `{∀ x, Decision (P x)} `{∀ x, Decision (Q x)} l :
  (∀ x, x ∈ l → P x → Q x) → length (filter P l) ≤ length (filter Q l).
Proof.
  induction l as [|x l IH]; intros HPQ; [done|].
  rewrite !filter_cons. assert (length (filter P l) ≤ length (filter Q l)) as Hl.
  { apply IH. intros y Hy. apply HPQ. by right. }
  destruct (decide (P x)) as [HP|HP].
  - rewrite decide_True by (apply HPQ; [by left|done]). simpl. lia.
  - destruct (decide (Q x)); simpl; lia.
Qed.

Lemma deferred_waits tks st popped queue :
  deferred tks st popped queue = true →
  visited_tasks st !! task_name popped ≠ Some (length queue).
Proof.
  unfold deferred. intros (q & _ & Hq)%existsb_exists.
  destruct (tks !! q); [|done].
  apply andb_true_iff in Hq as [_ Hq]. apply negb_true_iff in Hq.
  by apply bool_decide_eq_false in Hq.
Qed.

Lemma step_decreases loops tks st :
  task_queue st ≠ [] → potential tks (step loops tks st) < potential tks st.
Proof.
  destruct st as [s queue visited]. unfold step, potential. simpl.
  destruct queue as [|i queue]; [done|]. intros _.
  assert (pending tks visited queue + length queue * length queue
          < pending tks visited (i :: queue) + length (i :: queue) * length (i :: queue))
    as Hshrink.
  { pose proof (pending_le tks visited queue). simpl. lia. }
  destruct (tks !! i) as [popped|] eqn:Hi; simpl; [|apply Hshrink].
  destruct (deferred _ _ popped queue) eqn:Hdef; simpl; [|apply Hshrink].
  apply deferred_waits in Hdef. simpl in Hdef.
  rewrite length_app. simpl. rewrite Nat.add_1_r.
  apply Nat.add_lt_mono_r. unfold pending.
  rewrite length_app. simpl. rewrite Nat.add_1_r. simpl. rewrite Nat.sub_0_r.
  rewrite filter_app, length_app.
  rewrite (filter_cons_True _ i queue); last first.
  { unfold waits, name_at. by rewrite Hi. }
  rewrite (filter_cons_False _ i []); last first.
  { unfold waits, name_at. rewrite Hi. simpl. rewrite lookup_insert_eq. by intros []. }
  rewrite filter_nil. simpl. rewrite Nat.add_0_r. apply Nat.lt_succ_r.
  apply filter_length_mono. intros j _. unfold waits.
  destruct (name_at tks j) as [n|]; simpl; [|done].
  destruct (decide (task_name popped = n)) as [->|Hne].
  - rewrite lookup_insert_eq. by intros [].
  - by rewrite lookup_insert_ne.
Qed.

Lemma potential_empty tks st : potential tks st = 0 → task_queue st = [].
Proof.
  unfold potential. destruct (task_queue st); [done|]. simpl. lia.
Qed.

Lemma run_terminates loops tks fuel st :
  potential tks st ≤ fuel → is_Some (run loops tks fuel st).
Proof.
  revert st. induction fuel as [|fuel IH]; intros st Hfuel.
  - simpl. rewrite (potential_empty tks st) by lia. by eexists.
  - simpl. destruct (task_queue st) eqn:Hq; [by eexists|].
    apply IH. pose proof (step_decreases loops tks st) as Hdec.
    rewrite Hq in Hdec. specialize (Hdec ltac:(done)). lia.
Qed.

(** More turns than needed change nothing. *)
Lemma run_more_fuel loops tks fuel fuel' st result :
  run loops tks fuel st = Some result → fuel ≤ fuel' → run loops tks fuel' st = Some result.
Proof.
  revert st fuel'. induction fuel as [|fuel IH]; intros st fuel' Hrun Hle.
  - destruct fuel'; simpl in *; destruct (task_queue st); done.
  - destruct fuel' as [|fuel']; [lia|]. simpl in *.
    destruct (task_queue st); [done|]. apply IH; [done|lia].
Qed.

Lemma initial_potential tks s :
  potential tks (initial_state tks s) ≤ enough (length (initial_queue tks)).
Proof.
  unfold potential, enough. simpl.
  pose proof (pending_le tks ∅ (initial_queue tks)). lia.
Qed.

(** C3: the search of the run-after tree returns for every task list, every
    set of loops and whatever lists the tasks hold or share, cycles and any
    order of the tasks included: [enough] turns, a number fixed by the
    length of the queue, empty the queue, and a larger number of turns gives
    the same lists. *)
Theorem propagation_terminates (loops : list pipeline_loop) (tks : list task) (s : store) :
  ∃ result, propagate loops tks s = Some result
            ∧ ∀ fuel, enough (length (initial_queue tks)) ≤ fuel →
                      run loops tks fuel (initial_state tks s) = Some result.
Proof.
  destruct (run_terminates loops tks (enough (length (initial_queue tks)))
              (initial_state tks s)) as [result Hrun]; [apply initial_potential|].
  exists result. split; [exact Hrun|]. intros fuel Hfuel. by eapply run_more_fuel.
Qed.

(** Three tasks that run after one another in a circle; the first and the
    last hold one list. *)
Definition circle : list task := [Task "a" ["b"] 0; Task "b" ["c"] 1; Task "c" ["a"] 0].

Definition circle_whens : store :=
  {[ 0 := [When "$(tasks.c1.results.outcome)" "in" ["true"]];
     1 := [When "$(tasks.c2.results.outcome)" "in" ["true"]] ]}.

Lemma propagation_terminates_witness :
  ∃ result, propagate [] circle circle_whens = Some result
            ∧ ∀ fuel, enough (length (initial_queue circle)) ≤ fuel →
                      run [] circle fuel (initial_state circle circle_whens) = Some result.
Proof. exact (propagation_terminates [] circle circle_whens). Defined.

End AssemblerFacts.

(** ** What the propagation computes *)

Module PropagationFacts.
Import Assembler AssemblerFacts.

(** *** One copy, one task *)

Lemma elem_of_copy_when loops name item task_when t_when :
  item ∈ copy_when loops name task_when t_when
  ↔ item ∈ task_when ∨ (item ∈ t_when ∧ add_conditions loops name item = true).
Proof.
  unfold copy_when. revert task_when.
  induction t_when as [|x l IH]; intros acc; simpl; [set_solver|].
  rewrite IH, elem_of_cons. case_bool_decide as Hin.
  - naive_solver.
  - destruct (add_conditions loops name x) eqn:Hadd.
    + rewrite elem_of_app, list_elem_of_singleton. naive_solver.
    + naive_solver congruence.
Qed.

Lemma copy_when_NoDup loops name task_when t_when :
  NoDup task_when → NoDup (copy_when loops name task_when t_when).
Proof.
  unfold copy_when. revert task_when.
  induction t_when as [|x l IH]; intros acc Hacc; simpl; [done|].
  apply IH. case_bool_decide as Hin; [done|].
  destruct (add_conditions loops name x); [|done].
  apply NoDup_app. split; [done|]. split; [|apply NoDup_singleton].
  intros y Hy ->%list_elem_of_singleton. done.
Qed.

Lemma copy_when_prefix loops name task_when t_when :
  task_when `prefix_of` copy_when loops name task_when t_when.
Proof.
  unfold copy_when. revert task_when.
  induction t_when as [|x l IH]; intros acc; simpl; [done|].
  etrans; [|apply IH]. case_bool_decide; [done|].
  destruct (add_conditions loops name x); [|done]. by apply prefix_app_r.
Qed.

(** What [copy_from] leaves in a list [c]: the list of [this] after the
    copy, any other list as it was. *)
Lemma copy_from_lookup loops this s t c :
  copy_from loops this s t !!! c
  = if bool_decide (c = when this ∧ task_name t ∈ runAfter this)
    then copy_when loops (task_name this) (when_of s this) (when_of s t)
    else s !!! c.
Proof.
  unfold copy_from. case_bool_decide as Hafter; last first.
  { rewrite bool_decide_eq_false_2; [done|]. by intros [_ ?]. }
  destruct (when_of s t) as [|x l] eqn:Ht.
  - case_bool_decide as Hc; [|done]. destruct Hc as [-> _]. done.
  - case_bool_decide as Hc.
    + destruct Hc as [-> _]. by rewrite lookup_total_insert_eq.
    + rewrite lookup_total_insert_ne; [done|]. intros Hc'. apply Hc. by split.
Qed.

Lemma copy_from_prefix loops this s t c : s !!! c `prefix_of` copy_from loops this s t !!! c.
Proof.
  rewrite copy_from_lookup. case_bool_decide as Hc; [|done].
  destruct Hc as [-> _]. apply copy_when_prefix.
Qed.

Lemma fold_copy_from_prefix loops this tks s c :
  s !!! c `prefix_of` foldl (copy_from loops this) s tks !!! c.
Proof.
  revert s. induction tks as [|t tks IH]; intros s; simpl; [done|].
  etrans; [apply copy_from_prefix|apply IH].
Qed.

Lemma populate_prefix loops tks this s c :
  s !!! c `prefix_of` populate_runafter_condition loops tks this s !!! c.
Proof.
  unfold populate_runafter_condition. destruct (runAfter this); [done|].
  apply fold_copy_from_prefix.
Qed.

(** A list that [this] does not hold is left alone, and so is every list
    when [this] runs after nothing. *)
Lemma populate_other loops tks this s c :
  c ≠ when this ∨ runAfter this = [] →
  populate_runafter_condition loops tks this s !!! c = s !!! c.
Proof.
  unfold populate_runafter_condition. intros Hc.
  destruct (runAfter this) eqn:Hra; [done|].
  destruct Hc as [Hc|Hc]; [|done]. clear Hra.
  revert s. induction tks as [|t tks IH]; intros s; simpl; [done|].
  rewrite IH, copy_from_lookup. rewrite bool_decide_eq_false_2; [done|]. by intros [? _].
Qed.

(** After [populate_runafter_condition(this)] the list of [this] holds
    every predicate that a task it runs after held and that its loops let
    in. *)
Lemma populate_copies loops tks this s u item :
  u ∈ tks → task_name u ∈ runAfter this → item ∈ when_of s u →
  add_conditions loops (task_name this) item = true →
  item ∈ when_of (populate_runafter_condition loops tks this s) this.
Proof.
  intros Hu Hafter Hitem Hadd. unfold populate_runafter_condition.
  destruct (runAfter this) eqn:Hra; [by apply elem_of_nil in Hafter|].
  rewrite <-Hra in Hafter. clear Hra.
  revert s Hitem. induction Hu as [u tks|u t tks Hu IH]; intros s Hitem; simpl.
  - eapply elem_of_prefix; [|apply fold_copy_from_prefix].
    rewrite copy_from_lookup, bool_decide_eq_true_2 by done.
    apply elem_of_copy_when. by right.
  - apply IH; [done|]. eapply elem_of_prefix; [exact Hitem|apply copy_from_prefix].
Qed.

(** What every [copy_from] keeps, [populate_runafter_condition] keeps. *)
Lemma populate_keeps (P : store → Prop) loops tks this s :
  (∀ s' t, P s' → t ∈ tks → P (copy_from loops this s' t)) →
  P s → P (populate_runafter_condition loops tks this s).
Proof.
  intros Hstep. unfold populate_runafter_condition. destruct (runAfter this); [done|].
  assert (∀ ts s', (∀ t, t ∈ ts → t ∈ tks) → P s' → P (foldl (copy_from loops this) s' ts))
    as Hfold.
  { intros ts. induction ts as [|t ts IH]; intros s' Hts Hs'; simpl; [done|].
    apply IH; [intros t' Ht'; apply Hts; by right|]. apply Hstep; [done|]. apply Hts. by left. }
  by apply Hfold.
Qed.

(** What every [populate_runafter_condition] of a task of the list keeps,
    the loop keeps. *)
Lemma run_keeps (P : store → Prop) loops tks fuel st result :
  (∀ s this, P s → this ∈ tks → P (populate_runafter_condition loops tks this s)) →
  P (whens st) → run loops tks fuel st = Some result → P result.
Proof.
  intros Hstep. revert st. induction fuel as [|fuel IH]; intros st Hst Hrun; simpl in Hrun.
  - destruct (task_queue st); [|done]. by injection Hrun as <-.
  - destruct (task_queue st) as [|i queue] eqn:Hqueue; [by injection Hrun as <-|].
    apply (IH (step loops tks st)); [|done]. unfold step. rewrite Hqueue.
    destruct (tks !! i) as [popped|] eqn:Hi; [|done].
    destruct (deferred tks st popped queue); [done|]. simpl.
    apply Hstep; [done|]. by eapply list_elem_of_lookup_2.
Qed.

(** The queue at the start holds the tasks with a run-after edge, once
    each. *)
Lemma initial_queue_from k (tks : list task) :
  let queue := omap (λ jt : nat * task, match runAfter jt.2 with
                                        | [] => None
                                        | _ => Some jt.1
                                        end) (imap (λ j u, (k + j, u)) tks) in
  NoDup queue ∧ ∀ i, i ∈ queue → k ≤ i.
Proof.
  revert k. induction tks as [|u tks IH]; intros k; simpl.
  - split; [constructor|]. by intros i ?%elem_of_nil.
  - rewrite (imap_ext _ (λ j u, (S k + j, u))); last first.
    { intros j x _. simpl. f_equal. lia. }
    destruct (IH (S k)) as [Hnodup Hge]. destruct (runAfter u); simpl.
    + split; [done|]. intros i Hi%Hge. lia.
    + split.
      * apply NoDup_cons. split; [|done]. intros Hk%Hge. lia.
      * intros i [->|Hi%Hge]%elem_of_cons; lia.
Qed.

Lemma initial_queue_NoDup tks : NoDup (initial_queue tks).
Proof. apply (initial_queue_from 0 tks). Qed.

Lemma elem_of_initial_queue tks i :
  i ∈ initial_queue tks ↔ ∃ t, tks !! i = Some t ∧ runAfter t ≠ [].
Proof.
  unfold initial_queue. rewrite list_elem_of_omap. split.
  - intros ([j t] & (j' & t' & [= -> ->] & Hj)%elem_of_lookup_imap & Hsome). simpl in *.
    exists t'. destruct (runAfter t'); [done|]. by injection Hsome as <-.
  - intros (t & Hi & Hra). exists (i, t). split.
    + apply elem_of_lookup_imap. by exists i, t.
    + simpl. by destruct (runAfter t).
Qed.

Lemma deferred_true tks st popped queue :
  deferred tks st popped queue = true
  ↔ (∃ q queued, q ∈ queue ∧ tks !! q = Some queued
                 ∧ task_name queued ∈ runAfter popped)
    ∧ visited_tasks st !! task_name popped ≠ Some (length queue).
Proof.
  unfold deferred. rewrite existsb_exists. split.
  - intros (q & Hq%list_elem_of_In & Htest).
    destruct (tks !! q) as [queued|] eqn:Hqueued; [|done].
    apply andb_true_iff in Htest as [Hafter%bool_decide_eq_true Hvisited%negb_true_iff].
    apply bool_decide_eq_false in Hvisited. split; [|done]. by exists q, queued.
  - intros [(q & queued & Hq & Hqueued & Hafter) Hvisited].
    exists q. split; [by apply list_elem_of_In|]. rewrite Hqueued.
    apply andb_true_iff. split; [by apply bool_decide_eq_true|].
    apply negb_true_iff. by apply bool_decide_eq_false.
Qed.

(** *** Where a predicate may come from *)

(** A predicate reaches a task when the task has it in its list at the
    start, or when it reaches a task that the task runs after and the loops
    of the task let it in: every task on the way has to let it in. *)
Inductive reaches (loops : list pipeline_loop) (tks : list task) (s : store)
    : task → when_item → Prop :=
| reaches_own t item : item ∈ when_of s t → reaches loops tks s t item
| reaches_after t u item :
    u ∈ tks → task_name u ∈ runAfter t → reaches loops tks s u item →
    add_conditions loops (task_name t) item = true → reaches loops tks s t item.

(** A predicate may come into a list when the list has it at the start, or
    when one of the tasks that hold the list runs after a task into whose
    list the predicate may come, and the loops of the holder let it in.  A
    list that several tasks hold takes what each of them takes. *)
Inductive comes_into (loops : list pipeline_loop) (tks : list task) (s : store)
    : nat → when_item → Prop :=
| comes_own c item : item ∈ s !!! c → comes_into loops tks s c item
| comes_after c t u item :
    t ∈ tks → when t = c → u ∈ tks → task_name u ∈ runAfter t →
    comes_into loops tks s (when u) item →
    add_conditions loops (task_name t) item = true → comes_into loops tks s c item.

(** A list is shared when two tasks of the list hold it. *)
Definition unshared (tks : list task) : Prop := NoDup (when <$> tks).

Lemma unshared_holder tks t t' : unshared tks → t ∈ tks → t' ∈ tks → when t = when t' → t = t'.
Proof.
  unfold unshared. intros Hnodup [i Hi]%list_elem_of_lookup_1 [j Hj]%list_elem_of_lookup_1 Hwhen.
  assert (i = j) as ->; [|congruence].
  apply (NoDup_lookup _ i j (when t) Hnodup).
  - by rewrite list_lookup_fmap, Hi.
  - by rewrite list_lookup_fmap, Hj, Hwhen.
Qed.

Lemma reaches_comes_into loops tks s t item :
  reaches loops tks s t item → t ∈ tks → comes_into loops tks s (when t) item.
Proof.
  induction 1 as [t item Hown|t u item Hu Hafter _ IH Hadd]; intros Ht.
  - by apply comes_own.
  - eapply comes_after; [exact Ht|done|exact Hu|done|by apply IH|done].
Qed.

Lemma comes_into_reaches loops tks s c item :
  unshared tks → comes_into loops tks s c item →
  ∀ t, t ∈ tks → when t = c → reaches loops tks s t item.
Proof.
  intros Hunshared. induction 1 as [c item Hown|c t' u item Ht' Hc Hu Hafter _ IH Hadd];
    intros t Ht Hwhen.
  - apply reaches_own. unfold when_of. by rewrite Hwhen.
  - assert (t' = t) as -> by (eapply unshared_holder; [done..|congruence]).
    eapply reaches_after; [exact Hu|done|by apply IH|done].
Qed.

(** A predicate that may come into a list that a task holds was in the list
    of some task at the start. *)
Lemma comes_into_origin loops tks s c item :
  comes_into loops tks s c item →
  (∃ t, t ∈ tks ∧ when t = c) → ∃ u, u ∈ tks ∧ item ∈ when_of s u.
Proof.
  induction 1 as [c item Hown|c t u item Ht Hc Hu Hafter _ IH Hadd].
  - intros (t & Ht & <-). by exists t.
  - intros _. apply IH. by exists u.
Qed.

(** *** What holds of the lists on any task list *)

Section AnyTasks.
Variable loops : list pipeline_loop.
Variable tks : list task.
Variable s0 : store.

(** What the loop keeps of the lists [s0] it started from, whatever the
    run-after edges. *)
Record kept (s : store) : Prop := Kept {
  kept_prefix : ∀ c, s0 !!! c `prefix_of` s !!! c;
  kept_nodup : ∀ c, NoDup (s0 !!! c) → NoDup (s !!! c);
  kept_frame : ∀ c, (∀ t, t ∈ tks → when t = c → runAfter t = []) → s !!! c = s0 !!! c;
  kept_origin : ∀ c item, item ∈ s !!! c → comes_into loops tks s0 c item
}.

Lemma kept_initial : kept s0.
Proof. split; [done|done|done|]. intros c item Hitem. by apply comes_own. Qed.

Lemma kept_copy_from this s t : kept s → this ∈ tks → t ∈ tks → kept (copy_from loops this s t).
Proof.
  intros [Hprefix Hnodup Hframe Horigin] Hthis Ht. split.
  - intros c. etrans; [apply Hprefix|apply copy_from_prefix].
  - intros c Hc. rewrite copy_from_lookup. case_bool_decide as Hcase; [|by apply Hnodup].
    destruct Hcase as [-> _]. apply copy_when_NoDup. by apply Hnodup.
  - intros c Hc. rewrite copy_from_lookup. case_bool_decide as Hcase; [|by apply Hframe].
    destruct Hcase as [-> Hafter]. rewrite (Hc this Hthis eq_refl) in Hafter.
    by apply elem_of_nil in Hafter.
  - intros c item. rewrite copy_from_lookup. case_bool_decide as Hcase; [|apply Horigin].
    destruct Hcase as [-> Hafter].
    intros [Hown|[Hitem Hadd]]%elem_of_copy_when; [by apply Horigin|].
    eapply comes_after; [exact Hthis|done|exact Ht|done|by apply Horigin|done].
Qed.

Lemma kept_populate this s :
  kept s → this ∈ tks → kept (populate_runafter_condition loops tks this s).
Proof.
  intros Hkept Hthis. apply populate_keeps; [|done].
  intros s' t Hs' Ht. by apply kept_copy_from.
Qed.

Lemma kept_propagate :
  ∃ result, propagate loops tks s0 = Some result ∧ kept result.
Proof.
  destruct (run_terminates loops tks (enough (length (initial_queue tks)))
              (initial_state tks s0)) as [result Hrun]; [apply initial_potential|].
  exists result. split; [exact Hrun|].
  eapply (run_keeps kept loops tks _ (initial_state tks s0)); [|apply kept_initial|exact Hrun].
  intros s this Hs Hthis. by apply kept_populate.
Qed.

End AnyTasks.

(** *** What holds when the run-after edges form no circle *)

Section Dag.
Variable loops : list pipeline_loop.
Variable ts0 : list task.
Variable s0 : store.
Variable rank : string → nat.
Hypothesis names_distinct : NoDup (task_name <$> ts0).
Hypothesis acyclic :
  ∀ t u, t ∈ ts0 → u ∈ ts0 → task_name u ∈ runAfter t →
         rank (task_name u) < rank (task_name t).

(** The task at index [j] is one that [t] runs after. *)
Definition upstream (t : task) (j : nat) : Prop :=
  ∃ u, ts0 !! j = Some u ∧ task_name u ∈ runAfter t.

Lemma same_name i j t u :
  ts0 !! i = Some t → ts0 !! j = Some u → task_name t = task_name u → i = j.
Proof.
  intros Hi Hj Hname. apply (NoDup_lookup _ i j (task_name t) names_distinct).
  - by rewrite list_lookup_fmap, Hi.
  - by rewrite list_lookup_fmap, Hj, Hname.
Qed.

Lemma not_after_itself i t : ts0 !! i = Some t → task_name t ∉ runAfter t.
Proof.
  intros Hi%list_elem_of_lookup_2 Hin. pose proof (acyclic t t Hi Hi Hin). lia.
Qed.

(** In a queue where every task waits for a queued one, the run-after
    edges go round. *)
Lemma no_round queue :
  (∀ i, i ∈ queue → ∃ t, ts0 !! i = Some t ∧ ∃ j, j ∈ queue ∧ upstream t j) →
  queue = [].
Proof.
  intros Hall.
  assert (∀ n i t, i ∈ queue → ts0 !! i = Some t → rank (task_name t) < n → False) as Hrank.
  { induction n as [|n IH]; intros i t Hi Ht Hn; [lia|].
    destruct (Hall i Hi) as (t' & Ht' & j & Hj & u & Hu & Hafter).
    rewrite Ht in Ht'. injection Ht' as <-.
    apply (IH j u Hj Hu).
    pose proof (acyclic t u (list_elem_of_lookup_2 _ _ _ Ht)
                  (list_elem_of_lookup_2 _ _ _ Hu) Hafter). lia. }
  destruct queue as [|i queue]; [done|].
  destruct (Hall i) as (t & Ht & _); [by left|].
  destruct (Hrank (S (rank (task_name t))) i t); [by left|done|lia].
Qed.

(** What holds of every state of the loop: a task that has left the queue
    waits for no queued task, and its list holds every predicate that
    reaches it. *)
Record inv (st : state) : Prop := Inv {
  inv_nodup : NoDup (task_queue st);
  inv_queued : ∀ i, i ∈ task_queue st → is_Some (ts0 !! i);
  inv_grown : ∀ c, s0 !!! c `prefix_of` whens st !!! c;
  inv_done :
    ∀ i t, i ∉ task_queue st → ts0 !! i = Some t →
           (∀ item, reaches loops ts0 s0 t item → item ∈ when_of (whens st) t)
           ∧ ∀ j, j ∈ task_queue st → ¬ upstream t j;
  inv_bound :
    ∀ name v, visited_tasks st !! name = Some v → length (task_queue st) - 1 ≤ v;
  inv_round :
    ∀ k i t0, task_queue st !! k = Some i → ts0 !! i = Some t0 →
              visited_tasks st !! task_name t0 = Some (length (task_queue st) - 1) →
              ∀ k' i' t', k < k' → task_queue st !! k' = Some i' → ts0 !! i' = Some t' →
                          ∃ j, j ∈ task_queue st ∧ upstream t' j
}.

Lemma inv_initial : inv (initial_state ts0 s0).
Proof.
  split; simpl.
  - apply initial_queue_NoDup.
  - intros i (t & Hi & _)%elem_of_initial_queue. by eexists.
  - done.
  - intros i t Hi Ht.
    assert (runAfter t = []) as Hnone.
    { destruct (runAfter t) eqn:Hra; [done|]. destruct Hi.
      apply elem_of_initial_queue. exists t. by rewrite Hra. }
    split.
    + intros item Hreach. destruct Hreach as [t item Hown|t u item _ Hafter _ _]; [done|].
      rewrite Hnone in Hafter. by apply elem_of_nil in Hafter.
    + intros j _ (u & _ & Hu). rewrite Hnone in Hu. by apply elem_of_nil in Hu.
  - intros name v Hv. by rewrite lookup_empty in Hv.
  - intros k i t0 _ _ Hv. by rewrite lookup_empty in Hv.
Qed.

Lemma inv_step st : inv st → inv (step loops ts0 st).
Proof.
  destruct st as [s queue visited].
  intros [Hnodup Hqueued Hgrown Hdone Hbound Hround]. simpl in *.
  unfold step. simpl. destruct queue as [|i rest]; [by split|].
  destruct (Hqueued i) as [popped Hpopped]; [by left|].
  rewrite Hpopped.
  apply NoDup_cons in Hnodup as [Hi Hrest].
  destruct (deferred _ _ popped rest) eqn:Hdeferred.
  - (* the task goes back to the end of the queue *)
    apply deferred_true in Hdeferred
      as [(q & queued & Hq & Hqueued' & Hafter) Hvisited]. simpl in *.
    assert (upstream popped q) as Hup by by exists queued.
    split; simpl.
    + apply NoDup_app. split; [done|]. split; [|apply NoDup_singleton].
      intros x Hx ->%list_elem_of_singleton. done.
    + intros j Hj. apply Hqueued. set_solver.
    + done.
    + intros j t Hj Ht. destruct (Hdone j t) as [Hwhen Hnone]; [set_solver|done|].
      split; [done|]. intros j' Hj'. apply Hnone. set_solver.
    + intros name v. rewrite length_app. simpl. rewrite Nat.add_sub.
      destruct (decide (task_name popped = name)) as [<-|Hne].
      * rewrite lookup_insert_eq. intros [= <-]. done.
      * rewrite lookup_insert_ne by done. intros Hv%Hbound. simpl in Hv. lia.
    + intros k x t0 Hk Hx. rewrite length_app. simpl. rewrite Nat.add_sub.
      intros Hv k' x' t' Hlt Hk' Hx'.
      apply lookup_app_Some in Hk' as [Hk'|[Hlen Hk']].
      * (* a task of the rest: deferred since *)
        assert (rest !! k = Some x) as Hk_rest.
        { apply lookup_lt_Some in Hk'. rewrite lookup_app_l in Hk by lia. done. }
        assert (task_name popped ≠ task_name t0) as Hne.
        { intros Hname. assert (i = x) as -> by by eapply same_name.
          by apply list_elem_of_lookup_2 in Hk_rest. }
        rewrite lookup_insert_ne in Hv by done.
        destruct (Hround (S k) x t0) with (k' := S k') (i' := x') (t' := t')
          as (j & Hj & Hupj); simpl; [done|done|by rewrite Nat.sub_0_r|lia|done|done|].
        exists j. split; [set_solver|done].
      * (* the task just put back *)
        apply list_lookup_singleton_Some in Hk' as [_ <-].
        rewrite Hpopped in Hx'. injection Hx' as <-.
        exists q. split; [set_solver|done].
  - (* the task is populated *)
    assert (∀ j, j ∈ i :: rest → ¬ upstream popped j) as Hfree.
    { assert (∀ j, j ∈ rest → ¬ upstream popped j) as Hfree_rest.
      { destruct (decide (visited !! task_name popped = Some (length rest)))
          as [Hv|Hv]; last first.
        { intros j Hj (u & Hu & Hafter).
          assert (deferred ts0 (State s (i :: rest) visited) popped rest = true) as Hyes.
          { apply deferred_true. split; [|done]. by exists j, u. }
          congruence. }
        intros j Hj Hupj.
        assert (i :: rest = []) as Hempty; [|done].
        apply no_round. intros x Hx.
        destruct (Hqueued x Hx) as [t Ht]. exists t. split; [done|].
        apply elem_of_cons in Hx as [->|Hx].
        - rewrite Hpopped in Ht. injection Ht as <-. exists j. split; [by right|done].
        - apply list_elem_of_lookup_1 in Hx as [k Hk].
          apply (Hround 0 i popped) with (k' := S k) (i' := x); simpl;
            [done|done|by rewrite Nat.sub_0_r|lia|done|done]. }
      intros j [->|Hj]%elem_of_cons; [|by apply Hfree_rest].
      intros (u & Hu & Hafter). rewrite Hpopped in Hu. injection Hu as <-.
      by eapply not_after_itself. }
    split; simpl.
    + done.
    + intros j Hj. apply Hqueued. by right.
    + intros c. etrans; [apply Hgrown|apply populate_prefix].
    + intros j t Hj Ht. destruct (decide (j = i)) as [->|Hne].
      * rewrite Hpopped in Ht. injection Ht as <-. split; [|intros j Hj'; apply Hfree; by right].
        intros item Hreach.
        destruct Hreach as [t item Hown|t u item Hu Hafter Hreach Hadd].
        -- eapply elem_of_prefix; [exact Hown|].
           etrans; [apply Hgrown|apply populate_prefix].
        -- apply populate_copies with u; [done..| |done].
           apply list_elem_of_lookup_1 in Hu as [ju Hju].
           destruct (Hdone ju u) as [Hwhen _]; [|done|by apply Hwhen].
           intros Hin. apply (Hfree ju Hin). by exists u.
      * destruct (Hdone j t) as [Hwhen Hnone]; [set_solver|done|].
        split; [|intros j' Hj'; apply Hnone; by right].
        intros item Hreach. eapply elem_of_prefix; [by apply Hwhen|apply populate_prefix].
    + intros name v Hv%Hbound. simpl in Hv. lia.
    + intros k x t0 Hk Hx Hv. apply Hbound in Hv. simpl in Hv.
      apply lookup_lt_Some in Hk. lia.
Qed.

(** The invariant at the end of the loop. *)
Lemma run_inv fuel st result :
  inv st → run loops ts0 fuel st = Some result →
  ∃ st', inv st' ∧ task_queue st' = [] ∧ whens st' = result.
Proof.
  revert st. induction fuel as [|fuel IH]; intros st Hinv Hrun; simpl in Hrun.
  - destruct (task_queue st) eqn:Hqueue; [|done]. injection Hrun as <-. by exists st.
  - destruct (task_queue st) eqn:Hqueue.
    + injection Hrun as <-. by exists st.
    + apply (IH (step loops ts0 st)); [by apply inv_step|done].
Qed.

(** At the end the list of a task holds every predicate that reaches the
    task. *)
Lemma reaches_final result t item :
  propagate loops ts0 s0 = Some result → t ∈ ts0 → reaches loops ts0 s0 t item →
  item ∈ when_of result t.
Proof.
  intros Hrun [i Hi]%list_elem_of_lookup_1 Hreach.
  destruct (run_inv _ _ result inv_initial Hrun) as (st & Hinv & Hqueue & <-).
  destruct (inv_done st Hinv i t) as [Hwhen _]; [|done|by apply Hwhen].
  rewrite Hqueue. apply not_elem_of_nil.
Qed.

End Dag.

(** A task [A] that runs after [B], which runs after [C]; the predicate of
    [C] reads the result of [cond].  [A], [C] and [cond] are the tasks of
    one loop, [B] is the task of another.  Each task has a list of its
    own. *)
Definition outcome_of_cond : when_item := When "$(tasks.cond.results.outcome)" "in" ["true"].

Definition two_scopes : list pipeline_loop := [Loop ["A"; "cond"; "C"]; Loop ["B"]].



(** Two tasks [first] and [second] of one condition, which hold the one
    list of the condition; [second] runs after [other], a task of another
    condition, and [last] runs after [first]. *)
Definition on_parameter : when_item := When "$(params.deploy)" "in" ["yes"].





(** Three tasks in a row, the second in a loop of its own, with a
    predicate on a parameter and one on the result of a task. *)
Definition in_a_row : list task := [Task "A" ["B"] 0; Task "B" ["C"] 1; Task "C" [] 2].

Definition in_a_row_whens : store :=
  {[ 1 := [on_parameter]; 2 := [outcome_of_cond; on_parameter] ]}.

Definition row_rank (name : string) : nat :=
  if bool_decide (name = "A") then 2 else if bool_decide (name = "B") then 1 else 0.

Lemma row_is_acyclic (tks : list task) :
  Forall (λ t, Forall (λ u, task_name u ∈ runAfter t →
                            row_rank (task_name u) < row_rank (task_name t)) tks) tks →
  ∀ t u, t ∈ tks → u ∈ tks → task_name u ∈ runAfter t →
         row_rank (task_name u) < row_rank (task_name t).
Proof.
  intros Hall t u Ht Hu. rewrite Forall_forall in Hall. specialize (Hall t Ht).
  rewrite Forall_forall in Hall. by apply Hall.
Qed.


(** In the row the predicate on the parameter goes down to [A], the other
    stops before [B]. *)
Example in_a_row_propagated :
  (λ result, (result !!! 0, result !!! 1, result !!! 2))
    <$> propagate two_scopes in_a_row in_a_row_whens
  = Some ([on_parameter], [on_parameter], [outcome_of_cond; on_parameter]).
Proof. by vm_compute. Qed.

(** *** The propagation on any task list *)

(** X1: the propagation changes a list only through a task that has
    run-after edges: on any task list and with any loops it returns, and a
    list held by no task with a run-after edge is at the end what it was at
    the start. *)
Theorem propagation_frame (loops : list pipeline_loop) (tks : list task) (s : store) :
  ∃ result,
    propagate loops tks s = Some result
    ∧ ∀ c, (∀ t, t ∈ tks → when t = c → runAfter t = []) → result !!! c = s !!! c.
Proof.
  destruct (kept_propagate loops tks s) as (result & Hrun & Hkept).
  exists result. split; [done|]. apply (kept_frame _ _ _ _ Hkept).
Qed.

(** X2: The propagation never drops, reorders or invents a predicate: on any
    task list, cycles and shared lists included, the predicates a task had
    come first in its list at the end, in their order, and every predicate
    of a task at the end was a predicate of some task of the list at the
    start. *)
Theorem propagation_only_copies (loops : list pipeline_loop) (tks : list task) (s : store) :
  ∃ result,
    propagate loops tks s = Some result
    ∧ ∀ t, t ∈ tks →
           when_of s t `prefix_of` when_of result t
           ∧ ∀ item, item ∈ when_of result t → ∃ u, u ∈ tks ∧ item ∈ when_of s u.
Proof.
  destruct (kept_propagate loops tks s) as (result & Hrun & Hkept).
  exists result. split; [done|]. intros t Ht.
  split; [apply (kept_prefix _ _ _ _ Hkept)|].
  intros item Hitem. apply (comes_into_origin loops tks s (when t)).
  - by apply (kept_origin _ _ _ _ Hkept).
  - by exists t.
Qed.

(** [u] is reached from [t] by run-after edges among the tasks [tks]. *)
Inductive runs_after (tks : list task) : task → task → Prop :=
| runs_after_here t : runs_after tks t t
| runs_after_step t u v :
    u ∈ tks → task_name u ∈ runAfter t → runs_after tks u v → runs_after tks t v.

Lemma reaches_without_loops tks s t item :
  reaches [] tks s t item ↔ ∃ u, runs_after tks t u ∧ item ∈ when_of s u.
Proof.
  split.
  - induction 1 as [t item Hown|t u item Hu Hafter _ (v & Hv & Hitem) _].
    + exists t. split; [constructor|done].
    + exists v. split; [by eapply runs_after_step|done].
  - intros (u & Hrun & Hitem). induction Hrun as [t|t u v Hu Hafter _ IH].
    + by apply reaches_own.
    + eapply reaches_after; [done|done|by apply IH|done].
Qed.

(** X3: Without loops, on tasks of distinct names whose run-after edges form
    no circle and of which no two hold one list, the predicates of a task at
    the end are exactly the predicates that the tasks reached from it by
    run-after edges (itself included) had at the start. *)
Theorem propagation_without_loops (tks : list task) (s : store) (rank : string → nat) :
  NoDup (task_name <$> tks) →
  (∀ t u, t ∈ tks → u ∈ tks → task_name u ∈ runAfter t →
          rank (task_name u) < rank (task_name t)) →
  unshared tks →
  ∃ result,
    propagate [] tks s = Some result
    ∧ ∀ t, t ∈ tks →
           ∀ item, item ∈ when_of result t ↔ ∃ u, runs_after tks t u ∧ item ∈ when_of s u.
Proof.
  intros Hnames Hrank Hunshared.
  destruct (kept_propagate [] tks s) as (result & Hrun & Hkept).
  exists result. split; [exact Hrun|]. intros t Ht item.
  rewrite <-reaches_without_loops. split.
  - intros Hitem. eapply comes_into_reaches; [done| |done..].
    by apply (kept_origin _ _ _ _ Hkept).
  - intros Hreach. by eapply (reaches_final [] tks s rank).
Qed.

Definition plain_row_whens : store := {[ 1 := [on_parameter]; 2 := [outcome_of_cond] ]}.

Lemma propagation_without_loops_witness :
  ∃ result,
    propagate [] in_a_row plain_row_whens = Some result
    ∧ ∀ t, t ∈ in_a_row →
           ∀ item, item ∈ when_of result t
                   ↔ ∃ u, runs_after in_a_row t u ∧ item ∈ when_of plain_row_whens u.
Proof.
  apply (propagation_without_loops in_a_row plain_row_whens row_rank).
  - apply (bool_decide_unpack _). vm_compute. exact I.
  - apply row_is_acyclic. apply (bool_decide_unpack _). vm_compute. exact I.
  - apply (bool_decide_unpack _). vm_compute. exact I.
Defined.

End PropagationFacts.

(** ** Dictionaries *)

Module PyDictFacts.
Import PyDict.

Lemma get_set_eq {A} k (v : A) d : get k (set k v d) = Some v.
Proof.
  induction d as [|[k' v'] d IH]; simpl.
  - by rewrite bool_decide_eq_true_2.
  - case_bool_decide as Hk; simpl.
    + by rewrite bool_decide_eq_true_2.
    + by rewrite bool_decide_eq_false_2.
Qed.

Lemma get_set_ne {A} k k' (v : A) d : k ≠ k' → get k (set k' v d) = get k d.
Proof.
  intros Hne. induction d as [|[k0 v0] d IH]; simpl.
  - by rewrite bool_decide_eq_false_2.
  - case_bool_decide as Hk; simpl.
    + subst k0. by rewrite !bool_decide_eq_false_2.
    + by rewrite IH.
Qed.

Lemma get_remove_eq {A} k (d : list (string * A)) : get k (remove k d) = None.
Proof.
  unfold remove. induction d as [|[k' v'] d IH]; [done|].
  rewrite filter_cons. simpl. destruct (decide (k' ≠ k)) as [Hne|Heq]; [|done].
  simpl. by rewrite bool_decide_eq_false_2.
Qed.

Lemma get_remove_ne {A} k k' (d : list (string * A)) :
  k ≠ k' → get k (remove k' d) = get k d.
Proof.
  intros Hne. unfold remove. induction d as [|[k0 v0] d IH]; [done|].
  rewrite filter_cons. simpl. destruct (decide (k0 ≠ k')) as [Hk|Hk]; simpl.
  - by rewrite IH.
  - apply dec_stable in Hk. subst k0. by rewrite bool_decide_eq_false_2.
Qed.

Lemma mem_get {A} k (d : list (string * A)) : mem k d = true ↔ is_Some (get k d).
Proof.
  unfold mem. rewrite bool_decide_eq_true.
  induction d as [|[k' v'] d IH]; simpl.
  - split; [by intros ?%elem_of_nil|by intros [? ?]].
  - rewrite elem_of_cons. simpl. case_bool_decide; [naive_solver|].
    rewrite <-IH. naive_solver.
Qed.

Lemma mem_get_false {A} k (d : list (string * A)) : mem k d = false ↔ get k d = None.
Proof.
  rewrite <-not_true_iff_false, mem_get, <-eq_None_not_Some. done.
Qed.

End PyDictFacts.

(** ** The inliner *)

Module InlinerFacts.
Import PyDict Doc Inliner PyDictFacts Deps.

(** The auxiliary document [cr] bears the name [n], or another one. *)
Definition named (cr : dict) (n : pyval) : Prop :=
  ∃ v, cr_name cr = Ok v ∧ py_eq v n = true.
Definition named_otherwise (cr : dict) (n : pyval) : Prop :=
  ∃ v, cr_name cr = Ok v ∧ py_eq v n = false.

(** The inline specification that stands for the auxiliary document at
    index [i]. *)
Definition inlined_spec (apiVersion kind : pyval) (i : nat) : pyval :=
  PDict [("apiVersion", apiVersion); ("kind", kind); ("spec", PSpecOf i)].

#[local] Arguments inline_cr : simpl never.
#[local] Arguments inline_task : simpl never.
#[local] Arguments inline_in_cr : simpl never.

Lemma inline_cr_inv av kd n task e0 icr t1 e1 :
  inline_cr av kd n (task, e0) icr = Ok (t1, e1) →
  (named_otherwise icr.2 n ∧ t1 = task ∧ e1 = e0)
  ∨ (named icr.2 n ∧ is_Some (get "spec" icr.2) ∧ is_Some (get "taskRef" task)
     ∧ t1 = remove "taskRef" (set "taskSpec" (inlined_spec av kd icr.1) task)
     ∧ e1 = e0 ++ [n]).
Proof.
  unfold inline_cr. destruct (cr_name icr.2) as [v|] eqn:Hname; simpl; [|done].
  destruct (py_eq v n) eqn:Heq.
  - unfold getitem. destruct (get "spec" icr.2) as [spec|] eqn:Hspec; simpl; [|done].
    destruct (mem "taskRef" _) eqn:Hmem; [|done]. intros [= <- <-]. right.
    apply mem_get in Hmem. rewrite get_set_ne in Hmem by done.
    split; [by exists v|]. by repeat split.
  - intros [= <- <-]. left. split; [by exists v|done].
Qed.

Lemma inline_cr_no_ref av kd n icrs task e0 task' e' :
  get "taskRef" task = None →
  fold_result (inline_cr av kd n) (task, e0) icrs = Ok (task', e') →
  Forall (λ icr, named_otherwise icr.2 n) icrs ∧ task' = task ∧ e' = e0.
Proof.
  intros Hno. induction icrs as [|icr icrs IH]; simpl.
  - by intros [= <- <-].
  - destruct (inline_cr av kd n (task, e0) icr) as [[t1 e1]|] eqn:H1; simpl; [|done].
    apply inline_cr_inv in H1 as [(Hother & -> & ->)|(_ & _ & [? Href] & _)].
    + intros [Hrest Heq]%IH. split; [by constructor|done].
    + by rewrite Hno in Href.
Qed.

Lemma inline_cr_fold av kd n icrs task e0 task' e' :
  fold_result (inline_cr av kd n) (task, e0) icrs = Ok (task', e') →
  (Forall (λ icr, named_otherwise icr.2 n) icrs ∧ task' = task ∧ e' = e0)
  ∨ (∃ icr, icr ∈ icrs ∧ named icr.2 n ∧ is_Some (get "spec" icr.2)
            ∧ task' = remove "taskRef" (set "taskSpec" (inlined_spec av kd icr.1) task)
            ∧ e' = e0 ++ [n]).
Proof.
  induction icrs as [|icr icrs IH]; simpl.
  - intros [= <- <-]. by left.
  - destruct (inline_cr av kd n (task, e0) icr) as [[t1 e1]|] eqn:H1; simpl; [|done].
    apply inline_cr_inv in H1 as [(Hother & -> & ->)|(Hnamed & Hspec & _ & -> & ->)].
    + intros [(Hrest & -> & ->)|(icr' & Hin & H)]%IH.
      * left. split; [by constructor|done].
      * right. exists icr'. split; [by right|done].
    + intros (_ & -> & ->)%inline_cr_no_ref; [|apply get_remove_eq].
      right. exists icr. split; [by left|done].
Qed.

(** What [inline_ref] does to a task that refers to [n] by name. *)
Lemma inline_ref_spec crs recursive task task' e ref n :
  inline_ref crs recursive task = Ok (task', e) →
  get "taskRef" task = Some (PDict ref) → get "name" ref = Some n →
  (py_in n recursive = false
   ∧ ∃ i cr av kd, crs !! i = Some cr ∧ named cr n
       ∧ get "apiVersion" ref = Some av ∧ get "kind" ref = Some kd
       ∧ task' = remove "taskRef" (set "taskSpec" (inlined_spec av kd i) task)
       ∧ e = [n])
  ∨ ((py_in n recursive = true ∨ Forall (λ cr, named_otherwise cr n) crs)
     ∧ task' = task ∧ e = []).
Proof.
  unfold inline_ref. intros Hrun Href Hname. rewrite Href in Hrun. simpl in Hrun.
  rewrite Hname in Hrun. destruct (py_in n recursive) eqn:Hrec.
  { injection Hrun as <- <-. right. split; [by left|done]. }
  unfold getitem in Hrun.
  destruct (get "apiVersion" ref) as [av|]; simpl in Hrun; [|done].
  destruct (get "kind" ref) as [kd|]; simpl in Hrun; [|done].
  apply inline_cr_fold in Hrun as [(Hall & -> & ->)|(icr & Hin & Hnamed & _ & -> & ->)].
  - right. split; [|done]. right. apply Forall_forall. intros cr Hcr.
    apply list_elem_of_lookup in Hcr as [i Hi].
    rewrite Forall_forall in Hall.
    apply (Hall (i, cr)). by apply (elem_of_lookup_imap_2 pair).
  - left. split; [done|].
    apply elem_of_lookup_imap_1 in Hin as (i & cr & -> & Hi).
    by exists i, cr, av, kd.
Qed.

Definition dict_of (v : pyval) : option dict :=
  match v with
  | PDict d => Some d
  | _ => None
  end.

(** The label of the cache in the inline specification of a task. *)
Definition cache_label (task : dict) : option pyval :=
  taskSpec ← get "taskSpec" task ≫= dict_of;
  metadata ← get "metadata" taskSpec ≫= dict_of;
  labels ← get "labels" metadata ≫= dict_of;
  get cache_enabled labels.

Lemma as_dict_ok v d : as_dict v = Ok d → v = PDict d.
Proof. destruct v; simpl; try done. by intros [= ->]. Qed.

Lemma cache_label_ext task task' :
  get "taskSpec" task' = get "taskSpec" task → cache_label task' = cache_label task.
Proof. unfold cache_label. by intros ->. Qed.

(** [label_cache] touches nothing but the metadata of the inline
    specification, where it leaves a label of the cache. *)
Lemma label_cache_spec pipeline_labels task task' :
  label_cache pipeline_labels task = Ok task' →
  (∀ k, k ≠ "taskSpec" → get k task' = get k task)
  ∧ (get "taskSpec" task = None → task' = task)
  ∧ (∀ ts, get "taskSpec" task = Some ts →
       ∃ tsd tsd', ts = PDict tsd ∧ get "taskSpec" task' = Some (PDict tsd')
         ∧ (∀ k, k ≠ "metadata" → get k tsd' = get k tsd)
         ∧ ∃ v, cache_label task' = Some v
                ∧ (cache_label task = None → get cache_enabled pipeline_labels = None →
                   v = PStr "true")).
Proof.
  unfold label_cache. destruct (get "taskSpec" task) as [ts|] eqn:Hts.
  2: { intros [= <-]. by repeat split. }
  destruct (as_dict ts) as [tsd|] eqn:Htsd; simpl; [|done].
  apply as_dict_ok in Htsd as ->.
  destruct (as_dict (get_default "metadata" (PDict []) tsd)) as [md|] eqn:Hmd; simpl; [|done].
  apply as_dict_ok in Hmd.
  destruct (as_dict (get_default "labels" (PDict []) md)) as [lbls|] eqn:Hlbls; simpl; [|done].
  apply as_dict_ok in Hlbls. intros [= <-].
  split; [intros k Hk; by rewrite get_set_ne|]. split; [done|].
  intros ts' [= <-]. eexists tsd, _. split; [done|]. split; [apply get_set_eq|].
  split; [intros k Hk; by rewrite get_set_ne|].
  eexists. split.
  - unfold cache_label. rewrite get_set_eq. simpl. rewrite get_set_eq. simpl.
    rewrite get_set_eq. simpl. by rewrite get_set_eq.
  - unfold cache_label. rewrite Hts. simpl. intros Hown Hpipeline.
    assert (get cache_enabled lbls = None) as Hnone.
    { unfold get_default in Hmd, Hlbls.
      destruct (get "metadata" tsd) as [m|]; simpl in *.
      - subst m. simpl in Hown. destruct (get "labels" md) as [l|]; simpl in *.
        + subst l. exact Hown.
        + by injection Hlbls as <-.
      - injection Hmd as <-. simpl in Hlbls. by injection Hlbls as <-. }
    unfold get_default. by rewrite Hnone, Hpipeline.
Qed.

(** The auxiliary document at index [i] was inlined into the task: the
    reference is gone and the specification holds the shared body. *)
Definition inlined_from (ref : dict) (i : nat) (task' : dict) : Prop :=
  get "taskRef" task' = None
  ∧ ∃ ts, get "taskSpec" task' = Some (PDict ts)
          ∧ get "spec" ts = Some (PSpecOf i)
          ∧ get "apiVersion" ts = get "apiVersion" ref
          ∧ get "kind" ts = get "kind" ref.

Lemma inline_task_inv pipeline_labels crs recursive task task' e :
  inline_task pipeline_labels crs recursive task = Ok (task', e) →
  ∃ t1 t2, get "taskRef" t1 = get "taskRef" task
           ∧ get "taskSpec" t1 = get "taskSpec" task
           ∧ inline_ref crs recursive t1 = Ok (t2, e)
           ∧ label_cache pipeline_labels t2 = Ok task'.
Proof.
  unfold inline_task. intros Hrun.
  assert (∃ t1, (match get "params" task with
                 | Some params => params ← sort_by_name params; Ok (set "params" params task)
                 | None => Ok task
                 end) = Ok t1
                ∧ get "taskRef" t1 = get "taskRef" task
                ∧ get "taskSpec" t1 = get "taskSpec" task) as (t1 & Hsort & Href & Hspec).
  { destruct (get "params" task) as [params|]; [|by exists task].
    destruct (sort_by_name params) as [sorted|] eqn:Hs; simpl in *; [|done].
    eexists. split; [done|]. by rewrite !get_set_ne. }
  rewrite Hsort in Hrun. simpl in Hrun.
  destruct (inline_ref crs recursive t1) as [[t2 e2]|] eqn:Hinline; simpl in Hrun; [|done].
  destruct (label_cache pipeline_labels t2) as [t3|] eqn:Hlabel; simpl in Hrun; [|done].
  injection Hrun as <- <-. by exists t1, t2.
Qed.

(** A reference by name is replaced exactly when the name is not that of a
    recursive construct and an auxiliary document bears it. *)
Lemma inline_task_ref pipeline_labels crs recursive task task' e ref n :
  inline_task pipeline_labels crs recursive task = Ok (task', e) →
  get "taskRef" task = Some (PDict ref) → get "name" ref = Some n →
  (py_in n recursive = false
   ∧ (∃ i cr, crs !! i = Some cr ∧ named cr n ∧ inlined_from ref i task') ∧ e = [n])
  ∨ ((py_in n recursive = true ∨ Forall (λ cr, named_otherwise cr n) crs)
     ∧ get "taskRef" task' = Some (PDict ref) ∧ e = []).
Proof.
  intros (t1 & t2 & Href1 & _ & Hinline & Hlabel)%inline_task_inv Href Hname.
  rewrite <-Href1 in Href.
  apply label_cache_spec in Hlabel as (Hkeys & _ & Hspec).
  destruct (inline_ref_spec _ _ _ _ _ _ _ Hinline Href Hname)
    as [(Hrec & i & cr & av & kd & Hi & Hnamed & Hav & Hkd & -> & ->)|(Hwhy & -> & ->)].
  - left. split; [done|]. split; [|done]. exists i, cr. split; [done|]. split; [done|].
    split; [by rewrite Hkeys, get_remove_eq|].
    destruct (Hspec (inlined_spec av kd i)) as (tsd & tsd' & [= <-] & Hts' & Hsame & _).
    { by rewrite get_remove_ne, get_set_eq. }
    exists tsd'. split; [done|]. by rewrite !Hsame, Hav, Hkd.
  - right. split; [done|]. by rewrite Hkeys.
Qed.

(** Every task that leaves [inline_task] with an inline specification
    bears the label of the cache. *)
Lemma inline_task_label pipeline_labels crs recursive task task' e :
  inline_task pipeline_labels crs recursive task = Ok (task', e) →
  is_Some (get "taskSpec" task') →
  ∃ v, cache_label task' = Some v
       ∧ (cache_label task = None → get cache_enabled pipeline_labels = None →
          v = PStr "true").
Proof.
  intros (t1 & t2 & Href1 & Hspec1 & Hinline & Hlabel)%inline_task_inv Hhas.
  apply label_cache_spec in Hlabel as (_ & Hnone & Hspec).
  destruct (get "taskSpec" t2) as [ts|] eqn:Hts.
  2: { rewrite (Hnone eq_refl), Hts in Hhas. by destruct Hhas. }
  destruct (Hspec ts eq_refl) as (tsd & tsd' & -> & _ & _ & v & Hv & Hdefault).
  exists v. split; [done|]. intros Hown. apply Hdefault.
  assert (cache_label t1 = None) as Hown1 by (by rewrite (cache_label_ext task t1)).
  unfold inline_ref in Hinline.
  destruct (get "taskRef" t1) as [r|]; [|by injection Hinline as <- _].
  destruct (as_dict r) as [ref|]; simpl in Hinline; [|done].
  destruct (get "name" ref) as [n|]; [|by injection Hinline as <- _].
  destruct (py_in n recursive); [by injection Hinline as <- _|].
  destruct (getitem "apiVersion" ref) as [av|]; simpl in Hinline; [|done].
  destruct (getitem "kind" ref) as [kd|]; simpl in Hinline; [|done].
  apply inline_cr_fold in Hinline as [(_ & -> & _)|(icr & _ & _ & _ & -> & _)]; [done|].
  unfold cache_label. by rewrite get_remove_ne, get_set_eq.
Qed.

(** *** The loops of the inliner *)

Section Loops.
Context {A B : Type} (R : relation B) `{!PreOrder R}.
Variable f : B → A → result B.
Hypothesis f_grows : ∀ b x b', f b x = Ok b' → R b b'.

Lemma fold_result_grows l b b' : fold_result f b l = Ok b' → R b b'.
Proof.
  revert b. induction l as [|y l IH]; intros b; simpl.
  - by intros [= ->].
  - destruct (f b y) as [b1|e] eqn:Hy; simpl; [|done].
    intros H. etrans; [by eapply f_grows|by apply IH].
Qed.

Lemma fold_result_each l b b' x :
  fold_result f b l = Ok b' → x ∈ l →
  ∃ b1 b2, R b b1 ∧ f b1 x = Ok b2 ∧ R b2 b'.
Proof.
  revert b. induction l as [|y l IH]; intros b; simpl.
  - intros _ Hx. by apply elem_of_nil in Hx.
  - destruct (f b y) as [b1|e] eqn:Hy; simpl; [|done].
    intros Hfold [->|Hx]%elem_of_cons.
    + exists b, b1. split; [done|]. split; [done|]. by eapply fold_result_grows.
    + destruct (IH _ Hfold Hx) as (c1 & c2 & H1 & H2 & H3).
      exists c1, c2. split; [|done]. etrans; [by eapply f_grows|done].
Qed.
End Loops.

(** The names recorded so far stay recorded. *)
Definition names_kept {T} (a b : T * list pyval) : Prop := a.2 ⊆ b.2.

#[local] Instance names_kept_preorder {T} : PreOrder (@names_kept T).
Proof.
  split.
  - intros a. unfold names_kept. set_solver.
  - intros a b c. unfold names_kept. set_solver.
Qed.

Lemma _inline_tasks_fold pipeline_labels crs recursive tasks done_tasks names t' e' :
  fold_result
    (λ acc task,
       '(task, inlined) ← inline_task pipeline_labels crs recursive task;
       Ok (acc.1 ++ [task], acc.2 ++ inlined))
    (done_tasks, names) tasks = Ok (t', e') →
  ∃ ts, t' = done_tasks ++ ts
        ∧ Forall2 (λ task task', ∃ e, inline_task pipeline_labels crs recursive task = Ok (task', e)
                                      ∧ e ⊆ e') tasks ts
        ∧ names ⊆ e'.
Proof.
  revert done_tasks names. induction tasks as [|task tasks IH]; intros done_tasks names; simpl.
  - intros [= <- <-]. exists []. by rewrite app_nil_r.
  - destruct (inline_task pipeline_labels crs recursive task) as [[task' e]|] eqn:Htask;
      simpl; [|done].
    intros (ts & -> & Hall & Hnames)%IH. exists (task' :: ts).
    split; [by rewrite <-app_assoc|]. split; [|set_solver].
    constructor; [|done]. exists e. split; [done|set_solver].
Qed.

(** [_inline_tasks] treats the tasks one by one and collects the names. *)
Lemma _inline_tasks_spec pipeline_labels tasks crs recursive tasks' inlined :
  _inline_tasks pipeline_labels tasks crs recursive = Ok (tasks', inlined) →
  Forall2 (λ task task', ∃ e, inline_task pipeline_labels crs recursive task = Ok (task', e)
                              ∧ e ⊆ inlined) tasks tasks'.
Proof.
  intros Hrun. by apply _inline_tasks_fold in Hrun as (ts & -> & Hall & _).
Qed.

Lemma standalone_fold inlined crs kept0 kept :
  fold_result
    (λ kept cr, name ← cr_name cr;
                Ok (if py_in name inlined then kept else kept ++ [cr]))
    kept0 crs = Ok kept →
  ∀ cr, cr ∈ kept →
        cr ∈ kept0 ∨ (cr ∈ crs ∧ ∃ v, cr_name cr = Ok v ∧ py_in v inlined = false).
Proof.
  revert kept0. induction crs as [|cr0 crs IH]; intros kept0; simpl.
  - intros [= <-] cr Hcr. by left.
  - destruct (cr_name cr0) as [v|] eqn:Hname; simpl; [|done].
    intros Hrest cr Hcr. destruct (IH _ Hrest cr Hcr) as [Hin|[Hin Hv]].
    + destruct (py_in v inlined) eqn:Hv; [by left|].
      apply elem_of_app in Hin as [Hin|Hin]; [by left|].
      apply list_elem_of_singleton in Hin as ->.
      right. split; [by left|by exists v].
    + right. split; [by right|done].
Qed.

(** The documents that stay on their own bear no inlined name. *)
Lemma standalone_spec inlined crs kept :
  standalone inlined crs = Ok kept →
  ∀ cr, cr ∈ kept → cr ∈ crs ∧ ∃ v, cr_name cr = Ok v ∧ py_in v inlined = false.
Proof.
  intros Hrun cr Hcr. destruct (standalone_fold _ _ _ _ Hrun cr Hcr) as [Hin|H]; [|done].
  by apply elem_of_nil in Hin.
Qed.

Lemma inline_in_cr_grows pipeline_labels recursive acc i acc' :
  inline_in_cr pipeline_labels recursive acc i = Ok acc' → names_kept acc acc'.
Proof.
  unfold inline_in_cr, names_kept. destruct acc as [crs names].
  destruct (crs !! i) as [cr|]; [|done].
  destruct (getitem "spec" cr) as [spec|]; simpl; [|done].
  destruct (as_dict spec) as [specd|]; simpl; [|done].
  destruct (get "pipelineSpec" specd) as [ps|]; [|by intros [= <-]].
  destruct (as_dict ps) as [psd|]; simpl; [|done].
  destruct (match get "params" psd with Some _ => _ | None => _ end) as [psd'|]; simpl; [|done].
  destruct (getitem "tasks" psd') as [tasks|]; simpl; [|done].
  destruct (as_dicts tasks) as [tl|]; simpl; [|done].
  destruct (_inline_tasks _ _ _ _) as [[t e]|]; simpl; [|done].
  intros [= <-]. simpl. set_solver.
Qed.

(** The documents that stay on their own are the ones whose name was not
    recorded. *)
Lemma standalone_kept_fold inlined crs kept0 kept :
  fold_result
    (λ kept cr, name ← cr_name cr;
                Ok (if py_in name inlined then kept else kept ++ [cr]))
    kept0 crs = Ok kept →
  (∀ cr, cr ∈ kept0 → cr ∈ kept)
  ∧ ∀ cr, cr ∈ crs → ∃ v, cr_name cr = Ok v ∧ (py_in v inlined = false → cr ∈ kept).
Proof.
  revert kept0. induction crs as [|cr0 crs IH]; intros kept0; simpl.
  - intros [= <-]. split; [done|]. intros cr Hcr. by apply elem_of_nil in Hcr.
  - destruct (cr_name cr0) as [v|] eqn:Hname; simpl; [|done].
    intros [Hold Hnew]%IH. split.
    + intros cr Hcr. apply Hold. destruct (py_in v inlined); [done|].
      apply elem_of_app. by left.
    + intros cr [->|Hcr]%elem_of_cons; [|by apply Hnew].
      exists v. split; [done|]. intros Hv. apply Hold. rewrite Hv.
      apply elem_of_app. right. by left.
Qed.

Lemma py_in_true v l : py_in v l = true → ∃ n, n ∈ l ∧ py_eq v n = true.
Proof.
  unfold py_in. intros (n & Hn & Heq)%existsb_exists. exists n.
  split; [by apply list_elem_of_In|done].
Qed.

Lemma py_in_false v n l : py_in v l = false → n ∈ l → py_eq v n = false.
Proof.
  unfold py_in. intros Hall Hn. destruct (py_eq v n) eqn:Heq; [|done].
  assert (existsb (py_eq v) l = true) as Hex; [|by rewrite Hex in Hall].
  apply existsb_exists. exists n. split; [by apply list_elem_of_In|done].
Qed.

Lemma standalone_iff inlined crs kept :
  standalone inlined crs = Ok kept →
  ∀ cr, cr ∈ kept ↔ cr ∈ crs ∧ ∀ n, n ∈ inlined → ¬ named cr n.
Proof.
  intros Hrun cr. split.
  - intros (Hin & v & Hname & Hout)%(standalone_spec _ _ _ Hrun). split; [done|].
    intros n Hn (v' & Hname' & Heq). rewrite Hname in Hname'. injection Hname' as <-.
    by rewrite (py_in_false v n _ Hout Hn) in Heq.
  - intros [Hin Hnone]. apply standalone_kept_fold in Hrun as [_ Hnew].
    destruct (Hnew cr Hin) as (v & Hname & Hkept). apply Hkept.
    destruct (py_in v inlined) eqn:Hv; [|done].
    apply py_in_true in Hv as (n & Hn & Heq). destruct (Hnone n Hn). by exists v.
Qed.

(** *** The tasks inside the auxiliary documents *)

(** The tasks of the pipeline that an auxiliary document holds. *)
Definition tasks_of (cr : dict) : result (list dict) :=
  spec ← getitem "spec" cr;
  spec ← as_dict spec;
  pipelineSpec ← getitem "pipelineSpec" spec;
  pipelineSpec ← as_dict pipelineSpec;
  tasks ← getitem "tasks" pipelineSpec;
  as_dicts tasks.

(** [task'] is [task] after the inlining among the documents [crs]: a
    reference by name is replaced by the body of a document of that name,
    and the name is among [inlined], exactly when the name is not that of
    a recursive construct and such a document exists; otherwise the
    reference stays.  A task without a reference gets none. *)
Definition treated (crs : list dict) (recursive inlined : list pyval) (task task' : dict)
    : Prop :=
  (get "taskRef" task = None → get "taskRef" task' = None)
  ∧ ∀ ref n, get "taskRef" task = Some (PDict ref) → get "name" ref = Some n →
      (py_in n recursive = false
       ∧ (∃ i cr, crs !! i = Some cr ∧ named cr n ∧ inlined_from ref i task')
       ∧ n ∈ inlined)
      ∨ ((py_in n recursive = true ∨ Forall (λ cr, named_otherwise cr n) crs)
         ∧ get "taskRef" task' = Some (PDict ref)).

(** [cr['spec'].get('pipelineSpec')] *)
Definition pipeline_of (cr : dict) : option pyval :=
  match get "spec" cr with
  | Some (PDict spec) => get "pipelineSpec" spec
  | _ => None
  end.

(** The document [cr'] is [cr] after step 1: it bears the same name; if
    it holds a pipeline, its tasks are treated one by one; if not, it is
    left as it is. *)
Definition treated_in (crs : list dict) (recursive inlined : list pyval) (cr cr' : dict)
    : Prop :=
  get "metadata" cr' = get "metadata" cr
  ∧ match pipeline_of cr with
    | Some _ => ∃ tasks tasks', tasks_of cr = Ok tasks ∧ tasks_of cr' = Ok tasks'
                                ∧ Forall2 (treated crs recursive inlined) tasks tasks'
    | None => cr' = cr
    end.

(** Every name of [names] is that of an auxiliary document, and of no
    recursive construct. *)
Definition real (crs : list dict) (recursive names : list pyval) : Prop :=
  ∀ n, n ∈ names → py_in n recursive = false ∧ ∃ i cr, crs !! i = Some cr ∧ named cr n.

(** The documents of [store] bear the names of those of [crs]. *)
Definition same_names (crs store : list dict) : Prop :=
  Forall2 (λ cr cr', get "metadata" cr' = get "metadata" cr) crs store.

Lemma cr_name_metadata cr cr' :
  get "metadata" cr' = get "metadata" cr → cr_name cr' = cr_name cr.
Proof. unfold cr_name, getitem. by intros ->. Qed.

Lemma same_names_named crs store n :
  same_names crs store →
  (∀ i cr', store !! i = Some cr' → named cr' n → ∃ cr, crs !! i = Some cr ∧ named cr n)
  ∧ (Forall (λ cr', named_otherwise cr' n) store → Forall (λ cr, named_otherwise cr n) crs).
Proof.
  intros Hsame. split.
  - intros i cr' Hi Hnamed.
    destruct (Forall2_lookup_r _ _ _ _ _ Hsame Hi) as (cr & Hcr & Hmeta).
    exists cr. split; [done|]. unfold named. by rewrite <-(cr_name_metadata cr cr').
  - intros Hall. induction Hsame as [|cr cr' crs store Hmeta _ IH]; [done|].
    apply Forall_cons in Hall as [Hother Hall]. constructor; [|by apply IH].
    unfold named_otherwise. by rewrite <-(cr_name_metadata cr cr').
Qed.

Lemma inline_task_no_ref pipeline_labels store recursive task task' e :
  inline_task pipeline_labels store recursive task = Ok (task', e) →
  get "taskRef" task = None → get "taskRef" task' = None ∧ e = [].
Proof.
  intros (t1 & t2 & Href1 & _ & Hinline & Hlabel)%inline_task_inv Hno.
  rewrite <-Href1 in Hno. unfold inline_ref in Hinline. rewrite Hno in Hinline.
  injection Hinline as <- <-.
  apply label_cache_spec in Hlabel as (Hkeys & _). split; [|done]. by rewrite Hkeys.
Qed.

(** A name that [inline_task] records is that of a document, and of no
    recursive construct. *)
Lemma inline_task_real pipeline_labels store recursive task task' e :
  inline_task pipeline_labels store recursive task = Ok (task', e) →
  real store recursive e.
Proof.
  intros (t1 & t2 & _ & _ & Hinline & _)%inline_task_inv n Hn.
  unfold inline_ref in Hinline.
  destruct (get "taskRef" t1) as [r|] eqn:Href.
  2: { injection Hinline as _ <-. by apply elem_of_nil in Hn. }
  destruct (as_dict r) as [ref|] eqn:Hr; simpl in Hinline; [|done].
  apply as_dict_ok in Hr as ->.
  destruct (get "name" ref) as [m|] eqn:Hname.
  2: { injection Hinline as _ <-. by apply elem_of_nil in Hn. }
  assert (inline_ref store recursive t1 = Ok (t2, e)) as Hrun.
  { unfold inline_ref. by rewrite Href; simpl; rewrite Hname. }
  destruct (inline_ref_spec _ _ _ _ _ _ _ Hrun Href Hname)
    as [(Hrec & i & cr & _ & _ & Hi & Hnamed & _ & _ & _ & ->)|(_ & _ & ->)].
  - apply list_elem_of_singleton in Hn as ->. split; [done|]. by exists i, cr.
  - by apply elem_of_nil in Hn.
Qed.

Lemma real_same_names crs store recursive names :
  same_names crs store → real store recursive names → real crs recursive names.
Proof.
  intros Hsame Hreal n Hn. destruct (Hreal n Hn) as (Hrec & i & cr' & Hi & Hnamed).
  split; [done|]. exists i.
  by apply (proj1 (same_names_named crs store n Hsame) i cr').
Qed.

Lemma inline_task_treated pipeline_labels crs store recursive inlined task task' e :
  same_names crs store →
  inline_task pipeline_labels store recursive task = Ok (task', e) →
  e ⊆ inlined →
  treated crs recursive inlined task task'.
Proof.
  intros Hsame Hrun Hsub. split.
  { intros Hno. by destruct (inline_task_no_ref _ _ _ _ _ _ Hrun Hno). }
  intros ref n Href Hname.
  destruct (inline_task_ref _ _ _ _ _ _ _ _ Hrun Href Hname)
    as [(Hrec & (i & cr' & Hi & Hnamed & Hfrom) & ->)|([Hrec|Hall] & Hstays & _)].
  - left. split; [done|]. split; [|set_solver].
    destruct (proj1 (same_names_named crs store n Hsame) i cr' Hi Hnamed) as (cr & Hcr & Hn).
    by exists i, cr.
  - right. split; [by left|done].
  - right. split; [right|done]. by apply (same_names_named crs store n Hsame).
Qed.

Lemma treated_more crs recursive inlined inlined' task task' :
  inlined ⊆ inlined' → treated crs recursive inlined task task' →
  treated crs recursive inlined' task task'.
Proof.
  intros Hsub [Hno Href]. split; [done|]. intros ref n Hr Hn.
  destruct (Href ref n Hr Hn) as [(Hrec & Hfrom & Hin)|H]; [|by right].
  left. split; [done|]. split; [done|set_solver].
Qed.

Lemma treated_in_more crs recursive inlined inlined' cr cr' :
  inlined ⊆ inlined' → treated_in crs recursive inlined cr cr' →
  treated_in crs recursive inlined' cr cr'.
Proof.
  intros Hsub [Hmeta Htasks]. split; [done|]. destruct (pipeline_of cr); [|done].
  destruct Htasks as (tasks & tasks' & Hcr & Hcr' & Hall).
  exists tasks, tasks'. split; [done|]. split; [done|].
  eapply Forall2_impl; [exact Hall|]. intros task task'. by apply treated_more.
Qed.

(** The names that [_inline_tasks] returns were recorded at a task. *)
Lemma _inline_tasks_names_fold pipeline_labels crs recursive tasks done_tasks names t' e' :
  fold_result
    (λ acc task,
       '(task, inlined) ← inline_task pipeline_labels crs recursive task;
       Ok (acc.1 ++ [task], acc.2 ++ inlined))
    (done_tasks, names) tasks = Ok (t', e') →
  ∀ n, n ∈ e' →
       n ∈ names ∨ ∃ task task' e, inline_task pipeline_labels crs recursive task = Ok (task', e)
                                   ∧ n ∈ e.
Proof.
  revert done_tasks names. induction tasks as [|task tasks IH]; intros done_tasks names; simpl.
  - intros [= <- <-] n Hn. by left.
  - destruct (inline_task pipeline_labels crs recursive task) as [[task' e]|] eqn:Htask;
      simpl; [|done].
    intros Hrest n Hn. destruct (IH _ _ Hrest n Hn) as [Hin|H]; [|by right].
    apply elem_of_app in Hin as [Hin|Hin]; [by left|]. right. by exists task, task', e.
Qed.

Lemma _inline_tasks_real pipeline_labels tasks store recursive tasks' inlined :
  _inline_tasks pipeline_labels tasks store recursive = Ok (tasks', inlined) →
  real store recursive inlined.
Proof.
  intros Hrun n Hn.
  destruct (_inline_tasks_names_fold _ _ _ _ _ _ _ _ Hrun n Hn)
    as [Hin|(task & task' & e & Htask & Hin)]; [by apply elem_of_nil in Hin|].
  by apply (inline_task_real _ _ _ _ _ _ Htask).
Qed.

Lemma _inline_tasks_treated pipeline_labels crs tasks store recursive tasks' e inlined :
  same_names crs store →
  _inline_tasks pipeline_labels tasks store recursive = Ok (tasks', e) →
  e ⊆ inlined →
  Forall2 (treated crs recursive inlined) tasks tasks'.
Proof.
  intros Hsame Hrun Hsub. apply _inline_tasks_spec in Hrun.
  eapply Forall2_impl; [exact Hrun|]. intros task task' (e0 & Htask & He0).
  apply (inline_task_treated pipeline_labels crs store recursive inlined task task' e0);
    [done|done|set_solver].
Qed.

Lemma mapM_as_dict (l : list dict) : mapM as_dict (PDict <$> l) = Ok l.
Proof.
  induction l as [|d l IH]; [done|].
  change (mapM as_dict (PDict <$> d :: l))
    with (y ← as_dict (PDict d); k ← mapM as_dict (PDict <$> l); mret (y :: k)).
  by rewrite IH.
Qed.

Lemma as_dicts_dicts (l : list dict) : as_dicts (PList (PDict <$> l)) = Ok l.
Proof. unfold as_dicts. simpl. apply mapM_as_dict. Qed.

Lemma tasks_of_set cr spec pipelineSpec (t : list dict) :
  tasks_of (set "spec"
              (PDict (set "pipelineSpec"
                        (PDict (set "tasks" (PList (PDict <$> t)) pipelineSpec)) spec)) cr)
  = Ok t.
Proof.
  unfold tasks_of, getitem. rewrite get_set_eq. simpl. rewrite get_set_eq. simpl.
  rewrite get_set_eq. apply as_dicts_dicts.
Qed.

Lemma same_names_insert crs store i cr cr' :
  same_names crs store → crs !! i = Some cr → get "metadata" cr' = get "metadata" cr →
  same_names crs (<[i := cr']> store).
Proof.
  intros Hsame Hi Hmeta. rewrite <-(list_insert_id crs i cr Hi).
  by apply Forall2_insert.
Qed.

(** Step 1 of [prepare_workflow] after the documents before index [k]:
    the documents bear their names, those from [k] on are untouched, the
    tasks of the earlier ones are treated, and the names are real. *)
Record step1 (crs : list dict) (recursive : list pyval) (k : nat)
    (acc : list dict * list pyval) : Prop := {
  step1_names : same_names crs acc.1;
  step1_later : ∀ i, k ≤ i → acc.1 !! i = crs !! i;
  step1_earlier : ∀ i cr cr', i < k → crs !! i = Some cr → acc.1 !! i = Some cr' →
                              treated_in crs recursive acc.2 cr cr';
  step1_real : real crs recursive acc.2
}.

Lemma step1_initial crs recursive : step1 crs recursive 0 (crs, []).
Proof.
  split; simpl.
  - by apply Forall_Forall2_diag, Forall_forall.
  - done.
  - intros i cr cr' Hi. lia.
  - intros n Hn. by apply elem_of_nil in Hn.
Qed.

Lemma step1_step pipeline_labels crs recursive k acc acc' :
  step1 crs recursive k acc →
  inline_in_cr pipeline_labels recursive acc k = Ok acc' →
  step1 crs recursive (S k) acc'.
Proof.
  destruct acc as [store names]. intros [Hnames Hlater Hearlier Hreal]. simpl in *.
  unfold inline_in_cr. rewrite (Hlater k) by done.
  destruct (crs !! k) as [cr|] eqn:Hk; [|done].
  assert (k < length store) as Hlen.
  { rewrite <-(Forall2_length _ _ _ Hnames). by apply lookup_lt_Some in Hk. }
  destruct (getitem "spec" cr) as [spec|] eqn:Hspec; simpl; [|done].
  destruct (as_dict spec) as [specd|] eqn:Hspecd; simpl; [|done].
  apply as_dict_ok in Hspecd as ->.
  assert (pipeline_of cr = get "pipelineSpec" specd) as Hpipeline.
  { unfold pipeline_of. unfold getitem in Hspec.
    destruct (get "spec" cr); [|done]. by injection Hspec as ->. }
  destruct (get "pipelineSpec" specd) as [ps|] eqn:Hps.
  { destruct (as_dict ps) as [psd|] eqn:Hpsd; simpl; [|done].
    apply as_dict_ok in Hpsd as ->.
    destruct (match get "params" psd with Some _ => _ | None => _ end) as [psd'|] eqn:Hsort;
      simpl; [|done].
    assert (get "tasks" psd' = get "tasks" psd) as Htasks.
    { destruct (get "params" psd) as [params|]; [|by injection Hsort as <-].
      destruct (sort_by_name params) as [sorted|]; simpl in Hsort; [|done].
      injection Hsort as <-. by rewrite get_set_ne. }
    destruct (getitem "tasks" psd') as [tasks|] eqn:Hget; simpl; [|done].
    destruct (as_dicts tasks) as [tl|] eqn:Htl; simpl; [|done].
    destruct (_inline_tasks _ _ _ _) as [[t e]|] eqn:Hinline; simpl; [|done].
    intros [= <-].
    assert (same_names crs
              (<[k := set "spec" (PDict (set "pipelineSpec" (PDict psd') specd)) cr]> store))
      as Hnames1.
    { apply (same_names_insert _ _ _ cr); [done|done|by rewrite get_set_ne]. }
    split; simpl.
    - apply (same_names_insert _ _ _ cr); [done|done|by rewrite get_set_ne].
    - intros i Hi. rewrite !list_lookup_insert_ne by lia. apply Hlater. lia.
    - intros i cr0 cr' Hi Hcr0. destruct (decide (i = k)) as [->|Hne].
      + rewrite list_lookup_insert_eq by (by rewrite length_insert).
        rewrite Hk in Hcr0. injection Hcr0 as <-. intros [= <-].
        split; [by rewrite get_set_ne|]. rewrite Hpipeline.
        exists tl, t. split; [|split; [apply tasks_of_set|]].
        * unfold tasks_of. rewrite Hspec. simpl.
          assert (getitem "pipelineSpec" specd = Ok (PDict psd)) as ->
            by (unfold getitem; by rewrite Hps).
          simpl. assert (getitem "tasks" psd = Ok tasks) as ->; [|done].
          unfold getitem in *. by rewrite <-Htasks.
        * apply (_inline_tasks_treated _ _ _ _ _ _ _ _ Hnames1 Hinline). set_solver.
      + rewrite !list_lookup_insert_ne by done. intros Hcr'.
        apply (treated_in_more _ _ names); [set_solver|]. apply (Hearlier i); [lia|done|done].
    - intros n [Hn|Hn]%elem_of_app; [by apply Hreal|].
      apply (real_same_names _ _ _ _ Hnames1 (_inline_tasks_real _ _ _ _ _ _ Hinline) n Hn). }
  intros [= <-]. split; simpl; [done| |..|done].
  - intros i Hi. apply Hlater. lia.
  - intros i cr0 cr' Hi Hcr0 Hcr'. destruct (decide (i = k)) as [->|Hne].
    + rewrite Hlater, Hk in Hcr' by done. rewrite Hk in Hcr0.
      injection Hcr0 as <-. injection Hcr' as <-. split; [done|]. by rewrite Hpipeline.
    + apply (Hearlier i); [lia|done|done].
Qed.

Lemma step1_fold pipeline_labels crs recursive m k acc acc' :
  step1 crs recursive k acc →
  fold_result (inline_in_cr pipeline_labels recursive) acc (seq k m) = Ok acc' →
  step1 crs recursive (k + m) acc'.
Proof.
  revert k acc. induction m as [|m IH]; intros k acc Hinv; simpl.
  - intros [= <-]. by rewrite Nat.add_0_r.
  - destruct (inline_in_cr pipeline_labels recursive acc k) as [acc1|] eqn:Hstep; simpl; [|done].
    intros Hrest. replace (k + S m) with (S k + m) by lia.
    apply (IH (S k) acc1); [|done]. by apply (step1_step pipeline_labels _ _ _ acc).
Qed.

(** What the inlining of [prepare_workflow] leaves. *)
Lemma inline_custom_opsgroup_crs_spec pipeline_labels crs tasks recursive r :
  inline_custom_opsgroup_crs true pipeline_labels crs tasks recursive = Ok r →
  Forall2 (λ task task', ∃ e, inline_task pipeline_labels (all_crs r) recursive task
                                = Ok (task', e)
                              ∧ e ⊆ inlined_as_taskSpec r)
          tasks (workflow_tasks r)
  ∧ Forall2 (treated crs recursive (inlined_as_taskSpec r)) tasks (workflow_tasks r)
  ∧ Forall2 (treated_in crs recursive (inlined_as_taskSpec r)) crs (all_crs r)
  ∧ real crs recursive (inlined_as_taskSpec r)
  ∧ (∀ cr, cr ∈ custom_opsgroup_crs r
           ↔ cr ∈ all_crs r ∧ ∀ n, n ∈ inlined_as_taskSpec r → ¬ named cr n).
Proof.
  unfold inline_custom_opsgroup_crs.
  destruct (fold_result _ (crs, []) _) as [[crs1 names1]|] eqn:Hstep1; simpl; [|done].
  destruct (_inline_tasks pipeline_labels tasks crs1 recursive) as [[tasks' e]|] eqn:Hstep2;
    simpl; [|done].
  destruct (standalone (names1 ++ e) crs1) as [kept|] eqn:Hkept; simpl; [|done].
  intros [= <-]. simpl.
  apply (step1_fold _ _ _ _ _ _ _ (step1_initial crs recursive)) in Hstep1
    as [Hnames Hlater Hearlier Hreal]. simpl in *.
  split; [|split; [|split; [|split]]].
  - pose proof (_inline_tasks_spec _ _ _ _ _ _ Hstep2) as Hall.
    eapply Forall2_impl; [exact Hall|].
    intros task task' (e0 & He0 & Hsub). exists e0. split; [done|set_solver].
  - apply (_inline_tasks_treated _ _ _ _ _ _ _ _ Hnames Hstep2). set_solver.
  - apply Forall2_same_length_lookup. split; [by apply Forall2_length in Hnames|].
    intros i cr cr' Hcr Hcr'. apply (treated_in_more _ _ names1); [set_solver|].
    apply (Hearlier i); [|done|done]. by apply lookup_lt_Some in Hcr.
  - intros n [Hn|Hn]%elem_of_app; [by apply Hreal|].
    apply (real_same_names _ _ _ _ Hnames (_inline_tasks_real _ _ _ _ _ _ Hstep2) n Hn).
  - by apply standalone_iff.
Qed.

(** C9: a task that refers to a construct by name has the reference
    replaced by an inline specification holding the body of an auxiliary
    document of that name exactly when the name is not that of a recursive
    construct and such a document exists; otherwise the reference stays.
    After the two passes of [prepare_workflow] this holds of every task of
    the main document and of every task inside the auxiliary documents
    that hold a pipeline, with the documents as they were given; a
    document without a pipeline is left as it is; every name that was
    inlined is recorded, every recorded name is that of an auxiliary
    document and of no recursive construct, and the documents that stay
    on their own are exactly those that bear no recorded name. *)
Theorem inlined_exactly_when_found (pipeline_labels : dict) (recursive : list pyval) :
  (∀ crs task task' e ref n,
     inline_task pipeline_labels crs recursive task = Ok (task', e) →
     get "taskRef" task = Some (PDict ref) → get "name" ref = Some n →
     (py_in n recursive = false
      ∧ (∃ i cr, crs !! i = Some cr ∧ named cr n ∧ inlined_from ref i task') ∧ e = [n])
     ∨ ((py_in n recursive = true ∨ Forall (λ cr, named_otherwise cr n) crs)
        ∧ get "taskRef" task' = Some (PDict ref) ∧ e = []))
  ∧ (∀ crs tasks r,
       inline_custom_opsgroup_crs true pipeline_labels crs tasks recursive = Ok r →
       Forall2 (λ task task', ∃ e, inline_task pipeline_labels (all_crs r) recursive task
                                     = Ok (task', e)
                                   ∧ e ⊆ inlined_as_taskSpec r)
               tasks (workflow_tasks r)
       ∧ Forall2 (treated crs recursive (inlined_as_taskSpec r)) tasks (workflow_tasks r)
       ∧ Forall2 (treated_in crs recursive (inlined_as_taskSpec r)) crs (all_crs r)
       ∧ real crs recursive (inlined_as_taskSpec r)
       ∧ (∀ cr, cr ∈ custom_opsgroup_crs r
                ↔ cr ∈ all_crs r ∧ ∀ n, n ∈ inlined_as_taskSpec r → ¬ named cr n)).
Proof.
  split; [intros crs task task' e ref n; apply inline_task_ref|].
  intros crs tasks r. apply inline_custom_opsgroup_crs_spec.
Qed.

(** Two loops that refer to each other, and a main document that refers
    to the first. *)
Definition loop_document (name : string) (tasks : list pyval) : dict :=
  [("kind", PStr "PipelineLoop");
   ("metadata", PDict [("name", PStr name)]);
   ("spec", PDict [("pipelineSpec", PDict [("tasks", PList tasks)])])].

Definition loop_reference (task_name ref_name : string) : dict :=
  [("name", PStr task_name);
   ("taskRef", PDict [("apiVersion", PStr "custom.tekton.dev/v1alpha1");
                      ("kind", PStr "PipelineLoop");
                      ("name", PStr ref_name)])].

Definition mutual_loops : list dict :=
  [loop_document "loop-a" [PDict (loop_reference "call-b" "loop-b")];
   loop_document "loop-b" [PDict (loop_reference "call-a" "loop-a")]].

Definition mutual_result : inlining :=
  Eval vm_compute in
    match inline_custom_opsgroup_crs true [] mutual_loops [loop_reference "main" "loop-a"] [] with
    | Ok r => r
    | Raise _ => Inlining [] [] [] []
    end.

Lemma inlined_exactly_when_found_witness :
  Forall2 (λ task task', ∃ e, inline_task [] (all_crs mutual_result) [] task = Ok (task', e)
                              ∧ e ⊆ inlined_as_taskSpec mutual_result)
          [loop_reference "main" "loop-a"] (workflow_tasks mutual_result)
  ∧ Forall2 (treated mutual_loops [] (inlined_as_taskSpec mutual_result))
            [loop_reference "main" "loop-a"] (workflow_tasks mutual_result)
  ∧ Forall2 (treated_in mutual_loops [] (inlined_as_taskSpec mutual_result))
            mutual_loops (all_crs mutual_result)
  ∧ real mutual_loops [] (inlined_as_taskSpec mutual_result)
  ∧ (∀ cr, cr ∈ custom_opsgroup_crs mutual_result
           ↔ cr ∈ all_crs mutual_result
             ∧ ∀ n, n ∈ inlined_as_taskSpec mutual_result → ¬ named cr n).
Proof.
  apply (proj2 (inlined_exactly_when_found [] []) mutual_loops [loop_reference "main" "loop-a"]).
  vm_compute. reflexivity.
Defined.

(** Neither loop stays on its own, the main task holds the first, and the
    task inside each loop holds the other. *)
Example mutual_loops_inlined :
  custom_opsgroup_crs mutual_result = []
  ∧ inlined_as_taskSpec mutual_result = [PStr "loop-b"; PStr "loop-a"; PStr "loop-a"]
  ∧ (get "taskRef" <$> workflow_tasks mutual_result) = [None]
  ∧ (tasks_of <$> all_crs mutual_result)
    = [Ok [[("name", PStr "call-b");
            ("taskSpec", PDict [("apiVersion", PStr "custom.tekton.dev/v1alpha1");
                                ("kind", PStr "PipelineLoop");
                                ("spec", PSpecOf 1);
                                ("metadata", PDict [("labels", PDict [(cache_enabled, PStr "true")])])])]];
       Ok [[("name", PStr "call-a");
            ("taskSpec", PDict [("apiVersion", PStr "custom.tekton.dev/v1alpha1");
                                ("kind", PStr "PipelineLoop");
                                ("spec", PSpecOf 0);
                                ("metadata", PDict [("labels", PDict [(cache_enabled, PStr "true")])])])]]].
Proof. by vm_compute. Qed.

End InlinerFacts.

(** ** Task references *)

Module TaskRefsFacts.
Import PyDict Doc Inliner TaskRefs PyDictFacts InlinerFacts.

(** The label of the cache among the labels of a template. *)
Definition template_cache_label (template : dict) : option pyval :=
  metadata ← get "metadata" template ≫= dict_of;
  labels ← get "labels" metadata ≫= dict_of;
  get cache_enabled labels.

Lemma set_not_empty {A} k (v : A) d : set k v d ≠ [].
Proof. destruct d as [|[k' v'] d]; simpl; [done|]. by case_bool_decide. Qed.

Lemma py_true_set k v (d : dict) : negb (bool_decide (set k v d = [])) = true.
Proof.
  rewrite bool_decide_eq_false_2; [done|]. apply set_not_empty.
Qed.

Lemma label_task_ref_spec pipeline_labels template task_ref task_ref' :
  label_task_ref pipeline_labels template task_ref = Ok task_ref' →
  (py_true (get_default "taskSpec" (PStr "") task_ref) = false ∧ task_ref' = task_ref)
  ∨ ∃ v, cache_label task_ref' = Some v
         ∧ (template_cache_label template = None →
            get cache_enabled pipeline_labels = None → v = PStr "true").
Proof.
  unfold label_task_ref.
  destruct (py_true (get_default "taskSpec" (PStr "") task_ref)) eqn:Htrue.
  2: { intros [= <-]. by left. }
  destruct (getitem "taskSpec" task_ref) as [ts|]; simpl; [|done].
  destruct (as_dict ts) as [tsd|]; simpl; [|done].
  destruct (as_dict (get_default "metadata" (PDict []) tsd)) as [md|]; simpl; [|done].
  unfold getitem. destruct (get "metadata" template) as [tm|] eqn:Htm; simpl; [|done].
  destruct (as_dict tm) as [tmd|] eqn:Htmd; simpl; [|done]. apply as_dict_ok in Htmd as ->.
  destruct (as_dict (get_default "labels" (PDict []) tmd)) as [lbls|] eqn:Hl; simpl; [|done].
  apply as_dict_ok in Hl. intros [= <-]. right. rewrite !py_true_set.
  eexists. split.
  - unfold cache_label. rewrite get_set_eq. simpl. rewrite get_set_eq. simpl.
    destruct (py_true (get_default "annotations" (PDict []) tmd)).
    + rewrite get_set_ne by done. rewrite get_set_eq. simpl. by rewrite get_set_eq.
    + rewrite get_set_eq. simpl. by rewrite get_set_eq.
  - unfold template_cache_label. rewrite Htm. simpl. intros Hown Hpipeline.
    assert (get cache_enabled lbls = None) as Hnone.
    { unfold get_default in Hl. destruct (get "labels" tmd) as [l|]; simpl in *.
      - by subst l.
      - by injection Hl as <-. }
    unfold get_default. by rewrite Hnone, Hpipeline.
Qed.

(** A condition on two literals with an operator that is not folded into
    a when-expression, and the task it gates. *)
Definition greater_condition : dict :=
  [("metadata", PDict [("name", PStr "condition-1")]);
   ("spec",
    PDict [("params",
            PList [PDict [("name", PStr "operand1"); ("value", PStr "$(params.count)");
                          ("type", PStr "PipelineParam"); ("op_name", PNone);
                          ("output_name", PStr "count")];
                   PDict [("name", PStr "operand2"); ("value", PStr "5");
                          ("type", PStr "int"); ("op_name", PStr "");
                          ("output_name", PStr "")];
                   PDict [("name", PStr "operator"); ("value", PStr ">");
                          ("type", PStr "str")]])]);
   ("kind", PStr "Condition")].

Definition echo_template : dict :=
  [("kind", PStr "Task");
   ("metadata", PDict [("name", PStr "echo")]);
   ("spec", PDict [("steps", PList [PDict [("name", PStr "main"); ("image", PStr "busybox")]])])].

(** Name, presence of an inline specification and label of each task. *)
Definition labels_of (tasks : result (list dict)) : list (option pyval * bool * option pyval) :=
  match tasks with
  | Ok tasks => (λ task, (get "name" task, mem "taskSpec" task, cache_label task)) <$> tasks
  | Raise _ => []
  end.

(** C10, as stated, fails: the task that evaluates a condition carries an
    inline specification and no label of the cache; with no loop and no
    add-on group in the pipeline the inliner, which would label it, is not
    run. *)
Lemma condition_task_without_label :
  labels_of (assembled_tasks [] "outcome" (λ _, Raise TypeError) K8s.sanitize_k8s_name []
               (PStr "python:3.9.17-alpine3.18") [greater_condition; echo_template])
  = [(Some (PStr "echo"), true, Some (PStr "true"));
     (Some (PStr "condition-1"), true, None)].
Proof. by vm_compute. Qed.

(** C10, amended: a task reference built from a template that is no
    condition and carrying a non-empty inline specification has a label of
    the cache, whose value is ['true'] when the labels of the template and
    those of the pipeline give none; and so has every task with an inline
    specification that leaves the inliner, where the labels of the task are
    those of its inline specification. *)
Theorem cache_label_present (images : list pyval)
    (literal_eval : pyval → result pyval) (pipeline_labels : dict) :
  (∀ template task_ref ts,
     task_branch images literal_eval pipeline_labels template = Ok task_ref →
     get "taskSpec" task_ref = Some ts → py_true ts = true →
     ∃ v, cache_label task_ref = Some v
          ∧ (template_cache_label template = None →
             get cache_enabled pipeline_labels = None → v = PStr "true"))
  ∧ (∀ crs recursive task task' e,
       inline_task pipeline_labels crs recursive task = Ok (task', e) →
       is_Some (get "taskSpec" task') →
       ∃ v, cache_label task' = Some v
            ∧ (cache_label task = None → get cache_enabled pipeline_labels = None →
               v = PStr "true")).
Proof.
  split; [|intros crs recursive task task' e; apply inline_task_label].
  intros template task_ref ts. unfold task_branch.
  destruct (template_name template) as [name|]; simpl; [|done].
  destruct (template_spec template) as [spec|]; simpl; [|done].
  destruct (as_list (get_default "params" (PList []) spec)) as [params|]; simpl; [|done].
  destruct (name_value "default" params) as [named_params|]; simpl; [|done].
  destruct (if py_true (get_default "workspaces" (PStr "") spec) then _ else _)
    as [t1|]; simpl; [|done].
  destruct (as_list (get_default "steps" (PList []) spec)) as [steps|]; simpl; [|done].
  destruct (custom_task_steps images literal_eval name t1 steps) as [t2|]; simpl; [|done].
  intros [(Hfalse & ->)|Hlabel]%label_task_ref_spec Hts Htrue; [|done].
  unfold get_default in Hfalse. rewrite Hts in Hfalse. simpl in Hfalse. congruence.
Qed.

Lemma cache_label_present_witness :
  ∃ v, cache_label [("name", PStr "echo");
                    ("taskSpec", PDict [("steps", PList []);
                                        ("metadata",
                                         PDict [("labels",
                                                 PDict [(cache_enabled, PStr "true")])])])]
       = Some v
       ∧ (cache_label [("name", PStr "echo"); ("taskSpec", PDict [("steps", PList [])])] = None →
          get cache_enabled ([] : dict) = None → v = PStr "true").
Proof.
  apply (proj2 (cache_label_present [] (λ _, Raise TypeError) []) [] []
           [("name", PStr "echo"); ("taskSpec", PDict [("steps", PList [])])] _ []).
  - by vm_compute.
  - by eexists.
Defined.

End TaskRefsFacts.

(** ** Errors and written files *)

Module WriterFacts.
Import PyStr PyDict Doc Writer.

(** The disk after the files [written] have been written, in their
    order. *)
Definition write_all (written : list file) (d : disk) : disk :=
  foldl (λ d f, <[file_path f := (file_package f, file_text f)]> d) d written.

Lemma write_all_app w1 w2 d : write_all (w1 ++ w2) d = write_all w2 (write_all w1 d).
Proof. apply foldl_app. Qed.

(** A path holds the last file written to it. *)
Lemma write_all_last earlier f later d :
  (∀ g, g ∈ later → file_path g ≠ file_path f) →
  write_all (earlier ++ f :: later) d !! file_path f = Some (file_package f, file_text f).
Proof.
  intros Hlater. rewrite write_all_app. simpl.
  generalize (write_all earlier d) as d0. intros d0.
  assert (∀ d1, d1 !! file_path f = Some (file_package f, file_text f) →
                write_all later d1 !! file_path f = Some (file_package f, file_text f))
    as Hkeep.
  { induction later as [|g later IH]; intros d1 Hd1; simpl; [done|].
    apply IH; [intros g' Hg'; apply Hlater; by right|].
    rewrite lookup_insert_ne; [done|]. apply Hlater. by left. }
  apply Hkeep. by rewrite lookup_insert_eq.
Qed.

(** A path that no file is written to holds what it held. *)
Lemma write_all_other written d path :
  (∀ g, g ∈ written → file_path g ≠ path) → write_all written d !! path = d !! path.
Proof.
  revert d. induction written as [|g written IH]; intros d Hother; simpl; [done|].
  rewrite IH; [|intros g' Hg'; apply Hother; by right].
  rewrite lookup_insert_ne; [done|]. apply Hother. by left.
Qed.

Lemma bind_inv {A B} (m : io A) (f : A → io B) files r files' :
  (m ≫= f) files = (r, files') →
  (∃ e, m files = (Raise e, files') ∧ r = Raise e)
  ∨ ∃ a files1, m files = (Ok a, files1) ∧ f a files1 = (r, files').
Proof.
  unfold mbind, io_bind. destruct (m files) as [[a|e] files1]; intros Hrun.
  - right. by exists a, files1.
  - left. exists e. by injection Hrun as <- <-.
Qed.

(** A computation that leaves the disk alone, and one whose effect on the
    disk is that of writing files that all satisfy [P], one after
    another. *)
Definition silent {A} (m : io A) : Prop :=
  ∀ files r files', m files = (r, files') → files' = files.

Definition writes {A} (P : file → Prop) (m : io A) : Prop :=
  ∀ files r files', m files = (r, files') →
                    ∃ written, files' = write_all written files ∧ Forall P written.

Lemma silent_writes {A} P (m : io A) : silent m → writes P m.
Proof. intros Hm files r files' ->%Hm. by exists []. Qed.

Lemma silent_lift {A} (r : result A) : silent (lift r).
Proof. by intros files r' files' [= _ <-]. Qed.

Lemma silent_ret {A} (a : A) : silent (mret a : io A).
Proof. by intros files r' files' [= _ <-]. Qed.

Lemma silent_bind {A B} (m : io A) (f : A → io B) :
  silent m → (∀ a, silent (f a)) → silent (m ≫= f).
Proof.
  intros Hm Hf files r files' [(e & Hrun & _)|(a & files1 & Hrun & Hrest)]%bind_inv.
  - by apply Hm in Hrun.
  - apply Hm in Hrun as ->. by apply Hf in Hrest.
Qed.

Lemma writes_bind {A B} P (m : io A) (f : A → io B) :
  writes P m → (∀ a, writes P (f a)) → writes P (m ≫= f).
Proof.
  intros Hm Hf files r files' [(e & Hrun & _)|(a & files1 & Hrun & Hrest)]%bind_inv.
  - by apply Hm in Hrun.
  - apply Hm in Hrun as (w1 & -> & H1). apply Hf in Hrest as (w2 & -> & H2).
    exists (w1 ++ w2). split; [by rewrite write_all_app|by apply Forall_app].
Qed.

Lemma writes_write (P : file → Prop) f : P f → writes P (write f).
Proof. intros Hf files r files' [= _ <-]. exists [f]. split; [done|by constructor]. Qed.

Lemma silent_fold_io {A B} (f : B → A → io B) l :
  (∀ b x, silent (f b x)) → ∀ b, silent (fold_io f b l).
Proof.
  intros Hf. induction l as [|x l IH]; intros b; simpl.
  - apply silent_ret.
  - apply silent_bind; [apply Hf|apply IH].
Qed.

Lemma writes_fold_io {A B} P (f : B → A → io B) l :
  (∀ b x, writes P (f b x)) → ∀ b, writes P (fold_io f b l).
Proof.
  intros Hf. induction l as [|x l IH]; intros b; simpl.
  - apply silent_writes, silent_ret.
  - apply writes_bind; [apply Hf|apply IH].
Qed.

Section WithEnvironment.
Variable sanitize_k8s_name : k8s_opts → string → string.
Variable dump_yaml : pyval → result string.
Variable _handle_tekton_pipeline_variables : dict → result pyval.
Variable _process_argo_vars : string → result string.
Variable yaml_load : string → result pyval.
Variable json_loads : pyval → result pyval.
Variable json_dumps_indent : dict → result string.
Variable sha1_hexdigest : string → string.
Variable splitext : string → string.
Variable tekton_api_version : string.

#[local] Abbreviation write_workflow :=
  (_write_workflow dump_yaml _handle_tekton_pipeline_variables _process_argo_vars).
#[local] Abbreviation emit :=
  (emit_documents dump_yaml _handle_tekton_pipeline_variables _process_argo_vars yaml_load
     json_loads sha1_hexdigest splitext tekton_api_version).
#[local] Abbreviation validate := (_validate_workflow sanitize_k8s_name json_dumps_indent).
#[local] Abbreviation create_and_write :=
  (_create_and_write_workflow sanitize_k8s_name dump_yaml _handle_tekton_pipeline_variables
     _process_argo_vars yaml_load json_loads json_dumps_indent sha1_hexdigest splitext
     tekton_api_version).

(** The file that [_write_workflow(workflow, path)] writes: the checked
    text of the workflow in the form that the path asks for; or the error
    that the call raises. *)
Definition file_of (workflow : dict) (path : string) : result file :=
  text ← checked_yaml_text dump_yaml _handle_tekton_pipeline_variables _process_argo_vars
           workflow;
  package ← package_of path;
  Ok (File path package text).

(** A call of [_write_workflow] with a path makes its checks and then
    writes its file: when it raises, the disk is as it was. *)
Lemma _write_workflow_path workflow path files :
  write_workflow workflow (Some path) files
  = match file_of workflow path with
    | Ok f => (Ok None, write_all [f] files)
    | Raise e => (Raise e, files)
    end.
Proof.
  unfold _write_workflow, file_of, mbind at 1, io_bind, lift.
  destruct (checked_yaml_text _ _ _ workflow) as [text|e]; simpl; [|done].
  unfold mbind at 1, io_bind, lift. by destruct (package_of path).
Qed.

Lemma _write_workflow_silent workflow : silent (write_workflow workflow None).
Proof.
  intros files r files'. unfold _write_workflow, mbind, io_bind, lift, mret, io_ret.
  destruct (checked_yaml_text _ _ _ workflow); by intros [= _ <-].
Qed.

Lemma _write_workflow_writes (P : file → Prop) workflow package_path :
  (∀ path f, file_of workflow path = Ok f → P f) →
  writes P (write_workflow workflow package_path).
Proof.
  intros HP. destruct package_path as [path|]; [|apply silent_writes, _write_workflow_silent].
  intros files r files'. rewrite _write_workflow_path.
  destruct (file_of workflow path) as [f|e] eqn:Hf; intros [= _ <-].
  - exists [f]. split; [done|]. constructor; [by eapply HP|done].
  - by exists [].
Qed.

(** The paths of the documents that go to files of their own. *)
Definition loop_path (path : string) (i : nat) : string :=
  splitext path +:+ "_pipelineloop_cr" +:+ pretty (i + 1) +:+ ".yaml".
Definition template_path (path digest : string) : string :=
  splitext path +:+ digest +:+ ".yaml".
Definition custom_path (path : string) (i : nat) : string :=
  splitext path +:+ "_customtask_cr" +:+ pretty (i + 1) +:+ ".yaml".

(** An auxiliary document that is written: its metadata bear a name. *)
Definition named (cr : dict) : bool :=
  match get "metadata" cr with
  | Some (PDict metadata) => py_true (get_default "name" (PStr "") metadata)
  | _ => false
  end.

(** A loop that writes one document at each turn, when it returns, has
    written the file of each, in turn. *)
Lemma write_each {A} (doc : A → dict) (suffix : A → string) path (l : list A) files u files' :
  fold_io (λ _ x,
             path ← lift (separate_path splitext (Some path) (suffix x));
             write_workflow (doc x) (Some path);;
             mret ()) () l files = (Ok u, files') →
  ∃ written, files' = write_all written files
             ∧ Forall2 (λ x f, file_of (doc x) (splitext path +:+ suffix x) = Ok f) l written.
Proof.
  revert files. induction l as [|x l IH]; intros files; simpl.
  - intros [= _ <-]. by exists [].
  - unfold mbind at 1, io_bind. unfold mbind at 1, io_bind, lift. simpl.
    unfold mbind at 1, io_bind. rewrite _write_workflow_path.
    destruct (file_of (doc x) (splitext path +:+ suffix x)) as [f|e] eqn:Hf; simpl; [|done].
    intros (written & -> & Hall)%IH.
    exists (f :: written). split; [done|]. by constructor.
Qed.

(** The loop over the auxiliary documents, when each goes to a file of its
    own and the loop returns. *)
Lemma loop_crs_separate self path (l : list (nat * dict)) annotations files annotations' files' :
  resource_in_separate_yaml self = true →
  fold_io (write_loop_cr dump_yaml _handle_tekton_pipeline_variables _process_argo_vars
             yaml_load splitext self (Some path)) annotations l files
  = (Ok annotations', files') →
  annotations' = annotations
  ∧ ∃ written, files' = write_all written files
               ∧ Forall2 (λ icr f, file_of icr.2 (loop_path path icr.1) = Ok f)
                         (filter (λ icr, named icr.2 = true) l) written.
Proof.
  intros Hseparate. revert files. induction l as [|[i cr] l IH]; intros files; simpl.
  - intros [= <- <-]. split; [done|]. by exists [].
  - unfold mbind at 1, io_bind. unfold write_loop_cr at 1. rewrite Hseparate.
    unfold mbind at 1, io_bind, lift, getitem. simpl.
    destruct (get "metadata" cr) as [v|] eqn:Hmeta; simpl; [|done].
    destruct v as [| | | | | |metadata|]; simpl; try done.
    destruct (py_true (get_default "name" (PStr "") metadata)) eqn:Hname; simpl.
    + rewrite filter_cons_True by (unfold named; simpl; by rewrite Hmeta).
      unfold mbind at 1, io_bind. unfold mbind at 1, io_bind.
      rewrite _write_workflow_path.
      destruct (file_of cr _) as [f|e] eqn:Hf; simpl; [|done].
      intros [-> (written & -> & Hall)]%IH. split; [done|].
      exists (f :: written). split; [done|]. constructor; [exact Hf|done].
    + rewrite filter_cons_False; [apply IH|].
      unfold named. simpl. rewrite Hmeta, Hname. done.
Qed.

Lemma write_loop_cr_writes P self package_path annotations icr :
  (∀ workflow path f, file_of workflow path = Ok f → P f) →
  writes P (write_loop_cr dump_yaml _handle_tekton_pipeline_variables _process_argo_vars
              yaml_load splitext self package_path annotations icr).
Proof.
  intros HP. unfold write_loop_cr.
  apply writes_bind; [apply silent_writes, silent_lift|intros metadata].
  destruct (py_true _); [|apply silent_writes, silent_ret].
  destruct (resource_in_separate_yaml self).
  - apply writes_bind; [apply silent_writes, silent_lift|intros path].
    apply writes_bind; [|intros ?; apply silent_writes, silent_ret].
    apply _write_workflow_writes. intros. by eapply HP.
  - apply silent_writes.
    apply silent_bind; [apply _write_workflow_silent|intros text].
    apply silent_bind; [apply silent_lift|intros loaded]. apply silent_ret.
Qed.

Lemma write_loop_cr_silent self package_path annotations icr :
  resource_in_separate_yaml self = false →
  silent (write_loop_cr dump_yaml _handle_tekton_pipeline_variables _process_argo_vars
            yaml_load splitext self package_path annotations icr).
Proof.
  intros Hseparate. unfold write_loop_cr. rewrite Hseparate.
  apply silent_bind; [apply silent_lift|intros metadata].
  destruct (py_true _); [|apply silent_ret].
  apply silent_bind; [apply _write_workflow_silent|intros text].
  apply silent_bind; [apply silent_lift|intros loaded]. apply silent_ret.
Qed.

Lemma emit_templates_writes P self package_path component_sha workflow :
  (∀ workflow path f, file_of workflow path = Ok f → P f) →
  writes P (emit_templates dump_yaml _handle_tekton_pipeline_variables _process_argo_vars
              json_loads splitext self package_path component_sha workflow).
Proof.
  intros HP. unfold emit_templates.
  destruct (resource_in_separate_yaml self); [|apply silent_writes, silent_lift].
  apply writes_bind; [|intros ?; apply silent_writes, silent_ret].
  apply writes_fold_io. intros [] kv.
  apply writes_bind; [apply silent_writes, silent_lift|intros path].
  apply writes_bind; [|intros ?; apply silent_writes, silent_ret].
  apply _write_workflow_writes. intros. by eapply HP.
Qed.

Lemma convert_taskspecs_writes P self package_path workflow :
  (∀ workflow path f, file_of workflow path = Ok f → P f) →
  writes P (convert_taskspecs dump_yaml _handle_tekton_pipeline_variables _process_argo_vars
              json_loads sha1_hexdigest splitext tekton_api_version self package_path
              workflow).
Proof.
  intros HP. unfold convert_taskspecs.
  destruct (produce_taskspec self); [apply silent_writes, silent_ret|].
  apply writes_bind; [apply silent_writes, silent_lift|intros tasks].
  apply writes_bind; [apply silent_writes, silent_lift|intros templates].
  apply writes_bind; [apply silent_writes, silent_lift|intros workflow'].
  by apply emit_templates_writes.
Qed.

Lemma convert_taskspecs_silent self package_path workflow :
  resource_in_separate_yaml self = false →
  silent (convert_taskspecs dump_yaml _handle_tekton_pipeline_variables _process_argo_vars
            json_loads sha1_hexdigest splitext tekton_api_version self package_path
            workflow).
Proof.
  intros Hseparate. unfold convert_taskspecs, emit_templates. rewrite Hseparate.
  destruct (produce_taskspec self); [apply silent_ret|].
  repeat (apply silent_bind; [apply silent_lift|intros ?]). apply silent_lift.
Qed.

(** The file of each document that goes to a file of its own before the
    main document: the auxiliary documents that bear a name, and the
    templates made of the inline specifications of the tasks. *)
Definition separate_files (self : compiler) (path : string) (crs : list dict)
    (workflow : dict) (loop_files template_files : list file) : Prop :=
  if resource_in_separate_yaml self then
    Forall2 (λ icr f, file_of icr.2 (loop_path path icr.1) = Ok f)
            (filter (λ icr, named icr.2 = true) (imap pair crs)) loop_files
    ∧ if produce_taskspec self then template_files = []
      else ∃ tasks templates,
             pipeline_tasks workflow = Ok tasks
             ∧ Deps.fold_result (to_task_ref sha1_hexdigest tekton_api_version) ([], []) tasks
               = Ok templates
             ∧ Forall2 (λ kv f, file_of kv.2 (template_path path kv.1) = Ok f)
                       templates.1 template_files
  else loop_files = [] ∧ template_files = [].

(** What [emit_documents] has written when it returns: the files of the
    documents, in the order of the statements. *)
Lemma emit_documents_written self crs workflow path files workflow' files' :
  emit self crs workflow (Some path) files = (Ok workflow', files') →
  ∃ loop_files template_files main custom_files,
    files' = write_all (loop_files ++ template_files ++ main :: custom_files) files
    ∧ separate_files self path crs workflow loop_files template_files
    ∧ file_of workflow' path = Ok main
    ∧ Forall2 (λ icr f, file_of icr.2 (custom_path path icr.1) = Ok f)
              (imap pair (custom_task_crs self)) custom_files.
Proof.
  unfold emit_documents. intros Hrun.
  apply bind_inv in Hrun as [(e & _ & [=])|(annotations & files1 & H1 & Hrun)].
  apply bind_inv in Hrun as [(e & _ & [=])|(workflow1 & files2 & H2 & Hrun)].
  pose proof (silent_lift _ _ _ _ H2) as ->.
  apply bind_inv in Hrun as [(e & _ & [=])|(workflow2 & files3 & H3 & Hrun)].
  apply bind_inv in Hrun as [(e & _ & [=])|(workflow3 & files4 & H4 & Hrun)].
  pose proof (silent_lift _ _ _ _ H4) as ->.
  apply bind_inv in Hrun as [(e & _ & [=])|(written & files5 & H5 & Hrun)].
  rewrite _write_workflow_path in H5.
  destruct (file_of workflow3 path) as [main|e] eqn:Hmain; [|done].
  injection H5 as _ <-.
  apply bind_inv in Hrun as [(e & _ & [=])|([] & files6 & H6 & Hrun)].
  injection Hrun as <- <-.
  apply (write_each snd (λ icr : nat * dict,
                           "_customtask_cr" +:+ pretty (icr.1 + 1) +:+ ".yaml")) in H6
    as (custom_files & -> & Hcustom).
  assert (∃ loop_files template_files,
            files3 = write_all (loop_files ++ template_files) files
            ∧ separate_files self path crs workflow loop_files template_files)
    as (loop_files & template_files & -> & Hseparate).
  { unfold separate_files. destruct (resource_in_separate_yaml self) eqn:Hmode.
    - apply loop_crs_separate in H1 as [-> (loop_files & -> & Hloop)]; [|done].
      rewrite bool_decide_eq_false_2 in H2 by (by intros []). injection H2 as <-.
      unfold convert_taskspecs in H3. destruct (produce_taskspec self).
      + injection H3 as _ <-. exists loop_files, []. by rewrite app_nil_r.
      + apply bind_inv in H3 as [(e & _ & [=])|(tasks & d1 & Htasks & H3)].
        apply bind_inv in H3 as [(e & _ & [=])|(templates & d2 & Htemplates & H3)].
        apply bind_inv in H3 as [(e & _ & [=])|(workflow'' & d3 & Hset & H3)].
        injection Htasks as Htasks <-. injection Htemplates as Htemplates <-.
        injection Hset as _ <-.
        unfold emit_templates in H3. rewrite Hmode in H3.
        apply bind_inv in H3 as [(e & _ & [=])|([] & d4 & H3 & Hret)].
        injection Hret as _ <-.
        apply (write_each snd (λ kv : string * dict, kv.1 +:+ ".yaml")) in H3
          as (template_files & -> & Htemplate).
        exists loop_files, template_files. split; [by rewrite write_all_app|].
        split; [done|]. by exists tasks, templates.
    - apply silent_fold_io in H1 as ->; [|by intros; apply write_loop_cr_silent].
      apply convert_taskspecs_silent in H3 as ->; [|done]. by exists [], []. }
  exists loop_files, template_files, main, custom_files.
  split; [by rewrite app_assoc, (write_all_app (loop_files ++ template_files))|].
  split; [done|]. split; [done|]. exact Hcustom.
Qed.

(** With no file of its own for any resource, [emit_documents] writes
    nothing when it raises. *)
Lemma emit_documents_quiet self crs workflow package_path files e files' :
  resource_in_separate_yaml self = false → custom_task_crs self = [] →
  emit self crs workflow package_path files = (Raise e, files') →
  files' = files.
Proof.
  unfold emit_documents. intros Hseparate Hcrs Hrun. rewrite Hcrs in Hrun.
  apply bind_inv in Hrun as [(e' & H1 & _)|(annotations & files1 & H1 & Hrun)];
    (apply silent_fold_io in H1 as ->;
     [|by intros; apply write_loop_cr_silent]); [done|].
  apply bind_inv in Hrun as [(e' & H2 & _)|(workflow1 & files2 & H2 & Hrun)];
    apply silent_lift in H2 as ->; [done|].
  apply bind_inv in Hrun as [(e' & H3 & _)|(workflow2 & files3 & H3 & Hrun)];
    (apply convert_taskspecs_silent in H3 as ->; [|done]); [done|].
  apply bind_inv in Hrun as [(e' & H4 & _)|(workflow3 & files4 & H4 & Hrun)];
    apply silent_lift in H4 as ->; [done|].
  apply bind_inv in Hrun as [(e' & H5 & _)|(written & files5 & H5 & Hrun)].
  - destruct package_path as [path|]; [|by apply _write_workflow_silent in H5].
    rewrite _write_workflow_path in H5. destruct (file_of workflow3 path); by simplify_eq.
  - by vm_compute in Hrun.
Qed.

End WithEnvironment.

(** A pipeline of one task whose label [owner] has a value that the
    sanitizer would change, compiled into the one file [pipeline.yaml].
    The documents are written as JSON, which is YAML; the passes over
    variables find nothing to change. *)
Definition as_json (v : pyval) : result string :=
  match Json.dumps false v with
  | Some text => Ok text
  | None => Raise TypeError
  end.

Definition labelled_workflow : dict :=
  [("apiVersion", PStr "tekton.dev/v1beta1");
   ("kind", PStr "PipelineRun");
   ("metadata", PDict [("name", PStr "echo");
                       ("labels", PDict [("owner", PStr "Jane Doe")]);
                       ("annotations", PDict [])]);
   ("spec", PDict [("pipelineSpec",
                    PDict [("tasks",
                            PList [PDict [("name", PStr "echo");
                                          ("taskSpec",
                                           PDict [("steps",
                                                   PList [PDict [("name", PStr "main");
                                                                 ("image", PStr "busybox")]])])]])])])].

Definition one_file : compiler := Compiler false true "" [] [].

Definition compile_example (self : compiler) (prepared : result (list dict * dict))
    (package_path : option string) : io unit :=
  _create_and_write_workflow K8s.sanitize_k8s_name as_json (λ d, Ok (PDict d)) Ok
    (λ _, Raise TypeError) (λ _, Raise TypeError) (λ d, as_json (PDict d)) id id
    "tekton.dev/v1beta1" self prepared package_path.

(** C6, as stated, fails: the final validation finds the label, raises,
    and the file is there. *)
Lemma validation_error_leaves_file :
  ∃ msg text files',
    compile_example one_file (Ok ([], labelled_workflow)) (Some "pipeline.yaml") ∅
    = (Raise (RuntimeError msg), files')
    ∧ files' !! "pipeline.yaml" = Some (Yaml, text).
Proof. eexists _, _, _. split; vm_compute; reflexivity. Qed.

(** C6, amended.  An error of [prepare_workflow] is raised before any file
    is written.  A call of [_write_workflow] makes its checks before it
    writes: when it raises, the disk is as it was, and when it returns, the
    path holds the checked text in place of what it held.  When no resource
    goes to a file of its own and there is no custom-task document, an error
    raised before the final validation leaves the disk as it was.  The final
    validation comes last: when it is reached, the disk has taken, in this
    order, the file of every named auxiliary document and of every task
    template (if the resources go to files of their own), the file of the
    main document, and the file of every custom-task document; whatever the
    validation finds, these files stay, and the path of the compilation
    holds the main document unless a custom-task document has the same
    path. *)
Theorem written_before_validation
    (sanitize_k8s_name : k8s_opts → string → string)
    (dump_yaml : pyval → result string)
    (_handle_tekton_pipeline_variables : dict → result pyval)
    (_process_argo_vars : string → result string)
    (yaml_load : string → result pyval)
    (json_loads : pyval → result pyval)
    (json_dumps_indent : dict → result string)
    (sha1_hexdigest splitext : string → string)
    (tekton_api_version : string)
    (self : compiler) (package_path : option string) :
  let compile :=
    _create_and_write_workflow sanitize_k8s_name dump_yaml _handle_tekton_pipeline_variables
      _process_argo_vars yaml_load json_loads json_dumps_indent sha1_hexdigest splitext
      tekton_api_version self in
  let emit :=
    emit_documents dump_yaml _handle_tekton_pipeline_variables _process_argo_vars yaml_load
      json_loads sha1_hexdigest splitext tekton_api_version self in
  let file_of := file_of dump_yaml _handle_tekton_pipeline_variables _process_argo_vars in
  (∀ e files, compile (Raise e) package_path files = (Raise e, files))
  ∧ (∀ workflow path files,
       _write_workflow dump_yaml _handle_tekton_pipeline_variables _process_argo_vars
         workflow (Some path) files
       = match file_of workflow path with
         | Ok f => (Ok None, <[path := (file_package f, file_text f)]> files)
         | Raise e => (Raise e, files)
         end)
  ∧ (∀ crs workflow e files files',
       resource_in_separate_yaml self = false → custom_task_crs self = [] →
       emit crs workflow package_path files = (Raise e, files') →
       compile (Ok (crs, workflow)) package_path files = (Raise e, files))
  ∧ (∀ crs workflow workflow' path files files',
       package_path = Some path →
       emit crs workflow package_path files = (Ok workflow', files') →
       compile (Ok (crs, workflow)) package_path files
       = (_validate_workflow sanitize_k8s_name json_dumps_indent workflow', files')
       ∧ ∃ loop_files template_files main custom_files,
           files' = write_all (loop_files ++ template_files ++ main :: custom_files) files
           ∧ separate_files dump_yaml _handle_tekton_pipeline_variables _process_argo_vars
               sha1_hexdigest splitext tekton_api_version self path crs workflow
               loop_files template_files
           ∧ file_of workflow' path = Ok main
           ∧ Forall2 (λ icr f, file_of icr.2 (custom_path splitext path icr.1) = Ok f)
                     (imap pair (custom_task_crs self)) custom_files
           ∧ ((∀ g, g ∈ custom_files → file_path g ≠ path) →
              files' !! path = Some (file_package main, file_text main))).
Proof.
  intros compile emit file_of'. split; [done|]. split; [|split].
  - intros workflow path files. rewrite _write_workflow_path. unfold file_of'.
    destruct (file_of _ _ _ workflow path) as [f|e] eqn:Hf; [|done].
    simpl. do 2 f_equal. unfold file_of in Hf.
    destruct (checked_yaml_text _ _ _ workflow); simpl in Hf; [|done].
    destruct (package_of path); simpl in Hf; [|done]. by injection Hf as <-.
  - intros crs workflow e files files' Hseparate Hcrs Hrun.
    pose proof Hrun as Hfiles. apply emit_documents_quiet in Hfiles as ->; [|done..].
    unfold compile, _create_and_write_workflow, mbind, io_bind, lift. simpl.
    fold emit. by rewrite Hrun.
  - intros crs workflow workflow' path files files' -> Hrun. split.
    + unfold compile, _create_and_write_workflow, mbind, io_bind, lift. simpl.
      fold emit. by rewrite Hrun.
    + apply emit_documents_written in Hrun
        as (loop_files & template_files & main & custom_files & -> & Hseparate & Hmain
            & Hcustom).
      exists loop_files, template_files, main, custom_files.
      split; [done|]. split; [done|]. split; [done|]. split; [done|].
      intros Hother. rewrite app_assoc.
      assert (file_path main = path) as <-.
      { unfold file_of in Hmain.
        destruct (checked_yaml_text _ _ _ workflow'); simpl in Hmain; [|done].
        destruct (package_of path); simpl in Hmain; [|done]. by injection Hmain as <-. }
      by apply write_all_last.
Qed.

(** A compiler that writes every resource to a file of its own, with one
    custom-task document, and an auxiliary document of a loop. *)
Definition custom_cr : dict :=
  [("apiVersion", PStr "custom.tekton.dev/v1alpha1"); ("kind", PStr "Handler");
   ("metadata", PDict [("name", PStr "handler")]); ("spec", PDict [])].

Definition loop_cr : dict :=
  [("apiVersion", PStr "custom.tekton.dev/v1alpha1"); ("kind", PStr "PipelineLoop");
   ("metadata", PDict [("name", PStr "echo-loop")]); ("spec", PDict [])].

Definition many_files : compiler := Compiler true false "" [] [custom_cr].

Lemma written_before_validation_witness :
  ∃ workflow' files' e,
    emit_documents as_json (λ d, Ok (PDict d)) Ok (λ _, Raise TypeError)
      (λ _, Raise TypeError) id id "tekton.dev/v1beta1" many_files [loop_cr]
      labelled_workflow (Some "pipeline.yaml") ∅ = (Ok workflow', files')
    ∧ compile_example many_files (Ok ([loop_cr], labelled_workflow)) (Some "pipeline.yaml") ∅
      = (Raise e, files')
    ∧ ∃ loop_files template_files main custom_files,
        files' = write_all (loop_files ++ template_files ++ main :: custom_files) ∅
        ∧ length loop_files = 1 ∧ length template_files = 1 ∧ length custom_files = 1.
Proof.
  pose proof (written_before_validation K8s.sanitize_k8s_name as_json
                (λ d, Ok (PDict d)) Ok (λ _, Raise TypeError) (λ _, Raise TypeError)
                (λ d, as_json (PDict d)) id id "tekton.dev/v1beta1" many_files
                (Some "pipeline.yaml")) as (_ & _ & _ & Hlast).
  cbv zeta in Hlast.
  destruct (emit_documents as_json (λ d, Ok (PDict d)) Ok (λ _, Raise TypeError)
              (λ _, Raise TypeError) id id "tekton.dev/v1beta1" many_files [loop_cr]
              labelled_workflow (Some "pipeline.yaml") ∅) as [r files'] eqn:Hrun.
  assert (∃ workflow', r = Ok workflow'
                       ∧ ∃ msg, _validate_workflow K8s.sanitize_k8s_name
                                  (λ d, as_json (PDict d)) workflow'
                                = Raise (RuntimeError msg))
    as (workflow' & -> & msg & Hvalidate).
  { vm_compute in Hrun. injection Hrun as <- _. eexists. split; [done|].
    eexists. vm_compute. reflexivity. }
  destruct (Hlast [loop_cr] labelled_workflow workflow' "pipeline.yaml" ∅ files' eq_refl Hrun)
    as [Hcompile (loop_files & template_files & main & custom_files & Hfiles & Hseparate
                  & _ & Hcustom & _)].
  exists workflow', files', (RuntimeError msg). split; [done|]. split.
  { unfold compile_example. by rewrite Hcompile, Hvalidate. }
  exists loop_files, template_files, main, custom_files. split; [done|].
  unfold separate_files in Hseparate. simpl in Hseparate.
  destruct Hseparate as [Hloop (tasks & templates & Htasks & Htemplates & Htemplate)].
  apply Forall2_length in Hloop, Htemplate, Hcustom.
  vm_compute in Htasks. injection Htasks as <-.
  vm_compute in Htemplates. injection Htemplates as <-.
  split; [by rewrite <-Hloop|]. split; [by rewrite <-Htemplate|by rewrite <-Hcustom].
Defined.

End WriterFacts.

(** ** What the writer leaves on the disk *)

Module WriterInvariants.
Import PyStr PyDict Doc Writer WriterFacts.

(** A file that [_write_workflow] may have written: its text holds no
    unresolved parameter and no Argo variable, and its form is that of its
    extension. *)
Definition accepted (f : file) : Prop :=
  contains "{{pipelineparam" (file_text f) = false
  ∧ Re.findall0 unsupported_vars_re (file_text f) = []
  ∧ match file_package f with
    | TarGz => endswith ".tar.gz" (file_path f) || endswith ".tgz" (file_path f) = true
    | Zip => endswith ".zip" (file_path f) = true
    | Yaml => endswith ".yaml" (file_path f) || endswith ".yml" (file_path f) = true
    end.

(** After writes a path holds what it held, or the last file written to
    it. *)
Lemma write_all_cases written d path :
  write_all written d !! path = d !! path
  ∨ ∃ f, f ∈ written ∧ file_path f = path
         ∧ write_all written d !! path = Some (file_package f, file_text f).
Proof.
  induction written as [|f written IH] using rev_ind; [by left|].
  rewrite write_all_app. simpl. destruct (decide (file_path f = path)) as [<-|Hne].
  - right. exists f. rewrite lookup_insert_eq. split; [|done].
    apply elem_of_app. right. by left.
  - rewrite lookup_insert_ne by done. destruct IH as [IH|(g & Hg & Hpath & IH)]; [by left|].
    right. exists g. split; [|done]. apply elem_of_app. by left.
Qed.

Section WithEnvironment.
Variable sanitize_k8s_name : k8s_opts → string → string.
Variable dump_yaml : pyval → result string.
Variable _handle_tekton_pipeline_variables : dict → result pyval.
Variable _process_argo_vars : string → result string.
Variable yaml_load : string → result pyval.
Variable json_loads : pyval → result pyval.
Variable json_dumps_indent : dict → result string.
Variable sha1_hexdigest : string → string.
Variable splitext : string → string.
Variable tekton_api_version : string.

Lemma checked_yaml_text_checked workflow text :
  checked_yaml_text dump_yaml _handle_tekton_pipeline_variables _process_argo_vars workflow
  = Ok text →
  contains "{{pipelineparam" text = false ∧ Re.findall0 unsupported_vars_re text = [].
Proof.
  unfold checked_yaml_text.
  destruct (has_tasks workflow) as [tasks|]; simpl; [|done].
  destruct (if tasks then _ else _) as [yaml_text|]; simpl; [|done].
  destruct (_process_argo_vars yaml_text) as [text'|]; simpl; [|done].
  case_bool_decide as Hvars; [done|].
  destruct (contains "{{pipelineparam" text') eqn:Hparam; [done|].
  intros [= <-]. by split.
Qed.

Lemma file_of_accepted workflow path f :
  file_of dump_yaml _handle_tekton_pipeline_variables _process_argo_vars workflow path = Ok f →
  accepted f.
Proof.
  unfold file_of.
  destruct (checked_yaml_text _ _ _ workflow) as [text|] eqn:Htext; simpl; [|done].
  destruct (package_of path) as [package|] eqn:Hpackage; simpl; [|done].
  intros [= <-]. apply checked_yaml_text_checked in Htext as [Hparam Hvars].
  unfold accepted. simpl. split; [done|]. split; [done|].
  unfold package_of in Hpackage.
  destruct (endswith ".tar.gz" path || endswith ".tgz" path) eqn:Htar;
    [by injection Hpackage as <-|].
  destruct (endswith ".zip" path) eqn:Hzip; [by injection Hpackage as <-|].
  destruct (endswith ".yaml" path || endswith ".yml" path) eqn:Hyaml;
    [by injection Hpackage as <-|done].
Qed.

Lemma emit_documents_writes self crs workflow package_path :
  writes accepted
    (emit_documents dump_yaml _handle_tekton_pipeline_variables _process_argo_vars yaml_load
       json_loads sha1_hexdigest splitext tekton_api_version self crs workflow package_path).
Proof.
  unfold emit_documents.
  apply writes_bind; [|intros annotations].
  { apply writes_fold_io. intros annotations icr.
    apply write_loop_cr_writes. apply file_of_accepted. }
  apply writes_bind; [apply silent_writes, silent_lift|intros workflow1].
  apply writes_bind; [apply convert_taskspecs_writes, file_of_accepted|intros workflow2].
  apply writes_bind; [apply silent_writes, silent_lift|intros workflow3].
  apply writes_bind; [apply _write_workflow_writes; intros; by eapply file_of_accepted|].
  intros written.
  apply writes_bind; [|intros ?; apply silent_writes, silent_ret].
  apply writes_fold_io. intros [] icr.
  apply writes_bind; [apply silent_writes, silent_lift|intros path].
  apply writes_bind; [|intros ?; apply silent_writes, silent_ret].
  apply _write_workflow_writes. intros. by eapply file_of_accepted.
Qed.

(** X4: Whatever [_create_and_write_workflow] does, and whether it returns or
    raises, what it does to the disk is to write, one after another, files
    whose text is without unresolved parameter ([{{pipelineparam]) and
    without unsupported Argo variable, each in the form that the extension
    of its path names.  So every path holds at the end what it held at the
    start, or such a file; the run removes no file. *)
Theorem written_files_are_accepted (self : compiler)
    (prepare_workflow : result (list dict * dict)) (package_path : option string)
    (files : disk) :
  ∃ r files',
    _create_and_write_workflow sanitize_k8s_name dump_yaml _handle_tekton_pipeline_variables
      _process_argo_vars yaml_load json_loads json_dumps_indent sha1_hexdigest splitext
      tekton_api_version self prepare_workflow package_path files = (r, files')
    ∧ (∃ written, files' = write_all written files ∧ Forall accepted written)
    ∧ ∀ path, files' !! path = files !! path
              ∨ ∃ f, accepted f ∧ file_path f = path
                     ∧ files' !! path = Some (file_package f, file_text f).
Proof.
  match goal with |- ∃ r files', ?m files = _ ∧ _ =>
    assert (writes accepted m) as Hwrites; [|destruct (m files) as [r files'] eqn:Hrun] end.
  { unfold _create_and_write_workflow.
    apply writes_bind; [apply silent_writes, silent_lift|intros prepared].
    apply writes_bind; [apply emit_documents_writes|intros workflow].
    apply silent_writes, silent_lift. }
  exists r, files'. split; [done|].
  apply Hwrites in Hrun as (written & -> & Haccepted).
  split; [by exists written|]. intros path.
  destruct (write_all_cases written files path) as [Hsame|(f & Hf & Hpath & Hlookup)];
    [by left|].
  right. exists f. split; [|done]. rewrite Forall_forall in Haccepted. by apply Haccepted.
Qed.

End WithEnvironment.

End WriterInvariants.

(** ** The final validation *)

Module ValidatorFacts.
Import PyStr PyDict Doc Writer WriterFacts.

(** Induction on a document, through its lists and dictionaries. *)
Section Induction.
Variable P : pyval → Prop.
Hypothesis Hnone : P PNone.
Hypothesis Hbool : ∀ b, P (PBool b).
Hypothesis Hint : ∀ n, P (PInt n).
Hypothesis Hstr : ∀ s, P (PStr s).
Hypothesis Hparam : ∀ p, P (PParam p).
Hypothesis Hlist : ∀ l, Forall P l → P (PList l).
Hypothesis Hdict : ∀ d, Forall (λ kv, P kv.2) d → P (PDict d).
Hypothesis Hspec : ∀ i, P (PSpecOf i).

Fixpoint pyval_ind' (v : pyval) : P v :=
  match v with
  | PNone => Hnone
  | PBool b => Hbool b
  | PInt n => Hint n
  | PStr s => Hstr s
  | PParam p => Hparam p
  | PList l =>
      Hlist l ((fix all (l : list pyval) : Forall P l :=
                  match l with
                  | [] => @List.Forall_nil _ P
                  | x :: l' => @List.Forall_cons _ P x l' (pyval_ind' x) (all l')
                  end) l)
  | PDict d =>
      Hdict d ((fix all (d : list (string * pyval)) : Forall (λ kv, P kv.2) d :=
                  match d with
                  | [] => @List.Forall_nil _ (λ kv, P kv.2)
                  | kv :: d' =>
                      @List.Forall_cons _ (λ kv, P kv.2) kv d' (pyval_ind' kv.2) (all d')
                  end) d)
  | PSpecOf i => Hspec i
  end.
End Induction.

(** [v] is stored under the key [key] in a dictionary of the document. *)
Inductive occurs (key : string) : pyval → pyval → Prop :=
| occurs_here d v : get key d = Some v → occurs key (PDict d) v
| occurs_in_dict d k x v : (k, x) ∈ d → occurs key x v → occurs key (PDict d) v
| occurs_in_list l x v : x ∈ l → occurs key x v → occurs key (PList l) v.

Lemma _find_items_sound key obj :
  ∀ path results item,
    item ∈ _find_items key obj path results → item ∈ results ∨ occurs key obj item.2.
Proof.
  induction obj as [| | | | |l IH|d IH|] using pyval_ind'; intros path results item;
    simpl; try by left.
  - (* a list *)
    generalize 0 as i. revert results.
    induction IH as [|x l Hx _ IHl]; intros results i; [by left|].
    intros [Hin|Hin]%IHl.
    + apply Hx in Hin as [Hin|Hin]; [by left|].
      right. apply occurs_in_list with x; [by left|done].
    + right. inversion Hin as [| |l' x' v' Hx' Hocc]; subst.
      apply occurs_in_list with x'; [by right|done].
  - (* a dictionary *)
    assert (∀ (d' : list (string * pyval)) results,
              Forall (λ kv, ∀ path results item,
                              item ∈ _find_items key kv.2 path results →
                              item ∈ results ∨ occurs key kv.2 item.2) d' →
              item ∈ (fix items (d : list (string * pyval)) (results_dict : dict) : dict :=
                        match d with
                        | [] => results_dict
                        | (k, v) :: d' =>
                            items d' (_find_items key v (path +:+ "." +:+ k) results_dict)
                        end) d' results →
              item ∈ results ∨ ∃ k x, (k, x) ∈ d' ∧ occurs key x item.2) as Hitems.
    { clear. induction d' as [|[k x] d' IHd]; intros results Hall; [by left|].
      apply Forall_cons in Hall as [Hx Hall].
      intros [Hin|(k' & x' & Hin & Hocc)]%IHd; [|right; exists k', x'; split; [by right|done]|done].
      apply Hx in Hin as [Hin|Hin]; [by left|].
      right. exists k, x. split; [by left|done]. }
    intros [Hin|(k & x & Hin & Hocc)]%Hitems; [|right; by eapply occurs_in_dict|done].
    destruct (get key d) as [v|] eqn:Hget; [|by left].
    apply LoopArgsFacts.elem_of_set in Hin as [->|Hin]; [|by left].
    right. by apply occurs_here.
Qed.

Section WithEnvironment.
Variable sanitize_k8s_name : k8s_opts → string → string.
Variable json_dumps_indent : dict → result string.

Lemma comprehension_sound keep d kept item :
  comprehension keep d = Ok kept → item ∈ kept →
  item ∈ d ∧ keep item.1 item.2 = Ok true.
Proof.
  unfold comprehension.
  assert (∀ acc, Deps.fold_result
                   (λ kept kv, b ← keep kv.1 kv.2;
                               Ok (if b : bool then kept ++ [kv] else kept)) acc d = Ok kept →
                 item ∈ kept →
                 item ∈ acc ∨ (item ∈ d ∧ keep item.1 item.2 = Ok true)) as Hgen.
  { induction d as [|kv d IH]; intros acc; simpl.
    - intros [= ->]. by left.
    - destruct (keep kv.1 kv.2) as [b|] eqn:Hkeep; simpl; [|done].
      intros Hfold Hitem. destruct (IH _ Hfold Hitem) as [Hin|[Hin Hkept]].
      + destruct b; [|by left].
        apply elem_of_app in Hin as [Hin|Hin]; [by left|].
        apply list_elem_of_singleton in Hin as ->.
        right. split; [by left|done].
      + right. split; [by right|done]. }
  intros Hfold Hitem. destruct (Hgen [] Hfold Hitem) as [Hin|]; [|done].
  by apply elem_of_nil in Hin.
Qed.

(** The entries that the validation objects to. *)
Definition bad_name (v : pyval) : Prop :=
  ∃ s, v = PStr s ∧ (s ≠ sanitize_k8s_name metadata_name_opts s
                     ∨ s ≠ sanitize_k8s_name param_name_opts s).

Definition bad_labels (v : pyval) : Prop :=
  ∃ d, v = PDict d
       ∧ ∃ kv, kv ∈ d
               ∧ (kv.1 ≠ sanitize_k8s_name key_opts kv.1
                  ∨ ∃ s, kv.2 = PStr s ∧ s ≠ sanitize_k8s_name value_opts s).

Definition bad_annotations (v : pyval) : Prop :=
  ∃ d, v = PDict d ∧ ∃ kv, kv ∈ d ∧ kv.1 ≠ sanitize_k8s_name key_opts kv.1.

Lemma changed_true o v :
  changed sanitize_k8s_name o v = Ok true → ∃ s, v = PStr s ∧ s ≠ sanitize_k8s_name o s.
Proof.
  destruct v; simpl; try done. intros [= Hne%bool_decide_eq_true]. by eexists.
Qed.

Lemma non_k8s_name_true path v :
  non_k8s_name sanitize_k8s_name path v = Ok true → bad_name v.
Proof.
  unfold non_k8s_name, bad_name. destruct (contains "metadata" path); simpl.
  - destruct (changed _ metadata_name_opts v) as [[]|] eqn:Hchanged; simpl; [| |done].
    + apply changed_true in Hchanged as (s & -> & Hne). intros _. exists s. auto.
    + destruct (contains "param" path); [|done].
      intros (s & -> & Hne)%changed_true. exists s. auto.
  - destruct (contains "param" path); [|done].
    intros (s & -> & Hne)%changed_true. exists s. auto.
Qed.

Lemma mapM_result_elem {A B} (f : A → result B) l ys y :
  mapM f l = Ok ys → y ∈ ys → ∃ x, x ∈ l ∧ f x = Ok y.
Proof.
  revert ys. induction l as [|x l IH]; intros ys; simpl.
  - intros [= <-] Hy. by apply elem_of_nil in Hy.
  - destruct (f x) as [y'|] eqn:Hx; simpl; [|done].
    destruct (mapM f l) as [ys'|] eqn:Hl; simpl; [|done].
    intros [= <-] [->|Hy]%elem_of_cons.
    + exists x. split; [by left|done].
    + destruct (IH ys' eq_refl Hy) as (x' & Hx' & Hfx'). exists x'. split; [by right|done].
Qed.

Lemma non_k8s_label_true path v :
  non_k8s_label sanitize_k8s_name path v = Ok true → bad_labels v.
Proof.
  unfold non_k8s_label, bad_labels. destruct (contains "metadata" path); [|done].
  destruct v as [| | | | | |d|]; simpl; try done.
  destruct (mapM _ d) as [flags|] eqn:Hflags; simpl; [|done].
  intros [= Hany]. exists d. split; [done|].
  apply existsb_exists in Hany as (b & Hin%list_elem_of_In & Hb). simpl in Hb. subst b.
  destruct (mapM_result_elem _ _ _ _ Hflags Hin) as (kv & Hkv & Htest).
  exists kv. split; [done|]. simpl in Htest. case_bool_decide as Hkey; [by left|].
  right. by apply changed_true.
Qed.

Lemma non_k8s_annotation_true path v :
  non_k8s_annotation sanitize_k8s_name path v = Ok true → bad_annotations v.
Proof.
  unfold non_k8s_annotation, bad_annotations. destruct (contains "metadata" path); [|done].
  destruct v as [| | | | | |d|]; simpl; try done. intros [= Hany]. exists d. split; [done|].
  apply existsb_exists in Hany as (kv & Hin%list_elem_of_In & Hne%bool_decide_eq_true).
  by exists kv.
Qed.

Lemma comprehension_raise keep d e :
  comprehension keep d = Raise e → ∃ item, item ∈ d ∧ keep item.1 item.2 = Raise e.
Proof.
  unfold comprehension.
  assert (∀ acc, Deps.fold_result
                   (λ kept kv, b ← keep kv.1 kv.2;
                               Ok (if b : bool then kept ++ [kv] else kept)) acc d = Raise e →
                 ∃ item, item ∈ d ∧ keep item.1 item.2 = Raise e) as Hgen; [|apply Hgen].
  induction d as [|kv d IH]; intros acc; simpl; [done|].
  destruct (keep kv.1 kv.2) as [b|e'] eqn:Hkeep; simpl.
  - intros (item & Hin & Hitem)%IH. exists item. split; [by right|done].
  - intros [= ->]. exists kv. split; [by left|done].
Qed.

Lemma changed_raise o v e : changed sanitize_k8s_name o v = Raise e → e = TypeError.
Proof. destruct v; simpl; congruence. Qed.

Lemma mapM_result_raise {A B} (f : A → result B) l e :
  mapM f l = Raise e → ∃ x, x ∈ l ∧ f x = Raise e.
Proof.
  induction l as [|x l IH]; simpl; [done|].
  destruct (f x) as [y|e'] eqn:Hx; simpl.
  - destruct (mapM f l) as [ys|e'] eqn:Hl; simpl; [done|].
    intros [= ->]. destruct (IH eq_refl) as (x' & Hx' & Hfx'). exists x'. split; [by right|done].
  - intros [= ->]. exists x. split; [by left|done].
Qed.

(** The tests raise [TypeError] or [AttributeError] at an entry of the
    wrong type, never the [RuntimeError] of the validation. *)
Lemma tests_raise path v e msg :
  non_k8s_name sanitize_k8s_name path v = Raise e
  ∨ non_k8s_label sanitize_k8s_name path v = Raise e
  ∨ non_k8s_annotation sanitize_k8s_name path v = Raise e →
  e ≠ RuntimeError msg.
Proof.
  intros [Hraise|[Hraise|Hraise]]; intros ->.
  - unfold non_k8s_name in Hraise. destruct (contains "metadata" path); simpl in Hraise.
    + destruct (changed _ metadata_name_opts v) as [[]|] eqn:Hchanged; simpl in Hraise;
        [done| |].
      * destruct (contains "param" path); [|done]. by apply changed_raise in Hraise.
      * injection Hraise as ->. by apply changed_raise in Hchanged.
    + destruct (contains "param" path); [|done]. by apply changed_raise in Hraise.
  - unfold non_k8s_label in Hraise. destruct (contains "metadata" path); [|done].
    destruct v as [| | | | | |d|]; simpl in Hraise; try done.
    destruct (mapM _ d) as [flags|e] eqn:Hflags; simpl in Hraise; [done|].
    injection Hraise as ->.
    apply mapM_result_raise in Hflags as (kv & _ & Htest). simpl in Htest.
    case_bool_decide; [done|]. by apply changed_raise in Htest.
  - unfold non_k8s_annotation in Hraise. destruct (contains "metadata" path); [|done].
    by destruct v.
Qed.

(** X5: The final validation raises its [RuntimeError] only for a document
    that holds, under a key [name], [labels] or [annotations], an entry that
    the sanitizer would change; an entry of the wrong type makes it raise
    [TypeError] or [AttributeError] instead. *)
Theorem validation_rejects_only_offenders (workflow : dict) (msg : string) :
  _validate_workflow sanitize_k8s_name json_dumps_indent workflow = Raise (RuntimeError msg) →
  (∃ v, occurs "name" (PDict workflow) v ∧ bad_name v)
  ∨ (∃ v, occurs "labels" (PDict workflow) v ∧ bad_labels v)
  ∨ (∃ v, occurs "annotations" (PDict workflow) v ∧ bad_annotations v).
Proof.
  unfold _validate_workflow.
  destruct (comprehension (non_k8s_name sanitize_k8s_name)
              (_find_items "name" (PDict workflow) "" [])) as [names|e] eqn:Hnames.
  2: { intros [= ->]. apply comprehension_raise in Hnames as (item & _ & Hraise).
       exfalso. eapply tests_raise; [left; exact Hraise|done]. }
  destruct (comprehension (non_k8s_label sanitize_k8s_name)
              (_find_items "labels" (PDict workflow) "" [])) as [labels|e] eqn:Hlabels.
  2: { intros [= ->]. apply comprehension_raise in Hlabels as (item & _ & Hraise).
       exfalso. eapply tests_raise; [right; left; exact Hraise|done]. }
  destruct (comprehension (non_k8s_annotation sanitize_k8s_name)
              (_find_items "annotations" (PDict workflow) "" []))
    as [annotations|e] eqn:Hannotations.
  2: { intros [= ->]. apply comprehension_raise in Hannotations as (item & _ & Hraise).
       exfalso. eapply tests_raise; [right; right; exact Hraise|done]. }
  cbn [mbind result_bind].
  assert (∀ key keep kept,
            comprehension keep (_find_items key (PDict workflow) "" []) = Ok kept →
            kept ≠ [] →
            ∃ path v, occurs key (PDict workflow) v ∧ keep path v = Ok true) as Hfound.
  { intros key keep kept Hkept Hne. destruct kept as [|[path v] kept]; [done|].
    destruct (comprehension_sound keep _ _ (path, v) Hkept) as [Hin Htrue]; [by left|].
    apply _find_items_sound in Hin as [Hin|Hin]; [by apply elem_of_nil in Hin|].
    by exists path, v. }
  case_bool_decide as Hn.
  { intros _. left. destruct (Hfound _ _ _ Hnames Hn) as (path & v & Hocc & Htrue).
    exists v. split; [done|]. by eapply non_k8s_name_true. }
  case_bool_decide as Hl.
  { intros _. right. left.
    destruct (Hfound _ _ _ Hlabels Hl) as (path & v & Hocc & Htrue).
    exists v. split; [done|]. by eapply non_k8s_label_true. }
  case_bool_decide as Ha; [|done].
  intros _. right. right.
  destruct (Hfound _ _ _ Hannotations Ha) as (path & v & Hocc & Htrue).
  exists v. split; [done|]. by eapply non_k8s_annotation_true.
Qed.

End WithEnvironment.

Lemma validation_rejects_only_offenders_witness :
  (∃ v, occurs "name" (PDict labelled_workflow) v ∧ bad_name K8s.sanitize_k8s_name v)
  ∨ (∃ v, occurs "labels" (PDict labelled_workflow) v ∧ bad_labels K8s.sanitize_k8s_name v)
  ∨ (∃ v, occurs "annotations" (PDict labelled_workflow) v
          ∧ bad_annotations K8s.sanitize_k8s_name v).
Proof.
  eapply (validation_rejects_only_offenders K8s.sanitize_k8s_name
            (λ d, as_json (PDict d)) labelled_workflow).
  vm_compute. reflexivity.
Defined.

End ValidatorFacts.

(** ** Inline specifications turned into task templates *)

Module TemplateFacts.
Import PyStr PyDict Doc Writer PyDictFacts.

Section WithEnvironment.
Variable sha1_hexdigest : string → string.
Variable tekton_api_version : string.

(** The template stored for a digest bears the digest as its name. *)
Definition named_by (digest : string) (task_template : dict) : Prop :=
  ∃ metadata, get "metadata" task_template = Some (PDict metadata)
              ∧ get "name" metadata = Some (PStr digest).

(** What the conversion makes of a task, given the templates
    [component_sha] it ends with. *)
Definition converted (component_sha : list (string * dict)) (task task' : pyval) : Prop :=
  ∃ d, task = PDict d
       ∧ if py_true (get_default "taskSpec" PNone d) then
           ∃ text task_template,
             dumps_sorted (get_default "taskSpec" PNone d) = Ok text
             ∧ task' = PDict (set "taskRef" (PDict [("name", PStr (sha1_hexdigest text))])
                                (remove "taskSpec" d))
             ∧ get (sha1_hexdigest text) component_sha = Some task_template
             ∧ named_by (sha1_hexdigest text) task_template
         else task' = task.

Lemma task_template_named digest taskSpec template :
  task_template tekton_api_version digest taskSpec = Ok template →
  named_by digest template.
Proof.
  unfold Writer.task_template.
  destruct (if py_true _ then _ else _) as [[metadata rest]|]; simpl; [|done].
  intros [= <-]. exists (set "name" (PStr digest) metadata). split; [done|apply get_set_eq].
Qed.

Lemma to_task_ref_spec acc task acc' :
  to_task_ref sha1_hexdigest tekton_api_version acc task = Ok acc' →
  (∀ k t, get k acc.1 = Some t → get k acc'.1 = Some t)
  ∧ ∃ task', acc'.2 = acc.2 ++ [task']
             ∧ ∀ component_sha,
                 (∀ k t, get k acc'.1 = Some t → get k component_sha = Some t) →
                 (∀ k t, get k acc.1 = Some t → named_by k t) →
                 converted component_sha task task'
                 ∧ ∀ k t, get k acc'.1 = Some t → named_by k t.
Proof.
  unfold to_task_ref, converted. destruct task as [| | | | | |d|]; simpl; try done.
  destruct (py_true (get_default "taskSpec" PNone d)) eqn:Htrue; last first.
  { intros [= <-]. simpl. split; [done|]. eexists. split; [done|].
    intros component_sha _ Hnamed. split; [|done]. exists d. by rewrite Htrue. }
  destruct (dumps_sorted _) as [text|] eqn:Htext; simpl; [|done].
  destruct (mem (sha1_hexdigest text) acc.1) eqn:Hmem.
  - simpl. intros [= <-]. simpl. split; [done|]. eexists. split; [done|].
    intros component_sha Hsub Hnamed. split; [|done]. exists d. split; [done|].
    rewrite Htrue. apply mem_get in Hmem as [t Ht].
    exists text, t. split; [done|]. split; [done|]. split; [by apply Hsub|by apply Hnamed].
  - destruct (attr_dict _) as [taskSpec|]; simpl; [|done].
    destruct (task_template _ _ taskSpec) as [t|] eqn:Htemplate; simpl; [|done].
    intros [= <-]. simpl. apply mem_get_false in Hmem.
    apply task_template_named in Htemplate. split.
    { intros k t' Hk. rewrite get_set_ne; [done|]. intros ->. congruence. }
    eexists. split; [done|]. intros component_sha Hsub Hnamed. split.
    + exists d. split; [done|]. rewrite Htrue. exists text, t. split; [done|].
      split; [done|]. split; [|done]. apply Hsub, get_set_eq.
    + intros k t' Hk. destruct (decide (k = sha1_hexdigest text)) as [->|Hne].
      * rewrite get_set_eq in Hk. by injection Hk as <-.
      * rewrite get_set_ne in Hk by done. by apply Hnamed.
Qed.

Lemma to_task_refs_spec tasks acc component_sha tasks' :
  Deps.fold_result (to_task_ref sha1_hexdigest tekton_api_version) acc tasks
  = Ok (component_sha, tasks') →
  (∀ k t, get k acc.1 = Some t → named_by k t) →
  (∀ k t, get k acc.1 = Some t → get k component_sha = Some t)
  ∧ ∃ new, tasks' = acc.2 ++ new ∧ Forall2 (converted component_sha) tasks new.
Proof.
  revert acc. induction tasks as [|task tasks IH]; intros acc; simpl.
  - intros [= ->] _. simpl. split; [done|]. exists []. by rewrite app_nil_r.
  - destruct (to_task_ref _ _ acc task) as [acc1|] eqn:Hstep; simpl; [|done].
    intros Hfold Hnamed.
    apply to_task_ref_spec in Hstep as (Hgrow & task' & Hout & Hstep).
    destruct (Hstep component_sha) as [Hconv Hnamed1].
    { intros k t Hk. eapply IH; [exact Hfold| |exact Hk].
      intros k' t' Hk'. by eapply (Hstep acc1.1). }
    { done. }
    destruct (IH acc1 Hfold Hnamed1) as (Hsub & new & -> & Hall).
    split; [intros k t Hk; by apply Hsub, Hgrow|].
    exists (task' :: new). split; [by rewrite Hout, <-app_assoc|by constructor].
Qed.

(** X6: When inline specifications are turned into task templates, every
    task that carried one ends with a reference, instead of the
    specification, to the template stored under the digest of the
    specification, and that template bears the digest as its name; the other
    tasks are left as they were. *)
Theorem every_reference_has_its_template (tasks : list pyval)
    (component_sha : list (string * dict)) (tasks' : list pyval) :
  Deps.fold_result (to_task_ref sha1_hexdigest tekton_api_version) ([], []) tasks
  = Ok (component_sha, tasks') →
  Forall2 (converted component_sha) tasks tasks'.
Proof.
  intros Hfold. apply to_task_refs_spec in Hfold as (_ & new & -> & Hall); done.
Qed.

End WithEnvironment.

Definition echo_twice : list pyval :=
  [PDict [("name", PStr "first");
          ("taskSpec", PDict [("steps", PList [PDict [("image", PStr "busybox")]])])];
   PDict [("name", PStr "wait"); ("taskRef", PDict [("name", PStr "timer")])];
   PDict [("name", PStr "second");
          ("taskSpec", PDict [("steps", PList [PDict [("image", PStr "busybox")]])])]].

Definition echo_twice_converted : list (string * dict) * list pyval :=
  Eval vm_compute in
    match Deps.fold_result (to_task_ref id "tekton.dev/v1beta1") ([], []) echo_twice with
    | Ok r => r
    | Raise _ => ([], [])
    end.

Lemma every_reference_has_its_template_witness :
  Forall2 (converted id echo_twice_converted.1) echo_twice echo_twice_converted.2.
Proof.
  apply (every_reference_has_its_template id "tekton.dev/v1beta1" echo_twice).
  vm_compute. reflexivity.
Defined.

End TemplateFacts.

(** ** More on the inliner *)

Module InlinerMore.
Import PyDict Doc Deps Inliner PyDictFacts JsonFacts InlinerFacts.

#[local] Arguments inline_cr : simpl never.
#[local] Arguments inline_ref : simpl never.

Lemma inline_ref_frame crs recursive task task' e k :
  inline_ref crs recursive task = Ok (task', e) →
  k ≠ "taskRef" → k ≠ "taskSpec" → get k task' = get k task.
Proof.
  unfold inline_ref. intros Hrun Href Hspec.
  destruct (get "taskRef" task) as [r|]; [|by injection Hrun as <- _].
  destruct (as_dict r) as [ref|]; simpl in Hrun; [|done].
  destruct (get "name" ref) as [n|]; [|by injection Hrun as <- _].
  destruct (py_in n recursive); [by injection Hrun as <- _|].
  destruct (getitem "apiVersion" ref) as [av|]; simpl in Hrun; [|done].
  destruct (getitem "kind" ref) as [kd|]; simpl in Hrun; [|done].
  apply inline_cr_fold in Hrun as [(_ & -> & _)|(icr & _ & _ & _ & -> & _)]; [done|].
  by rewrite get_remove_ne, get_set_ne.
Qed.

(** The name of a parameter, for the order of [sorted]. *)
Definition param_name (p : pyval) : string :=
  match p with
  | PDict d => match get "name" d with Some (PStr s) => s | _ => "" end
  | _ => ""
  end.

Definition by_name (p q : pyval) : Prop := String.le (param_name p) (param_name q).

Lemma Sorted_fmap_on {A B} (f : A → B) (R1 : relation A) (R2 : relation B)
    (P : A → Prop) l :
  (∀ x y, P x → P y → R1 x y → R2 (f x) (f y)) →
  Forall P l → Sorted R1 l → Sorted R2 (f <$> l).
Proof.
  intros Hf Hall Hsorted. induction Hsorted as [|x l _ IH Hhd]; simpl; [constructor|].
  apply Forall_cons in Hall as [Hx Hall]. constructor; [by apply IH|].
  destruct Hhd as [|y l Hxy]; simpl; constructor.
  apply Forall_cons in Hall as [Hy _]. by apply Hf.
Qed.

Lemma sort_by_name_spec params sorted :
  sort_by_name params = Ok sorted →
  ∃ l l', params = PList l ∧ sorted = PList l' ∧ l' ≡ₚ l ∧ Sorted by_name l'.
Proof.
  unfold sort_by_name. destruct params as [| | | | |l| |]; simpl; try done.
  destruct (mapM _ l) as [keyed|] eqn:Hkeyed; simpl; [|done].
  intros [= <-]. exists l, (sorted_items keyed).*2. split; [done|]. split; [done|].
  assert (keyed.*2 = l ∧ Forall (λ kx, param_name kx.2 = kx.1) keyed) as [Hvalues Hkeys].
  { clear -Hkeyed. revert keyed Hkeyed. induction l as [|p l IH]; intros keyed; simpl.
    - by intros [= <-].
    - destruct (as_dict p) as [d|] eqn:Hd; simpl; [|done].
      unfold getitem. destruct (get "name" d) as [name|] eqn:Hname; simpl; [|done].
      destruct name as [| | |s| | | |]; simpl; try done.
      destruct (mapM _ l) as [rest|] eqn:Hrest; simpl; [|done].
      intros [= <-]. destruct (IH rest eq_refl) as [<- Hall]. split; [done|].
      constructor; [|done]. simpl. apply as_dict_ok in Hd as ->. simpl. by rewrite Hname. }
  split.
  - rewrite <-Hvalues. apply fmap_Permutation, sorted_items_perm.
  - apply (Sorted_fmap_on snd key_le by_name (λ kx, param_name kx.2 = kx.1));
      [| |apply sorted_items_sorted].
    + intros x y Hx Hy. unfold key_le, by_name. by rewrite Hx, Hy.
    + by rewrite sorted_items_perm.
Qed.

Lemma inline_task_frame pipeline_labels crs recursive task task' e :
  inline_task pipeline_labels crs recursive task = Ok (task', e) →
  (∀ k, k ≠ "params" → k ≠ "taskRef" → k ≠ "taskSpec" → get k task' = get k task)
  ∧ (∀ params, get "params" task = Some params →
       ∃ l l', params = PList l ∧ get "params" task' = Some (PList l')
               ∧ l' ≡ₚ l ∧ Sorted by_name l')
  ∧ (get "params" task = None → get "params" task' = None).
Proof.
  unfold inline_task. intros Hrun.
  assert (∃ t1, (match get "params" task with
                 | Some params => params ← sort_by_name params; Ok (set "params" params task)
                 | None => Ok task
                 end) = Ok t1
                ∧ ∃ t2, inline_ref crs recursive t1 = Ok (t2, e)
                        ∧ label_cache pipeline_labels t2 = Ok task') as (t1 & H1 & t2 & H2 & H3).
  { assert (∃ t1, (match get "params" task with
                   | Some params =>
                       params ← sort_by_name params; Ok (set "params" params task)
                   | None => Ok task
                   end) = Ok t1) as [t1 H1].
    { destruct (get "params" task) as [params|]; [|by exists task].
      destruct (sort_by_name params) as [sorted|]; simpl in *; [by eexists|done]. }
    exists t1. split; [exact H1|]. rewrite H1 in Hrun. simpl in Hrun.
    destruct (inline_ref crs recursive t1) as [[u2 e2]|] eqn:H2; simpl in Hrun;
      [|discriminate Hrun].
    destruct (label_cache pipeline_labels u2) as [u3|] eqn:H3; simpl in Hrun;
      [|discriminate Hrun].
    injection Hrun as <- <-. by exists u2. }
  apply label_cache_spec in H3 as (Hlabel & _ & _).
  pose proof (inline_ref_frame _ _ _ _ _ "params" H2 ltac:(done) ltac:(done)) as Hparams.
  split; [|split].
  - intros k Hk1 Hk2 Hk3. rewrite Hlabel by done.
    rewrite (inline_ref_frame _ _ _ _ _ k H2) by done.
    destruct (get "params" task) as [params|].
    + destruct (sort_by_name params) as [sorted|]; simpl in H1; [|done].
      injection H1 as <-. by rewrite get_set_ne.
    + by injection H1 as <-.
  - intros params Hget. rewrite Hget in H1.
    destruct (sort_by_name params) as [sorted|] eqn:Hsort; simpl in H1; [|done].
    injection H1 as <-.
    apply sort_by_name_spec in Hsort as (l & l' & -> & -> & Hperm & Hsorted).
    exists l, l'. split; [done|]. split; [|done].
    by rewrite Hlabel, Hparams, get_set_eq.
  - intros Hnone. rewrite Hnone in H1. injection H1 as <-.
    by rewrite Hlabel, Hparams.
Qed.

(** X7: [_inline_tasks] returns the tasks it was given, one for one and in
    their order, and changes nothing of a task but its [params], [taskRef]
    and [taskSpec]: the name and every other key stay. *)
Theorem inlining_leaves_other_keys (pipeline_labels : dict) (tasks crs : list dict)
    (recursive_tasks : list pyval) (tasks' : list dict) (inlined : list pyval) :
  _inline_tasks pipeline_labels tasks crs recursive_tasks = Ok (tasks', inlined) →
  Forall2 (λ task task', ∀ k, k ≠ "params" → k ≠ "taskRef" → k ≠ "taskSpec" →
                              get k task' = get k task) tasks tasks'.
Proof.
  intros Hall. apply _inline_tasks_spec in Hall. eapply Forall2_impl; [exact Hall|].
  intros task task' (e & Hrun & _). by apply inline_task_frame in Hrun as (? & _).
Qed.

(** X8: [_inline_tasks] sorts the parameters of every task by name: the list
    it leaves is a rearrangement of the one it found, in ascending order of
    the names; a task without parameters gets none. *)
Theorem inlining_sorts_params (pipeline_labels : dict) (tasks crs : list dict)
    (recursive_tasks : list pyval) (tasks' : list dict) (inlined : list pyval) :
  _inline_tasks pipeline_labels tasks crs recursive_tasks = Ok (tasks', inlined) →
  Forall2 (λ task task',
             match get "params" task with
             | Some params =>
                 ∃ l l', params = PList l ∧ get "params" task' = Some (PList l')
                         ∧ l' ≡ₚ l ∧ Sorted by_name l'
             | None => get "params" task' = None
             end) tasks tasks'.
Proof.
  intros Hall. apply _inline_tasks_spec in Hall. eapply Forall2_impl; [exact Hall|].
  intros task task' (e & Hrun & _). apply inline_task_frame in Hrun as (_ & Hsome & Hnone).
  destruct (get "params" task) as [params|]; [by apply Hsome|by apply Hnone].
Qed.

(** Two tasks, the first with parameters out of order and a run-after
    list, and no auxiliary document. *)
Definition unsorted_tasks : list dict :=
  [[("name", PStr "train");
    ("params", PList [PDict [("name", PStr "rate"); ("value", PStr "0.1")];
                      PDict [("name", PStr "epochs"); ("value", PStr "3")]]);
    ("runAfter", PList [PStr "load"]);
    ("taskSpec", PDict [("steps", PList [])])];
   loop_reference "load" "loader"].

Definition unsorted_tasks_inlined : list dict * list pyval :=
  Eval vm_compute in
    match _inline_tasks [] unsorted_tasks [] [] with
    | Ok r => r
    | Raise _ => ([], [])
    end.

Lemma inlining_leaves_other_keys_witness :
  Forall2 (λ task task', ∀ k, k ≠ "params" → k ≠ "taskRef" → k ≠ "taskSpec" →
                              get k task' = get k task)
          unsorted_tasks unsorted_tasks_inlined.1.
Proof.
  apply (inlining_leaves_other_keys [] unsorted_tasks [] [] _ unsorted_tasks_inlined.2).
  vm_compute. reflexivity.
Defined.

Lemma inlining_sorts_params_witness :
  Forall2 (λ task task',
             match get "params" task with
             | Some params =>
                 ∃ l l', params = PList l ∧ get "params" task' = Some (PList l')
                         ∧ l' ≡ₚ l ∧ Sorted by_name l'
             | None => get "params" task' = None
             end) unsorted_tasks unsorted_tasks_inlined.1.
Proof.
  apply (inlining_sorts_params [] unsorted_tasks [] [] _ unsorted_tasks_inlined.2).
  vm_compute. reflexivity.
Defined.

(** *** Errors of the inliner *)

Lemma inline_cr_hit av kd n task e0 icr v :
  cr_name icr.2 = Ok v → py_eq v n = true → is_Some (get "spec" icr.2) →
  inline_cr av kd n (task, e0) icr
  = match get "taskRef" task with
    | Some _ => Ok (remove "taskRef" (set "taskSpec" (inlined_spec av kd icr.1) task),
                    e0 ++ [n])
    | None => Raise (KeyError "taskRef")
    end.
Proof.
  intros Hv Heq [spec Hspec]. unfold inline_cr. rewrite Hv. simpl. rewrite Heq.
  unfold getitem. rewrite Hspec. simpl.
  destruct (get "taskRef" task) as [r|] eqn:Href.
  - rewrite (proj2 (mem_get _ _)); [done|]. rewrite get_set_ne by done. by rewrite Href.
  - rewrite (proj2 (mem_get_false _ _)); [done|]. by rewrite get_set_ne.
Qed.

Lemma inline_cr_miss av kd n task e0 icr v :
  cr_name icr.2 = Ok v → py_eq v n = false →
  inline_cr av kd n (task, e0) icr = Ok (task, e0).
Proof. intros Hv Heq. unfold inline_cr. rewrite Hv. simpl. by rewrite Heq. Qed.

Lemma inline_cr_second av kd n task e0 icrs :
  get "taskRef" task = None →
  Forall (λ icr, is_Some (get "spec" icr.2) ∧ ∃ v, cr_name icr.2 = Ok v) icrs →
  Exists (λ icr, named icr.2 n) icrs →
  fold_result (inline_cr av kd n) (task, e0) icrs = Raise (KeyError "taskRef").
Proof.
  intros Hno Hall Hex. induction icrs as [|icr icrs IH]; [by apply Exists_nil in Hex|].
  apply Forall_cons in Hall as [[Hspec [v Hv]] Hall]. simpl.
  destruct (py_eq v n) eqn:Heq.
  - rewrite (inline_cr_hit _ _ _ _ _ _ v), Hno by done. done.
  - rewrite (inline_cr_miss _ _ _ _ _ _ v) by done. simpl. apply IH; [done|].
    apply Exists_cons in Hex as [(v' & Hv' & Heq')|Hex]; [|done].
    rewrite Hv in Hv'. injection Hv' as <-. congruence.
Qed.

(** X9: A reference that may be inlined has to carry [apiVersion] and [kind],
    whether or not a document bears its name; and when two auxiliary
    documents bear the name, the second match finds the reference gone and
    the inlining raises [KeyError] for [taskRef]. *)
Theorem inlining_errors (crs : list dict) (recursive_tasks : list pyval) (task ref : dict)
    (n : pyval) :
  get "taskRef" task = Some (PDict ref) → get "name" ref = Some n →
  py_in n recursive_tasks = false →
  (get "apiVersion" ref = None →
   inline_ref crs recursive_tasks task = Raise (KeyError "apiVersion"))
  ∧ (is_Some (get "apiVersion" ref) → get "kind" ref = None →
     inline_ref crs recursive_tasks task = Raise (KeyError "kind"))
  ∧ (is_Some (get "apiVersion" ref) → is_Some (get "kind" ref) →
     Forall (λ cr, is_Some (get "spec" cr) ∧ ∃ v, cr_name cr = Ok v) crs →
     ∀ i j cr cr', i < j → crs !! i = Some cr → crs !! j = Some cr' →
                   named cr n → named cr' n →
                   inline_ref crs recursive_tasks task = Raise (KeyError "taskRef")).
Proof.
  intros Href Hname Hrec. unfold inline_ref. rewrite Href. simpl. rewrite Hname, Hrec.
  unfold getitem. split; [by intros ->|]. split.
  { intros [av ->] ->. done. }
  intros [av ->] [kd ->] Hall i j cr cr' Hij Hi Hj Hn Hn'. simpl.
  assert (Forall (λ icr : nat * dict, is_Some (get "spec" icr.2)
                                      ∧ ∃ v, cr_name icr.2 = Ok v) (imap pair crs)) as Hall'.
  { apply Forall_forall. intros [k c] (k' & c' & [= -> ->] & Hk)%elem_of_lookup_imap.
    rewrite Forall_forall in Hall. apply Hall. by eapply list_elem_of_lookup_2. }
  assert (imap pair crs !! i = Some (i, cr)) as Hi' by by rewrite list_lookup_imap, Hi.
  assert (imap pair crs !! j = Some (j, cr')) as Hj' by by rewrite list_lookup_imap, Hj.
  apply list_elem_of_split_length in Hi' as (before & after & Hsplit & Hlen).
  assert (Exists (λ icr : nat * dict, named icr.2 n) after) as Hlater.
  { rewrite Hsplit in Hj'. rewrite lookup_app_r in Hj' by lia.
    destruct (j - length before) as [|k] eqn:Hk; [lia|]. simpl in Hj'.
    apply Exists_exists. exists (j, cr'). split; [by eapply list_elem_of_lookup_2|done]. }
  rewrite Hsplit. rewrite Hsplit in Hall'. clear Hsplit.
  apply Forall_app in Hall' as [Hbefore Hrest].
  apply Forall_cons in Hrest as [[Hspec [v Hv]] Hafter].
  assert (∀ t e0, is_Some (get "taskRef" t) →
            fold_result (inline_cr av kd n) (t, e0) (before ++ (i, cr) :: after)
            = Raise (KeyError "taskRef")) as Hgen; [|apply Hgen; by rewrite Href].
  clear Hlen. induction before as [|icr before IH]; intros t e0 [r Ht]; simpl.
  - destruct Hn as (v' & Hv' & Heq). simpl in Hv. rewrite Hv in Hv'. injection Hv' as <-.
    rewrite (inline_cr_hit _ _ _ _ _ _ v), Ht by done. simpl.
    apply inline_cr_second; [apply get_remove_eq|done..].
  - apply Forall_cons in Hbefore as [[Hspec' [w Hw]] Hbefore].
    destruct (py_eq w n) eqn:Heq.
    + rewrite (inline_cr_hit _ _ _ _ _ _ w), Ht by done. simpl.
      apply inline_cr_second; [apply get_remove_eq| |].
      * apply Forall_app. split; [done|]. constructor; [|done]. split; [done|by eexists].
      * apply Exists_app. right. by left.
    + rewrite (inline_cr_miss _ _ _ _ _ _ w) by done. simpl. apply IH; [done|by eexists].
Qed.

Definition twice_named : list dict :=
  [loop_document "loop-a" []; loop_document "loop-a" []].

Lemma inlining_errors_witness :
  (get "apiVersion" [("apiVersion", PStr "custom.tekton.dev/v1alpha1");
                     ("kind", PStr "PipelineLoop"); ("name", PStr "loop-a")] = None →
   inline_ref twice_named [] (loop_reference "main" "loop-a") = Raise (KeyError "apiVersion"))
  ∧ (is_Some (get "apiVersion" [("apiVersion", PStr "custom.tekton.dev/v1alpha1");
                                ("kind", PStr "PipelineLoop"); ("name", PStr "loop-a")]) →
     get "kind" [("apiVersion", PStr "custom.tekton.dev/v1alpha1");
                 ("kind", PStr "PipelineLoop"); ("name", PStr "loop-a")] = None →
     inline_ref twice_named [] (loop_reference "main" "loop-a") = Raise (KeyError "kind"))
  ∧ (is_Some (get "apiVersion" [("apiVersion", PStr "custom.tekton.dev/v1alpha1");
                                ("kind", PStr "PipelineLoop"); ("name", PStr "loop-a")]) →
     is_Some (get "kind" [("apiVersion", PStr "custom.tekton.dev/v1alpha1");
                          ("kind", PStr "PipelineLoop"); ("name", PStr "loop-a")]) →
     Forall (λ cr, is_Some (get "spec" cr) ∧ ∃ v, cr_name cr = Ok v) twice_named →
     ∀ i j cr cr', i < j → twice_named !! i = Some cr → twice_named !! j = Some cr' →
                   named cr (PStr "loop-a") → named cr' (PStr "loop-a") →
                   inline_ref twice_named [] (loop_reference "main" "loop-a")
                   = Raise (KeyError "taskRef")).
Proof. by apply (inlining_errors twice_named [] (loop_reference "main" "loop-a")). Defined.

(** The two documents of one name do raise. *)
Example twice_named_raises :
  inline_ref twice_named [] (loop_reference "main" "loop-a") = Raise (KeyError "taskRef").
Proof. by vm_compute. Qed.

End InlinerMore.

(** ** More on the dependency deriver *)

Module DepsMore.
Import PyStr Deps DepsFacts.

Lemma fold_result_keeps {A B} (P : B → Prop) (f : B → A → result B) l b b' :
  (∀ b x b', P b → f b x = Ok b' → P b') → P b → fold_result f b l = Ok b' → P b'.
Proof.
  intros Hf. revert b. induction l as [|x l IH]; intros b Hb; simpl.
  - by intros [= <-].
  - destruct (f b x) as [b1|] eqn:Hx; simpl; [|done]. apply IH. by eapply Hf.
Qed.

(** No edge of the map leads to a name that holds [condition-]. *)
Definition condition_free (dependencies : depmap) : Prop :=
  ∀ k x, x ∈ dependencies !!! k → contains "condition-" x = false.

Lemma skip_conditions_head upstream_groups x rest :
  skip_conditions upstream_groups = x :: rest → contains "condition-" x = false.
Proof.
  induction upstream_groups as [|g l IH]; simpl; [done|].
  destruct (contains "condition-" g) eqn:Hg; [done|]. by intros [= <- _].
Qed.

Lemma add_dependency_free dependencies upstream_groups downstream_groups dependencies' :
  condition_free dependencies →
  add_dependency dependencies (skip_conditions upstream_groups) downstream_groups
  = Ok dependencies' →
  condition_free dependencies'.
Proof.
  intros Hfree. unfold add_dependency.
  destruct (skip_conditions upstream_groups) as [|x rest] eqn:Hskip; [by intros [= <-]|].
  destruct downstream_groups as [|d down]; [done|]. intros [= <-] k y.
  destruct (decide (k = d)) as [->|Hne].
  - rewrite lookup_total_insert_eq. intros [Hy|Hy]%elem_of_union.
    + apply elem_of_singleton in Hy as ->. by eapply skip_conditions_head.
    + by eapply Hfree.
  - rewrite lookup_total_insert_ne by done. apply Hfree.
Qed.

Section WithPipeline.
Variable ops : list Op.
Variable op_groups opsgroups_groups : gmap string (list string).
Variable opsgroups : gmap string OpsGroup.
Variable condition_params : string → list PipelineParam.

Lemma op_dependency_free op dependencies name dependencies' :
  condition_free dependencies →
  op_dependency ops op_groups opsgroups_groups opsgroups op dependencies name
  = Ok dependencies' →
  condition_free dependencies'.
Proof.
  intros Hfree. unfold op_dependency. destruct (resolve _ _ name) as [up|].
  - destruct (_get_uncommon_ancestors _ _ _ _) as [[ug dg]|]; simpl; [|done].
    by apply add_dependency_free.
  - destruct (contains _ _); [by intros [= <-]|done].
Qed.

Lemma group_dependency_free group dependencies name dependencies' :
  condition_free dependencies →
  group_dependency ops op_groups opsgroups_groups opsgroups group dependencies name
  = Ok dependencies' →
  condition_free dependencies'.
Proof.
  intros Hfree. unfold group_dependency. destruct (resolve _ _ name) as [up|]; [|done].
  destruct (_get_uncommon_ancestors _ _ _ _) as [[ug dg]|]; simpl; [|done].
  by apply add_dependency_free.
Qed.

Lemma _get_dependency_opsgroup_free group :
  ∀ dependencies dependencies',
    condition_free dependencies →
    _get_dependency_opsgroup ops op_groups opsgroups_groups opsgroups condition_params
      group dependencies = Ok dependencies' →
    condition_free dependencies'.
Proof.
  induction group as [group IH] using OpsGroup_tree_ind. intros deps deps' Hfree.
  rewrite _get_dependency_opsgroup_unfold.
  destruct (fold_result (group_dependency _ _ _ _ group) _ _) as [d1|] eqn:H1; simpl; [|done].
  assert (condition_free d1) as Hfree1.
  { eapply (fold_result_keeps condition_free); [|exact Hfree|exact H1].
    intros b x b' Hb. by apply group_dependency_free. }
  clear H1 Hfree. revert d1 Hfree1 IH.
  induction (g_groups group) as [|sub gs IHgs]; intros d1 Hfree1; simpl.
  - by intros _ [= <-].
  - intros [Hs Hgs]%Forall_cons.
    destruct (_get_dependency_opsgroup _ _ _ _ _ sub d1) as [d2|] eqn:Hsub; simpl; [|done].
    apply IHgs; [by eapply Hs|done].
Qed.

(** X10: No dependency that [_get_dependencies] records leads to an entity
    whose name holds [condition-]: such elements of the upstream tail are
    passed over before the edge is made, for the ops and for the groups
    alike. *)
Theorem no_dependency_on_a_condition (root_group : OpsGroup) (dependencies : depmap) :
  _get_dependencies ops op_groups opsgroups_groups opsgroups condition_params root_group
  = Ok dependencies →
  ∀ downstream upstream,
    upstream ∈ dependencies !!! downstream → contains "condition-" upstream = false.
Proof.
  unfold _get_dependencies.
  destruct (fold_result _ ∅ ops) as [d1|] eqn:H1; simpl; [|done].
  intros H2. eapply _get_dependency_opsgroup_free; [|exact H2].
  eapply (fold_result_keeps condition_free); [| |exact H1].
  - intros b op b' Hb. apply (fold_result_keeps condition_free); [|done].
    intros c name c' Hc. by apply op_dependency_free.
  - intros k x. rewrite lookup_total_empty. by intros ?%elem_of_empty.
Qed.

End WithPipeline.

Lemma no_dependency_on_a_condition_witness : contains "condition-" "flip" = false.
Proof.
  apply (no_dependency_on_a_condition gated_ops gated_paths gated_group_paths
           (_get_groups gated_root) (λ _, []) gated_root
           {[ "report" := {[ "flip" ]} ]} ltac:(by vm_compute) "report" "flip").
  rewrite lookup_total_singleton_eq. set_solver.
Defined.

(** *** [_get_groups] *)

Lemma _get_groups_unfold group :
  _get_groups group
  = foldl (λ groups g, _get_groups g ∪ groups) {[ g_name group := group ]} (g_groups group).
Proof. by destruct group. Qed.

Lemma _get_groups_fold_Some children :
  ∀ init k g,
    foldl (λ groups g, _get_groups g ∪ groups) init children !! k = Some g →
    init !! k = Some g ∨ ∃ child, child ∈ children ∧ _get_groups child !! k = Some g.
Proof.
  induction children as [|c children IH]; intros init k g; simpl; [by left|].
  intros [[Hc|[_ Hinit]]%lookup_union_Some_raw|(child & Hin & Hchild)]%IH.
  - right. exists c. split; [by left|done].
  - by left.
  - right. exists child. split; [by right|done].
Qed.

Lemma _get_groups_fold_is_Some children :
  ∀ init k,
    is_Some (init !! k) ∨ (∃ child, child ∈ children ∧ is_Some (_get_groups child !! k)) →
    is_Some (foldl (λ groups g, _get_groups g ∪ groups) init children !! k).
Proof.
  induction children as [|c children IH]; intros init k; simpl.
  - intros [Hinit|(child & Hin & _)]; [done|by apply elem_of_nil in Hin].
  - intros [Hinit|(child & [->|Hin]%elem_of_cons & Hchild)]; apply IH.
    + left. apply lookup_union_is_Some. by right.
    + left. apply lookup_union_is_Some. by left.
    + right. by exists child.
Qed.

(** X11: [_get_groups] finds the groups of the tree and nothing else: every
    group of the tree has an entry under its name, and every entry is a
    group of the tree, stored under its own name. *)
Theorem _get_groups_are_the_tree (root_group : OpsGroup) :
  (∀ g, in_tree g root_group → is_Some (_get_groups root_group !! g_name g))
  ∧ (∀ k g, _get_groups root_group !! k = Some g → in_tree g root_group ∧ g_name g = k).
Proof.
  induction root_group as [root IH] using OpsGroup_tree_ind. split.
  - intros g Htree. rewrite _get_groups_unfold. apply _get_groups_fold_is_Some.
    inversion Htree as [|sub root' Hsub Hin]; subst.
    + left. rewrite lookup_singleton_eq. by eexists.
    + right. exists sub. split; [done|].
      rewrite Forall_forall in IH. by apply (IH sub Hsub).
  - intros k g. rewrite _get_groups_unfold.
    intros Hfound. apply _get_groups_fold_Some in Hfound as [Hroot|(child & Hin & Hchild)].
    + apply lookup_singleton_Some in Hroot as [<- <-]. split; [constructor|done].
    + rewrite Forall_forall in IH. destruct (IH child Hin) as [_ Hsome].
      destruct (Hsome k g Hchild) as [Htree Hname]. split; [|done].
      by eapply in_tree_child.
Qed.

End DepsMore.

(** ** More on the task references *)

Module TaskRefsMore.
Import PyStr PyDict Doc Deps Inliner TaskRefs PyDictFacts LoopArgsFacts InlinerFacts.

(** The command line that gives the flags [kvs]: each key as [--key],
    followed by its value. *)
Definition flags (kvs : dict) : list pyval :=
  flat_map (λ kv, [PStr ("--" +:+ kv.1); kv.2]) kvs.

Lemma startswith_dashes k : startswith "--" (String "-" (String "-" k)) = true.
Proof. unfold startswith. simpl. by destruct k. Qed.

Lemma find_parameter_app_flags kvs rest acc :
  find_parameter (flags kvs ++ rest) acc
  = find_parameter rest (foldl (λ d kv, set kv.1 kv.2 d) acc kvs).
Proof.
  revert acc. induction kvs as [|[k v] kvs IH]; intros acc; [done|].
  simpl. by rewrite startswith_dashes.
Qed.

Lemma foldl_set_fresh (kvs acc : dict) :
  NoDup (acc.*1 ++ kvs.*1) → foldl (λ d kv, set kv.1 kv.2 d) acc kvs = acc ++ kvs.
Proof.
  revert acc. induction kvs as [|[k v] kvs IH]; intros acc Hnodup; simpl.
  - by rewrite app_nil_r.
  - simpl in Hnodup. rewrite set_fresh.
    + rewrite IH; [by rewrite <-app_assoc|].
      rewrite fmap_app. simpl. by rewrite <-app_assoc.
    + apply NoDup_app in Hnodup as (_ & Hdisjoint & _). intros Hk.
      apply (Hdisjoint k Hk). by left.
Qed.

(** X12: [find_parameter] reads back the flags of a command line: a line made
    of [--key value] pairs gives the dictionary of the pairs, a later pair
    replacing an earlier one of the same key (so pairs of distinct keys come
    back as they were, whatever the values, which are never taken for
    flags); a flag that ends the line, without value, raises [IndexError]; a
    word that does not begin with two dashes is passed over. *)
Theorem find_parameter_reads_flags (kvs : dict) :
  find_parameter (flags kvs) [] = Ok (foldl (λ d kv, set kv.1 kv.2 d) [] kvs)
  ∧ (NoDup kvs.*1 → find_parameter (flags kvs) [] = Ok kvs)
  ∧ (∀ k, find_parameter (flags kvs ++ [PStr ("--" +:+ k)]) [] = Raise IndexError)
  ∧ (∀ word rest, startswith "--" word = false →
                  find_parameter (flags kvs ++ PStr word :: flags rest) []
                  = find_parameter (flags (kvs ++ rest)) []).
Proof.
  assert (find_parameter (flags kvs) [] = Ok (foldl (λ d kv, set kv.1 kv.2 d) [] kvs)) as Hread.
  { rewrite <-(app_nil_r (flags kvs)). by rewrite find_parameter_app_flags. }
  split; [done|]. split; [|split].
  - intros Hnodup. rewrite Hread. by rewrite foldl_set_fresh.
  - intros k. rewrite find_parameter_app_flags. simpl. by rewrite startswith_dashes.
  - intros word rest Hword. rewrite find_parameter_app_flags. simpl. rewrite Hword.
    unfold flags. rewrite flat_map_app. fold (flags kvs) (flags rest).
    by rewrite find_parameter_app_flags.
Qed.

Section WithConstants.
Variable TEKTON_CUSTOM_TASK_IMAGES : list pyval.
Variable DEFAULT_CONDITION_OUTPUT_KEYWORD : string.
Variable literal_eval : pyval → result pyval.

Lemma custom_task_ref_name name orig step task_ref :
  custom_task_ref literal_eval name orig step = Ok task_ref → get "name" task_ref = Some name.
Proof.
  unfold custom_task_ref.
  destruct (as_list (get_default "args" _ step)) as [args|]; simpl; [|done].
  destruct (as_list (get_default "command" _ step)) as [command|]; simpl; [|done].
  destruct (find_parameter args []) as [custom_task_args|]; simpl; [|done].
  destruct (find_parameter command []) as [custom_task_command|]; simpl; [|done].
  destruct (getitem "name" custom_task_args) as [ref_name|]; simpl; [|done].
  destruct (getitem "apiVersion" custom_task_args) as [apiVersion|]; simpl; [|done].
  destruct (getitem "kind" custom_task_args) as [kind|]; simpl; [|done].
  destruct (py_true _ && py_true _); [done|].
  destruct (if py_true (get_default "taskRef" _ _) then literal_eval _ else _)
    as [ignored|]; simpl; [|done].
  destruct (py_true (get_default "taskSpec" _ custom_task_args)).
  - destruct (literal_eval _) as [spec|]; simpl; [|done]. by intros [= <-].
  - by intros [= <-].
Qed.

Lemma custom_task_steps_name name task_ref steps task_ref' :
  get "name" task_ref = Some name →
  custom_task_steps TEKTON_CUSTOM_TASK_IMAGES literal_eval name task_ref steps = Ok task_ref' →
  get "name" task_ref' = Some name.
Proof.
  intros Hname. induction steps as [|step steps IH]; simpl; [by intros [= <-]|].
  destruct (as_dict step) as [i|]; simpl; [|done].
  destruct (py_in _ TEKTON_CUSTOM_TASK_IMAGES); [|done].
  destruct (getitem "params" task_ref) as [orig|]; simpl; [|done].
  apply custom_task_ref_name.
Qed.

Lemma label_task_ref_name pipeline_labels template task_ref task_ref' :
  label_task_ref pipeline_labels template task_ref = Ok task_ref' →
  get "name" task_ref' = get "name" task_ref.
Proof.
  unfold label_task_ref. destruct (py_true _); [|by intros [= <-]].
  destruct (getitem "taskSpec" task_ref) as [ts|]; simpl; [|done].
  destruct (as_dict ts) as [tsd|]; simpl; [|done].
  destruct (as_dict (get_default "metadata" _ tsd)) as [md|]; simpl; [|done].
  destruct (getitem "metadata" template) as [tm|]; simpl; [|done].
  destruct (as_dict tm) as [tmd|]; simpl; [|done].
  destruct (as_dict (get_default "labels" _ tmd)) as [lbls|]; simpl; [|done].
  intros [= <-]. by rewrite get_set_ne.
Qed.

Lemma task_branch_name pipeline_labels template task_ref :
  task_branch TEKTON_CUSTOM_TASK_IMAGES literal_eval pipeline_labels template = Ok task_ref →
  ∃ name, template_name template = Ok name ∧ get "name" task_ref = Some name.
Proof.
  unfold task_branch.
  destruct (template_name template) as [name|]; simpl; [|done].
  destruct (template_spec template) as [spec|]; simpl; [|done].
  destruct (as_list (get_default "params" _ spec)) as [params|]; simpl; [|done].
  destruct (name_value "default" params) as [named_params|]; simpl; [|done].
  destruct (if py_true (get_default "workspaces" _ spec) then _ else _)
    as [t1|] eqn:H1; simpl; [|done].
  assert (get "name" t1 = Some name) as Hname1.
  { destruct (py_true _); [|by injection H1 as <-].
    destruct (as_list _) as [items|]; simpl in H1; [|done].
    destruct (mapM _ items) as [ws|]; simpl in H1; [|done]. by injection H1 as <-. }
  destruct (as_list (get_default "steps" _ spec)) as [steps|]; simpl; [|done].
  destruct (custom_task_steps _ _ name t1 steps) as [t2|] eqn:H2; simpl; [|done].
  intros Hlabel. exists name. split; [done|].
  rewrite (label_task_ref_name _ _ _ _ Hlabel). by eapply custom_task_steps_name.
Qed.

(** A template is a condition when its kind is [Condition]. *)
Definition is_condition (template : dict) : bool :=
  match get "kind" template with
  | Some kind => py_eq kind (PStr "Condition")
  | None => false
  end.

(** X13: The first loop of [_create_pipeline_workflow] makes one task reference
    of each template that is no condition, in the order of the templates,
    and each bears the name of its template; the conditions add none to
    [task_refs]. *)
Theorem one_task_per_template (sanitize_k8s_name : k8s_opts → string → string)
    (pipeline_labels : dict) (condition_image_name : pyval) (raw_templates : list dict)
    (task_refs : list dict) (conditions : list (string * condition_entry)) :
  task_references TEKTON_CUSTOM_TASK_IMAGES DEFAULT_CONDITION_OUTPUT_KEYWORD literal_eval
    sanitize_k8s_name pipeline_labels condition_image_name raw_templates
  = Ok (task_refs, conditions) →
  Forall2 (λ template task_ref,
             ∃ name, template_name template = Ok name ∧ get "name" task_ref = Some name)
          (filter (λ template, is_condition template = false) raw_templates) task_refs.
Proof.
  unfold task_references. generalize raw_templates at 1 as all_templates.
  intros all_templates.
  assert (∀ acc,
            fold_result
              (λ (acc : list dict * list (string * condition_entry)) template,
                 kind ← getitem "kind" template;
                 if py_eq kind (PStr "Condition") then
                   entry ← condition_branch TEKTON_CUSTOM_TASK_IMAGES
                             DEFAULT_CONDITION_OUTPUT_KEYWORD sanitize_k8s_name
                             condition_image_name all_templates template;
                   match entry with
                   | Some (PStr name, entry) => Ok (acc.1, set name entry acc.2)
                   | Some _ => Raise TypeError
                   | None => Ok acc
                   end
                 else
                   task_ref ← task_branch TEKTON_CUSTOM_TASK_IMAGES literal_eval
                                pipeline_labels template;
                   Ok (acc.1 ++ [task_ref], acc.2))
              acc raw_templates = Ok (task_refs, conditions) →
            ∃ new, task_refs = acc.1 ++ new
                   ∧ Forall2 (λ template task_ref,
                                ∃ name, template_name template = Ok name
                                        ∧ get "name" task_ref = Some name)
                             (filter (λ template, is_condition template = false)
                                     raw_templates) new) as Hgen.
  { induction raw_templates as [|template templates IH]; intros acc; simpl.
    - intros [= ->]. exists []. simpl. by rewrite app_nil_r.
    - destruct (getitem "kind" template) as [kind|] eqn:Hkind; simpl; [|done].
      assert (get "kind" template = Some kind) as Hget.
      { unfold getitem in Hkind. destruct (get "kind" template); by simplify_eq. }
      assert (is_condition template = py_eq kind (PStr "Condition")) as Hkind'.
      { unfold is_condition. by rewrite Hget. }
      destruct (py_eq kind (PStr "Condition")) eqn:Hcond.
      + rewrite filter_cons_False by (by rewrite Hkind').
        destruct (condition_branch _ _ _ _ _ template) as [entry|]; simpl; [|done].
        destruct entry as [[[| | |name| | | |] entry]|]; try done.
        * intros (new & -> & Hall)%IH. by exists new.
        * intros (new & -> & Hall)%IH. by exists new.
      + rewrite filter_cons_True by done.
        destruct (task_branch _ _ _ template) as [task_ref|] eqn:Hbranch; simpl; [|done].
        intros (new & -> & Hall)%IH. simpl. exists (task_ref :: new).
        split; [by rewrite <-app_assoc|]. constructor; [|done].
        by eapply task_branch_name. }
  intros Hrun. by destruct (Hgen ([], []) Hrun) as (new & -> & Hall).
Qed.

End WithConstants.

Lemma one_task_per_template_witness :
  Forall2 (λ template task_ref,
             ∃ name, template_name template = Ok name ∧ get "name" task_ref = Some name)
          (filter (λ template, is_condition template = false)
                  [TaskRefsFacts.greater_condition; TaskRefsFacts.echo_template])
          (match task_references [] "outcome" (λ _, Raise TypeError) K8s.sanitize_k8s_name []
                   (PStr "python:3.9.17-alpine3.18")
                   [TaskRefsFacts.greater_condition; TaskRefsFacts.echo_template] with
           | Ok r => r.1
           | Raise _ => []
           end).
Proof.
  eapply (one_task_per_template [] "outcome" (λ _, Raise TypeError) K8s.sanitize_k8s_name []
            (PStr "python:3.9.17-alpine3.18")).
  vm_compute. reflexivity.
Defined.

End TaskRefsMore.

(** ** The cleaning of the workflow *)

Module CleanupFacts.
Import PyDict Doc Cleanup ValidatorFacts.

(** The kept items of a list and of a dictionary. *)
Definition kept_item (o : pyval) : Prop := py_eq o (PList []) = false.

#[local] Instance kept_item_dec o : Decision (kept_item o).
Proof. unfold kept_item. apply _. Defined.

Lemma remove_empty_elements_list l :
  remove_empty_elements (PList l) = PList (remove_empty_elements <$> filter kept_item l).
Proof.
  simpl. f_equal. induction l as [|o l IH]; [done|].
  rewrite filter_cons. destruct (decide (kept_item o)) as [Hkept|Hempty].
  - unfold kept_item in Hkept. rewrite Hkept. simpl. by rewrite IH.
  - apply not_false_is_true in Hempty. by rewrite Hempty.
Qed.

Lemma remove_empty_elements_dict d :
  remove_empty_elements (PDict d)
  = PDict ((λ kv, (kv.1, remove_empty_elements kv.2)) <$> filter (λ kv, kept_item kv.2) d).
Proof.
  simpl. f_equal. induction d as [|[k v] d IH]; [done|].
  rewrite filter_cons. simpl. destruct (decide (kept_item v)) as [Hkept|Hempty].
  - unfold kept_item in Hkept. rewrite Hkept. simpl. by rewrite IH.
  - apply not_false_is_true in Hempty. by rewrite Hempty.
Qed.

Lemma py_eq_empty_list o : py_eq o (PList []) = true → o = PList [].
Proof. destruct o as [| | | | |[|x l]| |]; simpl; congruence. Qed.

(** The values of a document that are neither lists nor dictionaries, each
    with the keys that lead to it, in the order of the document. *)
Fixpoint leaves (obj : pyval) : list (list string * pyval) :=
  match obj with
  | PList l =>
      (fix all (l : list pyval) : list (list string * pyval) :=
         match l with
         | [] => []
         | o :: l' => leaves o ++ all l'
         end) l
  | PDict d =>
      (fix all (d : list (string * pyval)) : list (list string * pyval) :=
         match d with
         | [] => []
         | (k, v) :: d' => ((λ leaf, (k :: leaf.1, leaf.2)) <$> leaves v) ++ all d'
         end) d
  | _ => [([], obj)]
  end.

Lemma leaves_list l : leaves (PList l) = concat (leaves <$> l).
Proof. simpl. induction l as [|o l IH]; [done|]. simpl. by rewrite IH. Qed.

Lemma leaves_dict d :
  leaves (PDict d)
  = concat ((λ kv, (λ leaf, (kv.1 :: leaf.1, leaf.2)) <$> leaves kv.2) <$> d).
Proof. simpl. induction d as [|[k v] d IH]; [done|]. simpl. by rewrite IH. Qed.

(** Some item of a list, or some value of a dictionary, of the document is
    the empty list. *)
Fixpoint has_empty (obj : pyval) : bool :=
  match obj with
  | PList l =>
      (fix any (l : list pyval) : bool :=
         match l with
         | [] => false
         | o :: l' => py_eq o (PList []) || has_empty o || any l'
         end) l
  | PDict d =>
      (fix any (d : list (string * pyval)) : bool :=
         match d with
         | [] => false
         | (_, v) :: d' => py_eq v (PList []) || has_empty v || any d'
         end) d
  | _ => false
  end.

Lemma has_empty_list l :
  has_empty (PList l) = false ↔ Forall (λ o, kept_item o ∧ has_empty o = false) l.
Proof.
  simpl. induction l as [|o l IH]; [done|]. rewrite Forall_cons, <-IH.
  unfold kept_item. rewrite !orb_false_iff. tauto.
Qed.

Lemma has_empty_dict d :
  has_empty (PDict d) = false ↔ Forall (λ kv, kept_item kv.2 ∧ has_empty kv.2 = false) d.
Proof.
  simpl. induction d as [|[k v] d IH]; [done|]. rewrite Forall_cons, <-IH.
  unfold kept_item. simpl. rewrite !orb_false_iff. tauto.
Qed.

Lemma filter_all {A} (P : A → Prop) `{!∀ x, Decision (P x)} (l : list A) :
  Forall P l → filter P l = l.
Proof.
  induction 1 as [|x l Hx _ IH]; [done|]. by rewrite filter_cons_True, IH.
Qed.

Lemma filter_same_length {A} (P : A → Prop) `{!∀ x, Decision (P x)} (l : list A) :
  length (filter P l) = length l → Forall P l.
Proof.
  intros Hlen. apply Forall_forall. intros x Hx.
  destruct (decide (P x)) as [|Hnot]; [done|].
  pose proof (length_filter_lt P l x Hx Hnot). lia.
Qed.

Lemma fmap_fixed {A} (f : A → A) (l : list A) : f <$> l = l → Forall (λ x, f x = x) l.
Proof.
  induction l as [|x l IH]; [done|]. intros [= Hx Hl]. constructor; auto.
Qed.

(** X14: [remove_empty_elements] loses nothing but lists: every value of the
    workflow that is neither a list nor a dictionary is still there, under
    the same keys and in the same order. *)
Theorem cleaning_keeps_the_leaves (obj : pyval) :
  leaves (remove_empty_elements obj) = leaves obj.
Proof.
  induction obj as [| | | | |l IH|d IH|] using pyval_ind'; try done.
  - rewrite remove_empty_elements_list, !leaves_list.
    induction IH as [|o l Ho _ IHl]; [done|].
    rewrite filter_cons. destruct (decide (kept_item o)) as [Hkept|Hempty].
    + rewrite !fmap_cons. cbn [concat]. by rewrite Ho, IHl.
    + apply not_false_is_true, py_eq_empty_list in Hempty as ->.
      rewrite fmap_cons. cbn [concat]. by rewrite IHl.
  - rewrite remove_empty_elements_dict, !leaves_dict.
    induction IH as [|[k v] d Hv _ IHd]; [done|].
    rewrite filter_cons. cbn [snd] in *.
    destruct (decide (kept_item v)) as [Hkept|Hempty].
    + rewrite !fmap_cons. cbn [concat fst snd]. by rewrite Hv, IHd.
    + apply not_false_is_true, py_eq_empty_list in Hempty as ->.
      rewrite fmap_cons. cbn [concat fst snd]. by rewrite IHd.
Qed.

(** X15: [remove_empty_elements] returns a document as it is exactly when no
    item of a list and no value of a dictionary in it is the empty list. *)
Theorem cleaning_changes_only_empty_lists (obj : pyval) :
  remove_empty_elements obj = obj ↔ has_empty obj = false.
Proof.
  induction obj as [| | | | |l IH|d IH|] using pyval_ind'; try done.
  - rewrite remove_empty_elements_list, has_empty_list. split.
    + intros [= Hsame].
      assert (Forall kept_item l) as Hkept.
      { apply (filter_same_length kept_item l).
        rewrite <-Hsame at 2. by rewrite length_fmap. }
      rewrite filter_all in Hsame by done. apply fmap_fixed in Hsame.
      rewrite Forall_forall in IH, Hkept, Hsame. apply Forall_forall. intros o Ho.
      split; [by apply Hkept|]. apply IH; [done|]. by apply Hsame.
    + intros Hall. rewrite filter_all by (eapply Forall_impl; [done|]; by intros ? []).
      f_equal. rewrite <-(list_fmap_id l) at 2. apply Forall_fmap_ext_1.
      rewrite Forall_forall in IH, Hall. apply Forall_forall. intros o Ho.
      apply IH; [done|]. by apply Hall.
  - rewrite remove_empty_elements_dict, has_empty_dict. split.
    + intros [= Hsame].
      assert (Forall (λ kv, kept_item kv.2) d) as Hkept.
      { apply (filter_same_length (λ kv : string * pyval, kept_item kv.2) d).
        rewrite <-Hsame at 2. by rewrite length_fmap. }
      rewrite filter_all in Hsame by done. apply fmap_fixed in Hsame.
      rewrite Forall_forall in IH, Hkept, Hsame. apply Forall_forall. intros [k v] Hkv.
      split; [by apply (Hkept (k, v))|]. apply (IH (k, v)); [done|].
      specialize (Hsame (k, v) Hkv). simpl in *. congruence.
    + intros Hall. rewrite filter_all by (eapply Forall_impl; [done|]; by intros ? []).
      f_equal. rewrite <-(list_fmap_id d) at 2. apply Forall_fmap_ext_1.
      rewrite Forall_forall in IH, Hall. apply Forall_forall. intros [k v] Hkv.
      simpl. f_equal. apply (IH (k, v)); [done|]. by apply (Hall (k, v)).
Qed.

End CleanupFacts.

(** ** The keys of the security context *)

Module PodTemplateFacts.
Import PyStr PodTemplate.

Lemma upper_not_lower c : K8s.is_lower c = true → K8s.is_lower (upper c) = false.
Proof. destruct c as [[] [] [] [] [] [] [] []]; vm_compute; congruence. Qed.

Lemma upper_not_underscore c : K8s.is_lower c = true → upper c ≠ "_"%char.
Proof. destruct c as [[] [] [] [] [] [] [] []]; vm_compute; congruence. Qed.

Lemma underscore_not_lower : K8s.is_lower "_" = false.
Proof. done. Qed.

(** The first character of a converted name is the first character of the
    name, or a capital. *)
Lemma python_name_to_yaml_name_head c rest :
  ∃ d tail, python_name_to_yaml_name (String c rest) = String d tail
            ∧ (d = c ∨ K8s.is_lower d = false).
Proof.
  destruct rest as [|c' rest]; simpl; [by eexists _, _; split; [|left]|].
  destruct (bool_decide (c = "_"%char) && K8s.is_lower c') eqn:Hmatch.
  - apply andb_true_iff in Hmatch as [_ Hlower].
    eexists _, _. split; [done|]. right. by apply upper_not_lower.
  - eexists _, _. split; [done|]. by left.
Qed.

Lemma python_name_to_yaml_name_again_below n :
  ∀ name, String.length name ≤ n →
          python_name_to_yaml_name (python_name_to_yaml_name name)
          = python_name_to_yaml_name name.
Proof.
  induction n as [|n IH]; intros [|c [|c' rest]] Hlen; simpl in Hlen; try done; try lia.
  change (python_name_to_yaml_name (String c (String c' rest)))
    with (if bool_decide (c = "_"%char) && K8s.is_lower c'
          then String (upper c') (python_name_to_yaml_name rest)
          else String c (python_name_to_yaml_name (String c' rest))).
  destruct (bool_decide (c = "_"%char) && K8s.is_lower c') eqn:Hmatch.
  - apply andb_true_iff in Hmatch as [_ Hlower].
    assert (python_name_to_yaml_name (python_name_to_yaml_name rest)
            = python_name_to_yaml_name rest) as Hrest by (apply IH; lia).
    destruct (python_name_to_yaml_name rest) as [|d tail] eqn:Hout; [done|].
    simpl. rewrite bool_decide_eq_false_2 by by apply upper_not_underscore.
    simpl. simpl in Hrest. by rewrite Hrest.
  - assert (python_name_to_yaml_name (python_name_to_yaml_name (String c' rest))
            = python_name_to_yaml_name (String c' rest)) as Hrest
      by (apply IH; simpl; lia).
    destruct (python_name_to_yaml_name_head c' rest) as (d & tail & Hout & Hhead).
    rewrite Hout in Hrest |- *.
    change (python_name_to_yaml_name (String c (String d tail)))
      with (if bool_decide (c = "_"%char) && K8s.is_lower d
            then String (upper d) (python_name_to_yaml_name tail)
            else String c (python_name_to_yaml_name (String d tail))).
    assert (bool_decide (c = "_"%char) && K8s.is_lower d = false) as ->; [|by rewrite Hrest].
    destruct Hhead as [-> | ->]; [done|]. by rewrite andb_false_r.
Qed.

(** X16: [python_name_to_yaml_name] is idempotent: a converted key is
    converted to itself (no underscore before a small letter is left in
    it). *)
Theorem python_name_to_yaml_name_idempotent (name : string) :
  python_name_to_yaml_name (python_name_to_yaml_name name) = python_name_to_yaml_name name.
Proof. by apply (python_name_to_yaml_name_again_below (String.length name)). Qed.

(** The text holds no underscore. *)
Fixpoint plain (s : string) : bool :=
  match s with
  | EmptyString => true
  | String c s' => negb (bool_decide (c = "_"%char)) && plain s'
  end.

(** The text begins with a small letter. *)
Definition starts_lower (s : string) : bool :=
  match s with
  | String c _ => K8s.is_lower c
  | EmptyString => false
  end.

(** [w.capitalize()] for a word that begins with a small letter. *)
Definition capitalize (w : string) : string :=
  match w with
  | String c w' => String (upper c) w'
  | EmptyString => EmptyString
  end.

Fixpoint concat_words (ws : list string) : string :=
  match ws with
  | [] => EmptyString
  | w :: ws' => w +:+ concat_words ws'
  end.

Lemma python_name_to_yaml_name_plain s t :
  plain s = true →
  python_name_to_yaml_name (s +:+ t) = s +:+ python_name_to_yaml_name t.
Proof.
  induction s as [|c s IH]; [done|]. intros Hplain. simpl in Hplain.
  apply andb_true_iff in Hplain as [Hc Hs]. apply negb_true_iff in Hc.
  change (String c s +:+ t) with (String c (s +:+ t)).
  destruct (s +:+ t) as [|c' rest] eqn:Happ.
  - destruct s; [|done]. simpl in Happ. by subst t.
  - change (python_name_to_yaml_name (String c (String c' rest)))
      with (if bool_decide (c = "_"%char) && K8s.is_lower c'
            then String (upper c') (python_name_to_yaml_name rest)
            else String c (python_name_to_yaml_name (String c' rest))).
    rewrite Hc. cbn [andb]. by rewrite IH.
Qed.

Lemma python_name_to_yaml_name_word w t :
  plain w = true → starts_lower w = true →
  python_name_to_yaml_name ("_" +:+ w +:+ t) = capitalize w +:+ python_name_to_yaml_name t.
Proof.
  destruct w as [|c w]; [done|]. simpl.
  intros [_ Hw]%andb_true_iff Hlower. rewrite Hlower. simpl.
  by rewrite python_name_to_yaml_name_plain.
Qed.

(** X17: [python_name_to_yaml_name] turns a name in snake case into camel
    case: for words without underscore joined by single underscores, each
    word after the first beginning with a small letter, the result is the
    first word followed by the other words capitalized. *)
Theorem python_name_to_yaml_name_camel_case (first : string) (words : list string) :
  plain first = true →
  Forall (λ w, plain w = true ∧ starts_lower w = true) words →
  python_name_to_yaml_name (first +:+ concat_words ((λ w, "_" +:+ w) <$> words))
  = first +:+ concat_words (capitalize <$> words).
Proof.
  intros Hfirst Hwords. rewrite python_name_to_yaml_name_plain by done. f_equal.
  induction Hwords as [|w words [Hplain Hlower] _ IH]; [done|].
  rewrite !fmap_cons. cbn [concat_words].
  rewrite <-IH. rewrite <-python_name_to_yaml_name_word by done.
  by rewrite PyStrFacts.app_assoc'.
Qed.

Lemma python_name_to_yaml_name_camel_case_witness :
  python_name_to_yaml_name "run_as_non_root" = "runAsNonRoot".
Proof.
  apply (python_name_to_yaml_name_camel_case "run" ["as"; "non"; "root"]); [done|].
  repeat constructor.
Defined.

End PodTemplateFacts.

(** ** The parameters of a resource op *)

Module ResourceOpsFacts.
Import PyStr PyDict Doc ResourceOps PyDictFacts.

(** [tp.get('name') == name] *)
Definition is_named (name : string) (tp : dict) : bool := py_eq (param_name tp) (PStr name).

(** The parameters that take their value from the resource, with the key of
    the resource that gives it. *)
Definition resource_keys : list (string * string) :=
  [("action", "action"); ("merge-strategy", "merge_strategy");
   ("success-condition", "successCondition"); ("failure-condition", "failureCondition");
   ("set-ownerreference", "setOwnerReference")].

(** The names that [_process_resourceOp] has a rule for. *)
Definition ruled : list string := ["image"; "output"] ++ resource_keys.*1.

(** A parameter that [_process_resourceOp] has no rule for. *)
Definition ordinary (tp : dict) : Prop := Forall (λ name, is_named name tp = false) ruled.

#[local] Instance ordinary_dec tp : Decision (ordinary tp).
Proof. unfold ordinary. apply _. Defined.

Lemma ordinary_named tp : ordinary tp → ∀ name, name ∈ ruled → is_named name tp = false.
Proof. unfold ordinary. by rewrite Forall_forall. Qed.

Ltac in_ruled := cbv; repeat constructor.

Lemma py_eq_str x s : py_eq x (PStr s) = true → x = PStr s.
Proof. destruct x; simpl; try done. by intros ->%bool_decide_eq_true. Qed.

Lemma is_named_once name name' tp :
  is_named name tp = true → is_named name' tp = true → name = name'.
Proof. unfold is_named. intros H%py_eq_str H'%py_eq_str. congruence. Qed.

Lemma param_name_set_value v tp : param_name (set "value" v tp) = param_name tp.
Proof. unfold param_name, get_default. by rewrite get_set_ne. Qed.

Lemma is_named_set_value name name' v tp :
  is_named name (set_value name' v tp) = is_named name tp.
Proof.
  unfold set_value, is_named. destruct (_ && _); [|done]. by rewrite param_name_set_value.
Qed.

Section WithDedent.
Variable dedent : string → string.

Lemma is_named_fill_param name resource outs tp :
  is_named name (fill_param dedent resource outs tp) = is_named name tp.
Proof.
  assert (∀ name' v tp', param_name (set_value name' v tp') = param_name tp') as Hset.
  { intros name' v tp'. unfold set_value. destruct (_ && _); [|done].
    apply param_name_set_value. }
  unfold is_named. f_equal. unfold fill_param. destruct (py_eq _ (PStr "output")).
  - by rewrite param_name_set_value, !Hset.
  - by rewrite !Hset.
Qed.

Lemma set_value_other name v tp : is_named name tp = false → set_value name v tp = tp.
Proof. unfold set_value, is_named. by intros ->. Qed.

Lemma set_value_hit name v tp :
  is_named name tp = true → py_true v = true → set_value name v tp = set "value" v tp.
Proof. unfold set_value, is_named. by intros -> ->. Qed.

Lemma fill_param_ordinary resource outs tp :
  ordinary tp → fill_param dedent resource outs tp = tp.
Proof.
  intros Hord. pose proof (ordinary_named _ Hord) as Hnamed. clear Hord.
  rename Hnamed into Hord. unfold fill_param.
  rewrite !set_value_other by (rewrite ?is_named_set_value; apply Hord; in_ruled).
  assert (is_named "output" tp = false) as Hout by (apply Hord; in_ruled).
  unfold is_named in Hout. by rewrite Hout.
Qed.

Lemma ordinary_fill_param resource outs tp :
  ordinary (fill_param dedent resource outs tp) ↔ ordinary tp.
Proof.
  unfold ordinary. rewrite !Forall_forall. split; intros Hord name Hname.
  - rewrite <-(is_named_fill_param name resource outs). by apply Hord.
  - rewrite is_named_fill_param. by apply Hord.
Qed.

(** The value that [fill_param] gives to a parameter of one of the names of
    [resource_keys]. *)
Lemma fill_param_value resource outs tp name key :
  (name, key) ∈ resource_keys → is_named name tp = true →
  py_true (get_default key PNone resource) = true →
  get "value" (fill_param dedent resource outs tp) = Some (get_default key PNone resource).
Proof.
  intros Hkey Hname Htrue.
  assert (∀ name', name' ≠ name → is_named name' tp = false) as Hother.
  { intros name' Hne. destruct (is_named name' tp) eqn:Hname'; [|done].
    destruct Hne. by eapply is_named_once. }
  assert (is_named "output" tp = false) as Hout.
  { apply Hother. intros <-. set_solver. }
  unfold fill_param.
  assert (∀ tp', is_named "output" tp' = false →
                 (if py_eq (param_name tp') (PStr "output")
                  then set "value" (PStr (output_values dedent outs)) tp' else tp') = tp')
    as Hskip by (unfold is_named; by intros tp' ->).
  rewrite Hskip by (by rewrite !is_named_set_value).
  repeat (apply elem_of_cons in Hkey as [[= -> ->]|Hkey]);
    [..|by apply elem_of_nil in Hkey];
    rewrite ?(set_value_other "action"), ?(set_value_other "merge-strategy"),
      ?(set_value_other "success-condition"), ?(set_value_other "failure-condition"),
      ?(set_value_other "set-ownerreference")
      by (rewrite ?is_named_set_value; by apply Hother);
    rewrite set_value_hit by (rewrite ?is_named_set_value; done);
    rewrite ?(set_value_other "action"), ?(set_value_other "merge-strategy"),
      ?(set_value_other "success-condition"), ?(set_value_other "failure-condition"),
      ?(set_value_other "set-ownerreference")
      by (unfold is_named; rewrite ?param_name_set_value; by apply Hother);
    by rewrite get_set_eq.
Qed.

Lemma fill_param_output resource outs tp :
  is_named "output" tp = true →
  get "value" (fill_param dedent resource outs tp) = Some (PStr (output_values dedent outs)).
Proof.
  intros Hout. unfold fill_param.
  assert (is_named "output"
            (set_value "set-ownerreference" (get_default "setOwnerReference" PNone resource)
               (set_value "failure-condition" (get_default "failureCondition" PNone resource)
                  (set_value "success-condition" (get_default "successCondition" PNone resource)
                     (set_value "merge-strategy" (get_default "merge_strategy" PNone resource)
                        (set_value "action" (get_default "action" PNone resource) tp)))))
          = true) as Hout' by (by rewrite !is_named_set_value).
  unfold is_named in Hout'. rewrite Hout'. by rewrite get_set_eq.
Qed.

Lemma mapM_dicts (l : list dict) :
  mapM (λ tp, match tp with PDict d => Ok d | _ => Raise AttributeError end) (PDict <$> l)
  = Ok l.
Proof.
  induction l as [|d l IH]; [done|]. simpl.
  change (list_fmap dict pyval PDict l) with (PDict <$> l). by rewrite IH.
Qed.

Lemma params_of_set (l : list dict) (task : dict) :
  params_of (set "params" (PList (PDict <$> l)) task) = Ok l.
Proof.
  unfold params_of, get_default. rewrite get_set_eq. simpl. apply mapM_dicts.
Qed.

(** A task under way: its parameters are [params], and its other keys are
    those of the task [task0] given to [process_task]. *)
Definition under_way (task0 : dict) (params : list dict) (task : dict) : Prop :=
  params_of task = Ok params ∧ ∀ k, k ≠ "params" → get k task = get k task0.

Lemma drop_param_under_way task0 params task name :
  under_way task0 params task →
  ∃ task', drop_param name task = Ok task'
           ∧ under_way task0 (filter (λ tp, is_named name tp = false) params) task'.
Proof.
  intros [Hparams Hkeys]. unfold drop_param. rewrite Hparams. simpl.
  eexists. split; [done|]. split; [apply params_of_set|].
  intros k Hk. rewrite get_set_ne by done. by apply Hkeys.
Qed.

Lemma optional_under_way task0 params task name (value : pyval) :
  under_way task0 params task →
  ∃ task', (if py_true value then Ok task else drop_param name task) = Ok task'
           ∧ under_way task0
               (filter (λ tp, is_named name tp = true → py_true value = true) params) task'.
Proof.
  intros Hway. destruct (py_true value) eqn:Hvalue.
  - exists task. split; [done|]. by rewrite CleanupFacts.filter_all by by apply Forall_forall.
  - destruct (drop_param_under_way _ _ _ name Hway) as (task' & -> & Hway').
    exists task'. split; [done|].
    rewrite (list_filter_iff _ (λ tp, is_named name tp = false)); [done|].
    intros tp. destruct (is_named name tp); naive_solver.
Qed.

Lemma filter_ordinary_filter (Q : dict → Prop) `{!∀ tp, Decision (Q tp)} (l : list dict) :
  (∀ tp, ordinary tp → Q tp) → filter ordinary (filter Q l) = filter ordinary l.
Proof.
  intros HQ. rewrite list_filter_filter. apply list_filter_iff. naive_solver.
Qed.

Lemma filter_ordinary_fill resource outs (l : list dict) :
  filter ordinary (fill_param dedent resource outs <$> l) = filter ordinary l.
Proof.
  induction l as [|tp l IH]; [done|]. rewrite fmap_cons, !filter_cons.
  destruct (decide (ordinary tp)) as [Hord|Hnot].
  - rewrite decide_True by by apply ordinary_fill_param.
    by rewrite IH, fill_param_ordinary.
  - rewrite decide_False by by rewrite ordinary_fill_param.
    done.
Qed.

(** X18: [_process_resourceOp] on the task of a resource op, whose
    parameters are dictionaries: the task keeps its other keys; the
    parameters that have no rule (any name but [image], [output] and the
    five names of the resource) are all kept, unchanged and in their order;
    no parameter named [image] is left; a parameter with one of the four
    optional names is left only if the resource gives a value for it, and
    then bears that value, as does [action]; [output] bears the text made of
    the attribute outputs. *)
Theorem resource_op_params (ops : list (string * op)) (task : dict) (n : string)
    (resource : dict) (outs : list (string * string)) (params : list dict) :
  get "name" task = Some (PStr n) →
  get n ops = Some (ResourceOp resource outs) →
  params_of task = Ok params →
  ∃ task' params',
    process_task dedent ops task = Ok task'
    ∧ get "params" task' = Some (PList (PDict <$> params'))
    ∧ (∀ k, k ≠ "params" → get k task' = get k task)
    ∧ filter ordinary params' = filter ordinary params
    ∧ Forall (λ tp,
                is_named "image" tp = false
                ∧ (is_named "output" tp = true →
                   get "value" tp = Some (PStr (output_values dedent outs)))
                ∧ ∀ name key,
                    (name, key) ∈ resource_keys → is_named name tp = true →
                    (py_true (get_default key PNone resource) = true
                     ∧ get "value" tp = Some (get_default key PNone resource))
                    ∨ (name = "action"
                       ∧ py_true (get_default "action" PNone resource) = false))
             params'.
Proof.
  intros Hname Hop Hparams. unfold process_task, getitem. rewrite Hname. simpl. rewrite Hop.
  assert (under_way task params task) as Hway by done.
  destruct (drop_param_under_way _ _ _ "image" Hway) as (t1 & -> & H1). simpl.
  destruct (optional_under_way _ _ _ "merge-strategy"
              (get_default "merge_strategy" PNone resource) H1) as (t2 & -> & H2). simpl.
  destruct (optional_under_way _ _ _ "success-condition"
              (get_default "successCondition" PNone resource) H2) as (t3 & -> & H3). simpl.
  destruct (optional_under_way _ _ _ "failure-condition"
              (get_default "failureCondition" PNone resource) H3) as (t4 & -> & H4). simpl.
  destruct (optional_under_way _ _ _ "set-ownerreference"
              (get_default "setOwnerReference" PNone resource) H4) as (t5 & -> & H5). simpl.
  destruct H5 as [-> Hkeys]. simpl.
  eexists _, _. split; [done|]. split; [by rewrite get_set_eq|].
  split; [by intros k Hk; rewrite get_set_ne by done; apply Hkeys|]. split.
  - rewrite filter_ordinary_fill.
    rewrite !filter_ordinary_filter; [done|..]; intros tp Hord;
      pose proof (ordinary_named _ Hord) as Hnot;
      try intros Hnamed; try (rewrite Hnot in Hnamed by in_ruled; done).
    apply Hnot. in_ruled.
  - apply Forall_fmap, Forall_forall. intros tp Htp. simpl.
    rewrite !is_named_fill_param.
    apply list_elem_of_filter in Htp as [Hsor Htp].
    apply list_elem_of_filter in Htp as [Hfc Htp].
    apply list_elem_of_filter in Htp as [Hsc Htp].
    apply list_elem_of_filter in Htp as [Hms Htp].
    apply list_elem_of_filter in Htp as [Himage _].
    split; [done|]. split; [apply fill_param_output|].
    intros name key Hkey Hnamed. rewrite is_named_fill_param in Hnamed.
    destruct (py_true (get_default key PNone resource)) eqn:Hvalue.
    + left. split; [done|]. by apply (fill_param_value _ _ _ name).
    + right. repeat (apply elem_of_cons in Hkey as [[= -> ->]|Hkey]);
        [done|..|by apply elem_of_nil in Hkey];
        [specialize (Hms Hnamed)|specialize (Hsc Hnamed)
         |specialize (Hfc Hnamed)|specialize (Hsor Hnamed)]; congruence.
Qed.

End WithDedent.

(** A resource op that applies a manifest, and its task. *)
Definition apply_op : op :=
  ResourceOp [("action", PStr "apply"); ("successCondition", PStr "status.phase == Ready")]
             [("name", "{.metadata.name}")].

Definition apply_task : dict :=
  [("name", PStr "create-volume");
   ("params", PList (PDict <$> [[("name", PStr "action"); ("value", PStr "create")];
                                [("name", PStr "image"); ("value", PStr "kubectl")];
                                [("name", PStr "merge-strategy"); ("value", PStr "")];
                                [("name", PStr "size"); ("value", PStr "1Gi")]]))].

Lemma resource_op_params_witness :
  ∃ task', process_task id [("create-volume", apply_op)] apply_task = Ok task'
           ∧ get "params" task'
             = Some (PList (PDict <$> [[("name", PStr "action"); ("value", PStr "apply")];
                                       [("name", PStr "size"); ("value", PStr "1Gi")]])).
Proof.
  destruct (resource_op_params id [("create-volume", apply_op)] apply_task "create-volume"
              [("action", PStr "apply"); ("successCondition", PStr "status.phase == Ready")]
              [("name", "{.metadata.name}")]
              [[("name", PStr "action"); ("value", PStr "create")];
               [("name", PStr "image"); ("value", PStr "kubectl")];
               [("name", PStr "merge-strategy"); ("value", PStr "")];
               [("name", PStr "size"); ("value", PStr "1Gi")]]
              eq_refl eq_refl eq_refl) as (task' & params' & Hrun & _).
  exists task'. split; [done|].
  vm_compute in Hrun. injection Hrun as <-. reflexivity.
Defined.

End ResourceOpsFacts.

(** ** More on the items of a static loop *)

Module LoopArgsMore.
Import PyDict Doc LoopArgs.

(** A value without [items()]: anything but a dictionary. *)
Definition no_items (v : pyval) : Prop :=
  match v with
  | PDict _ | PSpecOf _ => False
  | _ => True
  end.

Section WithSanitizer.
Variable sanitize_k8s_name : k8s_opts → string → string.

Lemma sanitize_items_raise (l : list pyval) (x : pyval) :
  x ∈ l → no_items x →
  mapM (λ argument_set,
          match argument_set with
          | PDict d => Ok (PDict (sanitize_argument_set sanitize_k8s_name d))
          | _ => Raise AttributeError
          end) l = Raise AttributeError.
Proof.
  intros Hx Hno. induction Hx as [x l|x y l Hx IH].
  - by destruct x.
  - simpl in *. destruct y; try done. by rewrite IH.
Qed.

(** X19: the items of a static loop are taken for dictionaries as soon as
    the first one is a dictionary: a list that begins with a dictionary and
    holds an item of another kind raises [AttributeError], whatever the
    place of that item. *)
Theorem static_loop_args_mixed_items (d : dict) (rest : list pyval) (x : pyval) :
  x ∈ rest → no_items x →
  static_loop_args sanitize_k8s_name (PDict d :: rest) = Raise AttributeError.
Proof.
  intros Hx Hno. unfold static_loop_args.
  by rewrite (sanitize_items_raise (PDict d :: rest) x) by (done || by right).
Qed.

End WithSanitizer.

Lemma static_loop_args_mixed_items_witness :
  static_loop_args K8s.sanitize_k8s_name
    [PDict [("a", PInt 1)]; PDict [("a", PInt 2)]; PStr "three"]
  = Raise AttributeError.
Proof.
  apply (static_loop_args_mixed_items K8s.sanitize_k8s_name _ _ (PStr "three")); [|done].
  set_solver.
Defined.

End LoopArgsMore.
